(** * Generalised relayer: test harness, polymer collector and submitter
      configuration.

    A shallow embedding of the TypeScript sources and the properties proved
    about them.

    Conventions of the embedding.
    - A JS [number] that holds an integer (block numbers, milliseconds,
      counters) is a [Z]; the fractional gas-limit buffers are [Q].  Integer
      valued doubles are exact under [%], so [Z.rem] (truncated, sign of the
      dividend) is the JS remainder.
    - An optional or nullable field is an [option]; [None] stands for both
      [undefined] and [null], which is all that [??] and [== undefined]
      distinguish.
    - A JS object used as a map ([Record<string, T>], [Map<string, T>]) is a
      [gmap string T].
    - Code that can throw returns a [Completion]. *)

From Stdlib Require Import ZArith QArith Qminmax Lia.
From stdpp Require Import base option list strings pretty gmap fin_maps.

#[local] Open Scope Z_scope.
#[local] Open Scope string_scope.
#[local] Open Scope list_scope.

(** ** Completions: a normal value or a thrown error *)

Inductive Completion (A : Type) : Type :=
  | Normal (a : A)
  | Throw (message : string).
Arguments Normal {A} a.
Arguments Throw {A} message.

Definition bindC {A B} (c : Completion A) (k : A -> Completion B) : Completion B :=
  match c with
  | Normal a => k a
  | Throw e => Throw e
  end.

(** [try { body } catch { handler }] *)
Definition tryCatch {A} (body : Completion A) (handler : string -> Completion A)
  : Completion A :=
  match body with
  | Normal a => Normal a
  | Throw e => handler e
  end.

(** [a ?? b] *)
Definition nullish {A} (a : option A) (b : A) : A :=
  match a with
  | Some x => x
  | None => b
  end.
Infix "??" := nullish (at level 45, left associativity).

(** [a ?? b] where [b] may itself be nullish *)
Definition nullishOpt {A} (a b : option A) : option A :=
  match a with
  | Some x => Some x
  | None => b
  end.

(* ===================================================================== *)
(** ** src/common/utils.ts *)
(* ===================================================================== *)

Module Utils.

(** The values [tryErrorToString] can be handed ([error: any]) and can hand
    back, as far as the function can tell them apart: [undefined], [null], a
    primitive string, or anything else, which is known only by what calling
    its [toString()] does: return a value, a string as [toString(): string]
    is declared or any other value, since nothing checks it, or throw (a
    value without a [toString] method throws a [TypeError]). *)
#[warnings="-register-all"]
Inductive JsValue : Type :=
  | JsUndefined
  | JsNull
  | JsString (s : string)
  | JsOther (toStringOutcome : Completion JsValue).

(** [error == undefined] *)
Definition looseEqUndefined (v : JsValue) : bool :=
  match v with
  | JsUndefined | JsNull => true
  | _ => false
  end.

(** [error.toString()] *)
Definition callToString (v : JsValue) : Completion JsValue :=
  match v with
  | JsUndefined => Throw "TypeError: Cannot read properties of undefined"
  | JsNull => Throw "TypeError: Cannot read properties of null"
  | JsString s => Normal (JsString s)
  | JsOther outcome => outcome
  end.

Definition UNABLE_TO_STRINGIFY : string := "Unable to stringify error.".

(** [tryErrorToString]: the value returned, declared [string | undefined]. *)
Definition tryErrorToString (error : JsValue) : Completion JsValue :=
  if looseEqUndefined error then Normal JsUndefined
  else
    match error with
    | JsString s => (* typeof error == "string" *) Normal (JsString s)
    | _ =>
        tryCatch (callToString error) (fun _ => Normal (JsString UNABLE_TO_STRINGIFY))
    end.

(** *** getSwapIdentifier *)

(** The arguments handed to [defaultAbiCoder.encode]: strings (hex bytes,
    addresses), bigints and numbers. *)
Inductive AbiArg : Type :=
  | ArgString (s : string)
  | ArgBigint (n : Z)
  | ArgNumber (n : Z).

Definition SWAP_IDENTIFIER_TYPES : list string :=
  ["bytes"; "uint256"; "uint256"; "address"; "uint32"].

Section SwapIdentifier.
(** ethers' [keccak256] and [AbiCoder.encode] are library code: the hash maps
    the encoded bytes to a hex string, and the encoder throws on a value that
    does not fit its type ([None]). *)
Variable keccak256 : string -> string.
Variable abiEncode : list string -> list AbiArg -> option string.

(** [blockNumber % 2 ** 32] *)
Definition blockNumberMod (blockNumber : Z) : Z := Z.rem blockNumber (2 ^ 32).

Definition getSwapIdentifier (toAccount : string) (units fromAmountMinusFee : Z)
    (fromAsset : string) (blockNumber : Z) : option string :=
  keccak256 <$>
    abiEncode SWAP_IDENTIFIER_TYPES
      [ArgString toAccount; ArgBigint units; ArgBigint fromAmountMinusFee;
       ArgString fromAsset; ArgNumber (blockNumberMod blockNumber)].
End SwapIdentifier.

End Utils.

(* ===================================================================== *)
(** ** The configuration service, as the modules below read it *)
(* ===================================================================== *)

Module Config.

(** The submitter section of the relayer configuration and of a chain's
    configuration, with the keys the submitter service reads.  Every key is
    optional. *)
Record SubmitterConfig : Type := {
  cfg_enabled : option bool;
  cfg_newOrdersDelay : option Z;
  cfg_retryInterval : option Z;
  cfg_processingInterval : option Z;
  cfg_maxTries : option Z;
  cfg_maxPendingTransactions : option Z;
  cfg_confirmations : option Z;
  cfg_confirmationTimeout : option Z;
  cfg_lowBalanceWarning : option Z;
  cfg_balanceUpdateInterval : option Z;
  cfg_gasLimitBuffer : option (gmap string Q);
  cfg_maxFeePerGas : option Z;
  cfg_maxPriorityFeeAdjustmentFactor : option Q;
  cfg_maxAllowedPriorityFeePerGas : option Z;
  cfg_gasPriceAdjustmentFactor : option Q;
  cfg_maxAllowedGasPrice : option Z;
  cfg_priorityAdjustmentFactor : option Q;
}.

Record GetterConfig : Type := {
  cfg_interval : option Z;
  cfg_maxBlocks : option Z;
}.

Record AMBConfig : Type := {
  amb_name : string;
  getIncentivesAddress : string -> string;
}.

Record ChainConfig : Type := {
  chainId : string;
  rpc : string;
  startingBlock : option Z;
  stoppingBlock : option Z;
  chain_blockDelay : option Z;
  getter : GetterConfig;
  submitter : SubmitterConfig;
}.

Record RelayerConfig : Type := {
  privateKey : string;
  relayer_submitter : SubmitterConfig;
}.

Record GlobalConfig : Type := {
  global_blockDelay : option Z;
  global_getter : GetterConfig;
}.

(** [ambsConfig] and [chainsConfig] are [Map]s: [ambsConfig] is kept with its
    keys, in insertion order; of [chainsConfig] only the values are read, in
    insertion order.  [getAMBConfig amb key chainId] is the service's lookup of
    an AMB's per-chain setting, [None] when it is not configured. *)
Record ConfigService : Type := {
  relayerConfig : RelayerConfig;
  globalConfig : GlobalConfig;
  ambsConfig : list (string * AMBConfig);
  chainsConfig : list ChainConfig;
  getAMBConfig : string -> string -> string -> option string;
}.

(** The logger service, by the one member the modules read: the options
    handed on to the workers ([pino]'s [LoggerOptions], here its settings by
    name). *)
Definition LoggerOptions : Type := list (string * string).

Record LoggerService : Type := {
  loggerOptions : LoggerOptions;
}.

(** [map.get(key)] on a [Map] kept as its entries *)
Definition mapGet {V} (entries : list (string * V)) (key : string) : option V :=
  snd <$> List.find (fun entry => String.eqb (fst entry) key) entries.

End Config.

(* ===================================================================== *)
(** ** The submitter service *)
(* ===================================================================== *)

Module Submitter.
Import Config.

Definition RETRY_INTERVAL_DEFAULT : Z := 2000.
Definition PROCESSING_INTERVAL_DEFAULT : Z := 100.
Definition MAX_TRIES_DEFAULT : Z := 3.
Definition MAX_PENDING_TRANSACTIONS : Z := 1000.
Definition NEW_ORDERS_DELAY_DEFAULT : Z := 0.
Definition CONFIRMATIONS_DEFAULT : Z := 1.
Definition CONFIRMATION_TIMEOUT_DEFAULT : Z := 10 * 60000.
Definition BALANCE_UPDATE_INTERVAL_DEFAULT : Z := 50.

Record GlobalSubmitterConfig : Type := {
  enabled : bool;
  newOrdersDelay : Z;
  retryInterval : Z;
  processingInterval : Z;
  maxTries : Z;
  maxPendingTransactions : Z;
  confirmations : Z;
  confirmationTimeout : Z;
  lowBalanceWarning : option Z;
  balanceUpdateInterval : Z;
  gasLimitBuffer : gmap string Q;
}.

Record SubmitterWorkerData : Type := {
  wd_chainId : string;
  wd_rpc : string;
  wd_relayerPrivateKey : string;
  wd_incentivesAddresses : gmap string string;
  wd_newOrdersDelay : Z;
  wd_retryInterval : Z;
  wd_processingInterval : Z;
  wd_maxTries : Z;
  wd_maxPendingTransactions : Z;
  wd_confirmations : Z;
  wd_confirmationTimeout : Z;
  wd_gasLimitBuffer : gmap string Q;
  wd_maxFeePerGas : option Z;
  wd_maxPriorityFeeAdjustmentFactor : option Q;
  wd_maxAllowedPriorityFeePerGas : option Z;
  wd_gasPriceAdjustmentFactor : option Q;
  wd_maxAllowedGasPrice : option Z;
  wd_priorityAdjustmentFactor : option Q;
  wd_lowBalanceWarning : option Z;
  wd_balanceUpdateInterval : Z;
  wd_loggerOptions : LoggerOptions;
}.

(** [if (!('default' in gasLimitBuffer)) { gasLimitBuffer['default'] = 0; }] *)
Definition withDefaultKey (gasLimitBuffer : gmap string Q) : gmap string Q :=
  if decide (is_Some (gasLimitBuffer !! "default")) then gasLimitBuffer
  else <["default" := 0%Q]> gasLimitBuffer.

Definition loadGlobalSubmitterConfig (configService : ConfigService)
  : GlobalSubmitterConfig :=
  let submitterConfig := relayer_submitter (relayerConfig configService) in
  {| enabled := cfg_enabled submitterConfig ?? true;
     newOrdersDelay := cfg_newOrdersDelay submitterConfig ?? NEW_ORDERS_DELAY_DEFAULT;
     retryInterval := cfg_retryInterval submitterConfig ?? RETRY_INTERVAL_DEFAULT;
     processingInterval :=
       cfg_processingInterval submitterConfig ?? PROCESSING_INTERVAL_DEFAULT;
     maxTries := cfg_maxTries submitterConfig ?? MAX_TRIES_DEFAULT;
     maxPendingTransactions :=
       cfg_maxPendingTransactions submitterConfig ?? MAX_PENDING_TRANSACTIONS;
     confirmations := cfg_confirmations submitterConfig ?? CONFIRMATIONS_DEFAULT;
     confirmationTimeout :=
       cfg_confirmationTimeout submitterConfig ?? CONFIRMATION_TIMEOUT_DEFAULT;
     lowBalanceWarning := cfg_lowBalanceWarning submitterConfig;
     balanceUpdateInterval :=
       cfg_balanceUpdateInterval submitterConfig ?? BALANCE_UPDATE_INTERVAL_DEFAULT;
     gasLimitBuffer := withDefaultKey (cfg_gasLimitBuffer submitterConfig ?? ∅) |}.

(** [for (const key in source) { target[key] = source[key]; }] *)
Definition copyKeys (source target : gmap string Q) : gmap string Q :=
  map_fold (fun key value acc => <[key := value]> acc) target source.

Definition getChainGasLimitBufferConfig
    (defaultGasLimitBufferConfig chainGasLimitBufferConfig : gmap string Q)
  : gmap string Q :=
  let gasLimitBuffers : gmap string Q := ∅ in
  (* Apply defaults *)
  let gasLimitBuffers := copyKeys defaultGasLimitBufferConfig gasLimitBuffers in
  (* Apply chain overrides *)
  copyKeys chainGasLimitBufferConfig gasLimitBuffers.

Definition loadWorkerData (configService : ConfigService)
    (loggerService : LoggerService)
    (chainConfig : ChainConfig) (globalConfig : GlobalSubmitterConfig)
  : SubmitterWorkerData :=
  let incentivesAddresses :=
    foldl (fun acc entry =>
             let amb := snd entry in
             <[amb_name amb := getIncentivesAddress amb (chainId chainConfig)]> acc)
          (∅ : gmap string string) (ambsConfig configService) in
  let sub := submitter chainConfig in
  {| wd_chainId := chainId chainConfig;
     wd_rpc := rpc chainConfig;
     wd_relayerPrivateKey := privateKey (relayerConfig configService);
     wd_incentivesAddresses := incentivesAddresses;
     wd_newOrdersDelay := cfg_newOrdersDelay sub ?? newOrdersDelay globalConfig;
     wd_retryInterval := cfg_retryInterval sub ?? retryInterval globalConfig;
     wd_processingInterval :=
       cfg_processingInterval sub ?? processingInterval globalConfig;
     wd_maxTries := cfg_maxTries sub ?? maxTries globalConfig;
     wd_maxPendingTransactions :=
       cfg_maxPendingTransactions sub ?? maxPendingTransactions globalConfig;
     wd_confirmations := cfg_confirmations sub ?? confirmations globalConfig;
     wd_confirmationTimeout :=
       cfg_confirmationTimeout sub ?? confirmationTimeout globalConfig;
     wd_gasLimitBuffer :=
       getChainGasLimitBufferConfig (gasLimitBuffer globalConfig)
         (cfg_gasLimitBuffer sub ?? ∅);
     wd_maxFeePerGas := cfg_maxFeePerGas sub;
     wd_maxPriorityFeeAdjustmentFactor := cfg_maxPriorityFeeAdjustmentFactor sub;
     wd_maxAllowedPriorityFeePerGas := cfg_maxAllowedPriorityFeePerGas sub;
     wd_gasPriceAdjustmentFactor := cfg_gasPriceAdjustmentFactor sub;
     wd_maxAllowedGasPrice := cfg_maxAllowedGasPrice sub;
     wd_priorityAdjustmentFactor := cfg_priorityAdjustmentFactor sub;
     wd_lowBalanceWarning :=
       nullishOpt (cfg_lowBalanceWarning sub) (lowBalanceWarning globalConfig);
     wd_balanceUpdateInterval :=
       cfg_balanceUpdateInterval sub ?? balanceUpdateInterval globalConfig;
     wd_loggerOptions := loggerOptions loggerService |}.

(** [onModuleInit]: the worker data of the workers it starts, one per chain,
    and none when the submitter is disabled. *)
Definition onModuleInit (configService : ConfigService)
    (loggerService : LoggerService) : list SubmitterWorkerData :=
  let globalSubmitterConfig := loadGlobalSubmitterConfig configService in
  if negb (enabled globalSubmitterConfig) then []
  else
    (fun chainConfig =>
       loadWorkerData configService loggerService chainConfig globalSubmitterConfig)
      <$> chainsConfig configService.

(** Modelled from the spec: the submitter worker that applies the buffer is
    not among the sources; the spec gives
    [gasLimit = gasEstimate × (1 + gasLimitBuffer[orderKind] ?? gasLimitBuffer.default)].
    This is the buffer that formula looks up, [None] when neither key is
    there. *)
Definition gasLimitBufferFor (buffers : gmap string Q) (orderKind : string) : option Q :=
  nullishOpt (buffers !! orderKind) (buffers !! "default").

End Submitter.

(* ===================================================================== *)
(** ** src/collector/polymer/polymer.ts *)
(* ===================================================================== *)

Module Polymer.
Import Config.

Record GlobalPolymerConfig : Type := {
  blockDelay : Z;
  interval : Z;
  maxBlocks : option Z;
}.

Record PolymerWorkerData : Type := {
  wd_chainId : string;
  wd_rpc : string;
  wd_startingBlock : option Z;
  wd_stoppingBlock : option Z;
  wd_blockDelay : Z;
  wd_interval : Z;
  wd_maxBlocks : option Z;
  wd_incentivesAddress : string;
  wd_polymerAddress : string;
  wd_loggerOptions : LoggerOptions;
}.

(** What the module does to the outside, in the order it does it: a worker
    thread created with its data, and a line logged at level info. *)
Inductive Effect : Type :=
  | NewWorker (workerData : PolymerWorkerData)
  | LogInfo (chainId : string) (message : string).

(** [workers: Record<string, Worker | null>]; a worker is known by the data it
    was created with. *)
Abbreviation Workers := (gmap string (option PolymerWorkerData)).

Definition POLYMER_NOT_FOUND : string :=
  "Failed to load Polymer module: 'polymer' configuration not found.".
Definition CHAIN_INCOMPLETE : string :=
  "Polymer configuration for chain not found or incomplete.".
Definition WORKER_EXITED : string := "Polymer collector service worker exited.".

Section Getter.
(** The getter service's defaults, imported from [src/getter/getter.service]. *)
Variable DEFAULT_GETTER_BLOCK_DELAY : Z.
Variable DEFAULT_GETTER_INTERVAL : Z.
Variable DEFAULT_GETTER_MAX_BLOCKS : option Z.

Definition loadGlobalPolymerConfig (configService : ConfigService)
  : Completion GlobalPolymerConfig :=
  match mapGet (ambsConfig configService) "polymer" with
  | None => Throw POLYMER_NOT_FOUND
  | Some _ =>
      let getterConfig := global_getter (globalConfig configService) in
      Normal
        {| blockDelay :=
             global_blockDelay (globalConfig configService) ?? DEFAULT_GETTER_BLOCK_DELAY;
           interval := cfg_interval getterConfig ?? DEFAULT_GETTER_INTERVAL;
           maxBlocks := nullishOpt (cfg_maxBlocks getterConfig) DEFAULT_GETTER_MAX_BLOCKS |}
  end.

Definition loadWorkerData (configService : ConfigService)
    (loggerService : LoggerService)
    (chainConfig : ChainConfig) (globalConfig : GlobalPolymerConfig)
  : option PolymerWorkerData :=
  let chainId := chainId chainConfig in
  let incentivesAddress := getAMBConfig configService "polymer" "incentivesAddress" chainId in
  let polymerAddress := getAMBConfig configService "polymer" "bridgeAddress" chainId in
  match incentivesAddress, polymerAddress with
  | Some incentivesAddress, Some polymerAddress =>
      Some
        {| wd_chainId := chainId;
           wd_rpc := rpc chainConfig;
           wd_startingBlock := startingBlock chainConfig;
           wd_stoppingBlock := stoppingBlock chainConfig;
           wd_blockDelay := chain_blockDelay chainConfig ?? blockDelay globalConfig;
           wd_interval := cfg_interval (getter chainConfig) ?? interval globalConfig;
           wd_maxBlocks :=
             nullishOpt (cfg_maxBlocks (getter chainConfig)) (maxBlocks globalConfig);
           wd_incentivesAddress := incentivesAddress;
           wd_polymerAddress := polymerAddress;
           wd_loggerOptions := loggerOptions loggerService |}
  | _, _ => None
  end.

(** The body of [chainsConfig.forEach]: what has been done so far and the
    [workers] record, before and after one chain. *)
Definition startChain (configService : ConfigService)
    (loggerService : LoggerService) (globalPolymerConfig : GlobalPolymerConfig)
    (state : list Effect * Workers) (chainConfig : ChainConfig)
  : list Effect * Workers :=
  match loadWorkerData configService loggerService chainConfig globalPolymerConfig with
  | Some workerData =>
      (state.1 ++ [NewWorker workerData],
       <[wd_chainId workerData := Some workerData]> state.2)
  | None =>
      (state.1 ++ [LogInfo (chainId chainConfig) CHAIN_INCOMPLETE], state.2)
  end.

(** The module's default export, up to the point where the status interval is
    set: what it did, and the [workers] record or the error thrown. *)
Definition polymerModule (configService : ConfigService)
    (loggerService : LoggerService) : list Effect * Completion Workers :=
  match loadGlobalPolymerConfig configService with
  | Throw message => ([], Throw message)
  | Normal globalPolymerConfig =>
      let done :=
        foldl (startChain configService loggerService globalPolymerConfig) ([], ∅)
          (chainsConfig configService) in
      (done.1, Normal done.2)
  end.
End Getter.

(** [worker.on('exit', ...)] of the worker started for [chainId] *)
Definition onWorkerExit (chainId : string) (workers : Workers) : Workers :=
  <[chainId := None]> workers.

(** [Object.keys(workers)].  The keys come in the map's order, not in the
    order JS lists them; what is proved of the status lists is about which
    chains they hold. *)
Definition objectKeys (workers : Workers) : list string := (map_to_list workers).*1.

(** [workers[chainId] != null] *)
Definition isActive (workers : Workers) (chainId : string) : bool :=
  match workers !! chainId with
  | Some (Some _) => true
  | _ => false
  end.

Record Status : Type := {
  activeWorkers : list string;
  inactiveWorkers : list string;
}.

Definition logStatus (workers : Workers) : Status :=
  let lists :=
    foldl (fun (lists : list string * list string) chainId =>
             if isActive workers chainId
             then (lists.1 ++ [chainId], lists.2)
             else (lists.1, lists.2 ++ [chainId]))
          ([], []) (objectKeys workers) in
  {| activeWorkers := lists.1; inactiveWorkers := lists.2 |}.

(** What the module does for one chain. *)
Definition effectOf (configService : ConfigService) (loggerService : LoggerService)
    (globalPolymerConfig : GlobalPolymerConfig) (chainConfig : ChainConfig) : Effect :=
  match loadWorkerData configService loggerService chainConfig globalPolymerConfig with
  | Some workerData => NewWorker workerData
  | None => LogInfo (chainId chainConfig) CHAIN_INCOMPLETE
  end.

(** The workers created, by their data, and how many of them for a chain. *)
Definition created (effects : list Effect) : list PolymerWorkerData :=
  omap (fun effect =>
          match effect with
          | NewWorker workerData => Some workerData
          | LogInfo _ _ => None
          end) effects.

Definition workersCreatedFor (effects : list Effect) (chain : string) : nat :=
  length (filter (fun workerData => wd_chainId workerData = chain) (created effects)).

(** The polymer configuration of a chain is complete. *)
Definition complete (configService : ConfigService) (chain : string) : Prop :=
  is_Some (getAMBConfig configService "polymer" "incentivesAddress" chain) ∧
  is_Some (getAMBConfig configService "polymer" "bridgeAddress" chain).

(** The chains a worker is started for: those an exit handler is registered
    for. *)
Definition workerStarted (configService : ConfigService) (chain : string) : Prop :=
  (∃ chainConfig,
     chainConfig ∈ chainsConfig configService ∧ chainId chainConfig = chain) ∧
  complete configService chain.

(** The [workers] record as the status interval can find it: as the module
    left it, and after any number of workers have exited. *)
Inductive Reachable (dBlockDelay dInterval : Z) (dMaxBlocks : option Z)
    (configService : ConfigService) (loggerService : LoggerService)
  : Workers -> Prop :=
  | reach_init effects workers :
      polymerModule dBlockDelay dInterval dMaxBlocks configService loggerService
        = (effects, Normal workers) ->
      Reachable dBlockDelay dInterval dMaxBlocks configService loggerService workers
  | reach_exit workers chain :
      Reachable dBlockDelay dInterval dMaxBlocks configService loggerService workers ->
      workerStarted configService chain ->
      Reachable dBlockDelay dInterval dMaxBlocks configService loggerService
        (onWorkerExit chain workers).

End Polymer.

(* ===================================================================== *)
(** ** tests/utils/query-logs.ts *)
(* ===================================================================== *)

Module QueryLogs.

Record Log : Type := {
  log_address : string;
  log_blockHash : string;
  log_blockNumber : Z;
  log_transactionHash : string;
  log_index : Z;
}.

Record Filter : Type := {
  address : string;
  topics : list string;
  blockHash : option string;
}.

(** [incentivesEscrowInterface: any], by the two members the code uses:
    [getEvent(name)], here the [topicHash] of the fragment found or [None]
    when there is none (reading [.topicHash] then throws), and [parseLog(log)],
    here the [messageIdentifier] argument of the parsed log, [None] when the
    log does not parse, or the error thrown. *)
Record EscrowInterface : Type := {
  getEvent : string -> option string;
  parseLog : Log -> Completion (option string);
}.

(** [provider.getLogs(filter)]: the answer to the call with [filter] when [n]
    calls have been made before it, a list of logs or a rejection. *)
Definition JsonRpcProvider : Type := Filter -> nat -> Completion (list Log).

(** How far an [async] call has come when it is watched for a bounded number
    of loop iterations: resolved with a log or [undefined], rejected, or still
    polling. *)
Inductive Outcome : Type :=
  | Resolved (log : option Log)
  | Rejected (message : string)
  | Polling.

(** An outcome, with the number of [getLogs] calls made and the [wait]s
    awaited (in milliseconds, latest first). *)
Record Run : Type := {
  outcome : Outcome;
  polls : nat;
  waits : list Z;
}.

(** A JS string used as a condition: [undefined] and [''] are falsy. *)
Definition truthy (s : option string) : bool :=
  match s with
  | Some s => negb (String.eqb s "")
  | None => false
  end.

Section Harness.
(** [config.global.getter.retryInterval], a [number] or [undefined]: [None] is
    the [undefined] the guard of [queryLogs] compares it with. *)
Variable retryInterval : option Z.
Variable provider : JsonRpcProvider.

(** The [while (true)] loop of [queryLogsByBlock], run for at most [fuel]
    iterations; [filter] already carries the block hash. *)
Fixpoint queryLogsByBlockLoop (interval : Z) (fuel : nat) (filter : Filter)
    (polled : nat) (waited : list Z) : Run :=
  match fuel with
  | O => {| outcome := Polling; polls := polled; waits := waited |}
  | S fuel' =>
      match provider filter polled with
      | Throw message =>
          {| outcome := Rejected message; polls := S polled; waits := waited |}
      | Normal (log :: _) =>
          {| outcome := Resolved (Some log); polls := S polled; waits := waited |}
      | Normal [] =>
          queryLogsByBlockLoop interval fuel' filter (S polled) (interval :: waited)
      end
  end.

Definition queryLogsByBlock (interval : Z) (fuel : nat) (filter : Filter)
    (blockHash : string) : Run :=
  let filter :=
    {| address := address filter; topics := topics filter;
       blockHash := Some blockHash |} in
  queryLogsByBlockLoop interval fuel filter 0 [].

(** The [for (const log of logs)] loop of [queryLogsByMessageIdentifier]. *)
Fixpoint findByMessageIdentifier (incentivesEscrowInterface : EscrowInterface)
    (messageIdentifier : string) (logs : list Log) : Completion (option Log) :=
  match logs with
  | [] => Normal None
  | log :: rest =>
      bindC (parseLog incentivesEscrowInterface log) (fun parsed =>
        if decide (parsed = Some messageIdentifier) then Normal (Some log)
        else findByMessageIdentifier incentivesEscrowInterface messageIdentifier rest)
  end.

Fixpoint queryLogsByMessageIdentifierLoop (interval : Z) (fuel : nat)
    (filter : Filter) (incentivesEscrowInterface : EscrowInterface)
    (messageIdentifier : string) (polled : nat) (waited : list Z) : Run :=
  match fuel with
  | O => {| outcome := Polling; polls := polled; waits := waited |}
  | S fuel' =>
      let found :=
        tryCatch
          (bindC (provider filter polled)
                 (findByMessageIdentifier incentivesEscrowInterface messageIdentifier))
          (fun _ => Normal None) in
      match found with
      | Normal (Some log) =>
          {| outcome := Resolved (Some log); polls := S polled; waits := waited |}
      | _ =>
          queryLogsByMessageIdentifierLoop interval fuel' filter
            incentivesEscrowInterface messageIdentifier (S polled) (interval :: waited)
      end
  end.

Definition RETRY_INTERVAL_UNDEFINED : string := "Retry interval is not defined".
Definition NO_SUCH_EVENT : string :=
  "TypeError: Cannot read properties of null (reading 'topicHash')".

Definition queryLogs (fuel : nat) (incentiveAddress : string)
    (incentivesEscrowInterface : EscrowInterface) (eventName : string)
    (blockHash messageIdentifier : option string) : Run :=
  match retryInterval with
  | None => {| outcome := Rejected RETRY_INTERVAL_UNDEFINED; polls := 0; waits := [] |}
  | Some interval =>
      match getEvent incentivesEscrowInterface eventName with
      | None => {| outcome := Rejected NO_SUCH_EVENT; polls := 0; waits := [] |}
      | Some eventTopic =>
          let filter :=
            {| address := incentiveAddress; topics := [eventTopic];
               blockHash := None |} in
          if truthy blockHash then
            queryLogsByBlock interval fuel filter (blockHash ?? "")
          else if truthy messageIdentifier then
            queryLogsByMessageIdentifierLoop interval fuel filter
              incentivesEscrowInterface (messageIdentifier ?? "") 0 []
          else {| outcome := Resolved None; polls := 0; waits := [] |}
      end
  end.
End Harness.

(** The filter [queryLogs] polls with when it is given a block hash. *)
Definition blockFilter (incentiveAddress eventTopic blockHash : string) : Filter :=
  {| address := incentiveAddress; topics := [eventTopic];
     blockHash := Some blockHash |}.

End QueryLogs.

(* ===================================================================== *)
(** ** The Store and its merge rule *)
(* ===================================================================== *)

(** The tests drive [Store] ([setBountyPlaced], [setMessageDelivered],
    [getRelayStateByKey], ...) but its code ([src/store/store.lib]) is not
    among the sources: this module follows the specification's data model
    (section 3), merge rule (section 4.2) and key-value contract (section
    4.3). *)
Module Store.

(** Modelled from the spec: where an event was seen, the [txHash],
    [blockHash] and [blockNumber] of the variants of section 3 and the
    [logIndex] of the merge rule. *)
Record EventMeta : Type := {
  txHash : string;
  blockHash : string;
  blockNumber : Z;
  logIndex : Z;
}.

(** Modelled from the spec: an event as one slot of a RelayState keeps it
    ("latest seen variant for each event kind"), where it was seen and the
    variant's own fields. *)
Record Observation (P : Type) : Type := {
  meta : EventMeta;
  details : P;
}.
Arguments meta {P} _.
Arguments details {P} _.

(** Modelled from the spec: the fields of [BountyPlaced], of
    [BountyIncreased] and of [MessageDelivered] in section 3; [BountyClaimed]
    has none of its own. *)
Record PlacedDetails : Type := {
  fromChainId : string;
  incentivesAddress : string;
  maxGasDelivery : Z;
  maxGasAck : Z;
  refundGasTo : string;
  priceOfDeliveryGas : Z;
  priceOfAckGas : Z;
  targetDelta : Z;
  payload : string;
}.

(** Modelled from the spec: [BountyIncreased{ MID, newPriceOfDeliveryGas,
    newPriceOfAckGas, … }]. *)
Record IncreasedDetails : Type := {
  newPriceOfDeliveryGas : Z;
  newPriceOfAckGas : Z;
}.

(** Modelled from the spec: [MessageDelivered{ MID, toChainId, txHash, … }]. *)
Record DeliveredDetails : Type := {
  toChainId : string;
}.

(** Modelled from the spec: the tagged union [BountyEvent] of section 3, each
    variant with its message identifier. *)
Inductive BountyEvent : Type :=
  | BountyPlaced (mid : string) (e : Observation PlacedDetails)
  | BountyIncreased (mid : string) (e : Observation IncreasedDetails)
  | MessageDelivered (mid : string) (e : Observation DeliveredDetails)
  | BountyClaimed (mid : string) (e : Observation unit).

(** Modelled from the spec: the MID an event is stored under. *)
Definition eventMid (event : BountyEvent) : string :=
  match event with
  | BountyPlaced mid _ | BountyIncreased mid _
  | MessageDelivered mid _ | BountyClaimed mid _ => mid
  end.

(** Modelled from the spec: [statusOf(Placed|Increased)=0],
    [statusOf(Delivered)=1], [statusOf(Claimed)=2]. *)
Definition statusOf (event : BountyEvent) : nat :=
  match event with
  | BountyPlaced _ _ | BountyIncreased _ _ => 0
  | MessageDelivered _ _ => 1
  | BountyClaimed _ _ => 2
  end.

(** Modelled from the spec: the per-message aggregate of section 3. *)
Record RelayState : Type := {
  status : nat;
  messageIdentifier : string;
  bountyPlacedEvent : option (Observation PlacedDetails);
  bountyIncreasedEvent : option (Observation IncreasedDetails);
  messageDeliveredEvent : option (Observation DeliveredDetails);
  bountyClaimedEvent : option (Observation unit);
  deliveryGasCost : option Z;
  ackGasCost : option Z;
  deliveryAttempts : nat;
  ackAttempts : nat;
}.

(** Modelled from the spec: the RelayState a message starts from, status 0
    (Placed), no slot populated, no cost observed, no attempt counted. *)
Definition newRelayState (mid : string) : RelayState :=
  {| status := 0; messageIdentifier := mid;
     bountyPlacedEvent := None; bountyIncreasedEvent := None;
     messageDeliveredEvent := None; bountyClaimedEvent := None;
     deliveryGasCost := None; ackGasCost := None;
     deliveryAttempts := 0; ackAttempts := 0 |}.

(** Modelled from the spec: the order of the merge rule, [(blockNumber,
    logIndex)] of [a] is larger than that of [b]. *)
Definition laterThan (a b : EventMeta) : bool :=
  ((blockNumber b <? blockNumber a)
   || ((blockNumber b =? blockNumber a) && (logIndex b <? logIndex a)))%Z.

(** Modelled from the spec: "the matching event-slot is filled with E's
    payload (later observations with larger (blockNumber, logIndex) win over
    earlier ones for the same slot)". *)
Definition mergeSlot {P} (slot : option (Observation P)) (new : Observation P)
  : option (Observation P) :=
  match slot with
  | None => Some new
  | Some old => if laterThan (meta new) (meta old) then Some new else Some old
  end.

(** Modelled from the spec: the merge rule of section 4.2, (i) the slot and
    (ii) [status = max(S.status, statusOf(E))]. *)
Definition merge (state : RelayState) (event : BountyEvent) : RelayState :=
  {| status := Nat.max (status state) (statusOf event);
     messageIdentifier := messageIdentifier state;
     bountyPlacedEvent :=
       match event with
       | BountyPlaced _ e => mergeSlot (bountyPlacedEvent state) e
       | _ => bountyPlacedEvent state
       end;
     bountyIncreasedEvent :=
       match event with
       | BountyIncreased _ e => mergeSlot (bountyIncreasedEvent state) e
       | _ => bountyIncreasedEvent state
       end;
     messageDeliveredEvent :=
       match event with
       | MessageDelivered _ e => mergeSlot (messageDeliveredEvent state) e
       | _ => messageDeliveredEvent state
       end;
     bountyClaimedEvent :=
       match event with
       | BountyClaimed _ e => mergeSlot (bountyClaimedEvent state) e
       | _ => bountyClaimedEvent state
       end;
     deliveryGasCost := deliveryGasCost state;
     ackGasCost := ackGasCost state;
     deliveryAttempts := deliveryAttempts state;
     ackAttempts := ackAttempts state |}.

(** Modelled from the spec: the key-value map of section 4.3, keyed by
    ["relay_state:" + MID]. *)
Abbreviation StoreMap := (gmap string RelayState).

(** Modelled from the spec: the key ["relay_state:"+MID], as the tests also
    build it. *)
Definition relayStateKey (mid : string) : string := "relay_state:" +:+ mid.
Arguments relayStateKey : simpl never.

(** Modelled from the spec: [get(key)]; the tests call it
    [getRelayStateByKey], with [null] for a key that is not there. *)
Definition getRelayStateByKey (store : StoreMap) (key : string) : option RelayState :=
  store !! key.

(** Modelled from the spec: the Collector "upserts" an event "into the Store
    under its MID". *)
Definition applyEvent (store : StoreMap) (event : BountyEvent) : StoreMap :=
  let key := relayStateKey (eventMid event) in
  let current := (store !! key) ?? newRelayState (eventMid event) in
  <[key := merge current event]> store.

(** Modelled from the spec: what the Wallet and the Submitter write back, the
    gas cost of a confirmed delivery or ack, and one more attempt counted
    after a failed order. *)
Inductive WalletUpdate : Type :=
  | DeliveryConfirmed (mid : string) (gasCost : Z)
  | AckConfirmed (mid : string) (gasCost : Z)
  | DeliveryFailed (mid : string)
  | AckFailed (mid : string).

(** Modelled from the spec: the MID whose state a write-back goes to. *)
Definition walletMid (update : WalletUpdate) : string :=
  match update with
  | DeliveryConfirmed mid _ | AckConfirmed mid _
  | DeliveryFailed mid | AckFailed mid => mid
  end.

(** Modelled from the spec: a write-back records "gas costs observed at
    delivery and ack" or counts an attempt ("Failed after maxTries increments
    the Store's attempt counter"); status and slots are the Collector's. *)
Definition recordWallet (update : WalletUpdate) (state : RelayState) : RelayState :=
  {| status := status state;
     messageIdentifier := messageIdentifier state;
     bountyPlacedEvent := bountyPlacedEvent state;
     bountyIncreasedEvent := bountyIncreasedEvent state;
     messageDeliveredEvent := messageDeliveredEvent state;
     bountyClaimedEvent := bountyClaimedEvent state;
     deliveryGasCost :=
       match update with
       | DeliveryConfirmed _ gasCost => Some gasCost
       | _ => deliveryGasCost state
       end;
     ackGasCost :=
       match update with
       | AckConfirmed _ gasCost => Some gasCost
       | _ => ackGasCost state
       end;
     deliveryAttempts :=
       match update with
       | DeliveryFailed _ => S (deliveryAttempts state)
       | _ => deliveryAttempts state
       end;
     ackAttempts :=
       match update with
       | AckFailed _ => S (ackAttempts state)
       | _ => ackAttempts state
       end |}.

(** Modelled from the spec: a write-back is a read-modify-write of the one
    key; it creates no state. *)
Definition applyWallet (store : StoreMap) (update : WalletUpdate) : StoreMap :=
  alter (recordWallet update) (relayStateKey (walletMid update)) store.

(** Modelled from the spec: everything that mutates a RelayState, "the
    Collector (event merge)" and "the Wallet (confirmation result, costs)". *)
Inductive Update : Type :=
  | FromCollector (event : BountyEvent)
  | FromWallet (update : WalletUpdate).

(** Modelled from the spec: one mutation of the Store. *)
Definition applyUpdate (store : StoreMap) (update : Update) : StoreMap :=
  match update with
  | FromCollector event => applyEvent store event
  | FromWallet update => applyWallet store update
  end.

(** Status 2 with the three event slots of the complete flow populated. *)
Definition terminal (state : RelayState) : Prop :=
  status state = 2%nat ∧ is_Some (bountyPlacedEvent state) ∧
  is_Some (messageDeliveredEvent state) ∧ is_Some (bountyClaimedEvent state).

(** The events of a list that go to one slot. *)
Definition placedOf (event : BountyEvent) : option (Observation PlacedDetails) :=
  match event with BountyPlaced _ e => Some e | _ => None end.
Definition increasedOf (event : BountyEvent) : option (Observation IncreasedDetails) :=
  match event with BountyIncreased _ e => Some e | _ => None end.
Definition deliveredOf (event : BountyEvent) : option (Observation DeliveredDetails) :=
  match event with MessageDelivered _ e => Some e | _ => None end.
Definition claimedOf (event : BountyEvent) : option (Observation unit) :=
  match event with BountyClaimed _ e => Some e | _ => None end.

(** [latest] holds of a slot and the observations offered to it when the slot
    holds one of them and none of them is later. *)
Definition latest {P} (offered : list (Observation P)) (slot : option (Observation P))
  : Prop :=
  match slot with
  | None => offered = []
  | Some held =>
      held ∈ offered ∧ ∀ other, other ∈ offered -> laterThan (meta other) (meta held) = false
  end.

(** No two different observations of a list were seen at the same
    [(blockNumber, logIndex)]. *)
Definition positionsIdentify {P} (offered : list (Observation P)) : Prop :=
  ∀ a b, a ∈ offered -> b ∈ offered ->
    blockNumber (meta a) = blockNumber (meta b) ->
    logIndex (meta a) = logIndex (meta b) -> a = b.

Definition coherent (events : list BountyEvent) : Prop :=
  positionsIdentify (omap placedOf events) ∧
  positionsIdentify (omap increasedOf events) ∧
  positionsIdentify (omap deliveredOf events) ∧
  positionsIdentify (omap claimedOf events).

(** One state comes after another: the status has not gone down (nor past
    2), and a populated slot of the complete flow is still populated. *)
Definition grows (before after : RelayState) : Prop :=
  (status before <= status after)%nat ∧
  (status after <= Nat.max (status before) 2)%nat ∧
  (is_Some (bountyPlacedEvent before) -> is_Some (bountyPlacedEvent after)) ∧
  (is_Some (messageDeliveredEvent before) -> is_Some (messageDeliveredEvent after)) ∧
  (is_Some (bountyClaimedEvent before) -> is_Some (bountyClaimedEvent after)).

End Store.

(* ===================================================================== *)
(** ** The Evaluator *)
(* ===================================================================== *)

(** The evaluator's code is not among the sources either; the tests only
    observe its effect on the relay state.  This module follows section 4.5
    of the specification. *)
Module Evaluator.
Import Store.

#[local] Open Scope Q_scope.

(** Modelled from the spec: the configuration knobs [minDeliveryReward],
    [relativeMinDeliveryReward] "and ack-equivalents". *)
Record EvaluatorConfig : Type := {
  minDeliveryReward : Q;
  relativeMinDeliveryReward : Q;
  minAckReward : Q;
  relativeMinAckReward : Q;
}.

(** Modelled from the spec: what the evaluator reads from outside at decision
    time, the gas estimate of the RPC ([None] when it gives none), the local
    gas price, and the Pricing oracle's value of a unit of the source
    denomination. *)
Record Market : Type := {
  gasEstimate : option Q;
  localGasPrice : Q;
  sourceRate : Q;
}.

(** Modelled from the spec: the [SubmitOrder] the evaluator produces, a
    [DeliveryOrder] or an [AckOrder] for a message. *)
Inductive SubmitOrder : Type :=
  | DeliveryOrder (mid : string)
  | AckOrder (mid : string).

(** Modelled from the spec: "Let gasEst be a gas estimate from the destination
    RPC (fallback: maxGas* × 1.1)". *)
Definition gasEst (market : Market) (maxGas : Z) : Q :=
  gasEstimate market ?? (inject_Z maxGas * 1.1).

(** Modelled from the spec: "priceOfDeliveryGas used by the Evaluator is
    max(original, latest BountyIncreased)", and the same for the ack price. *)
Definition deliveryPrice (placed : Observation PlacedDetails)
    (increased : option (Observation IncreasedDetails)) : Z :=
  match increased with
  | Some inc =>
      Z.max (priceOfDeliveryGas (details placed)) (newPriceOfDeliveryGas (details inc))
  | None => priceOfDeliveryGas (details placed)
  end.

(** Modelled from the spec: the ack-equivalent of [deliveryPrice]. *)
Definition ackPrice (placed : Observation PlacedDetails)
    (increased : option (Observation IncreasedDetails)) : Z :=
  match increased with
  | Some inc => Z.max (priceOfAckGas (details placed)) (newPriceOfAckGas (details inc))
  | None => priceOfAckGas (details placed)
  end.

(** Modelled from the spec: "valueIn = priceOfDeliveryGas × min(gasEst,
    maxGasDelivery) in source denomination, converted via Pricing". *)
Definition valueIn (market : Market) (price maxGas : Z) : Q :=
  sourceRate market * (inject_Z price * Qmin (gasEst market maxGas) (inject_Z maxGas)).

(** Modelled from the spec: "costOut = gasEst × localGasPrice". *)
Definition costOut (market : Market) (maxGas : Z) : Q :=
  gasEst market maxGas * localGasPrice market.

(** Modelled from the spec: the right-hand side of the profitability test,
    [costOut × (1 + relativeMinReward) + minReward]. *)
Definition requiredValue (market : Market) (maxGas : Z) (relativeMinReward minReward : Q)
  : Q :=
  costOut market maxGas * (1 + relativeMinReward) + minReward.

(** Modelled from the spec: "Emit the order iff valueIn ≥ costOut × (1 +
    relativeMinReward) + minReward". *)
Definition profitable (market : Market) (price maxGas : Z)
    (relativeMinReward minReward : Q) : bool :=
  Qle_bool (requiredValue market maxGas relativeMinReward minReward)
           (valueIn market price maxGas).

(** Modelled from the spec: the evaluator's contract, "status=0 and
    MessageDelivered absent ⇒ candidate DeliveryOrder", "status=1 and
    BountyClaimed absent ⇒ candidate AckOrder", the candidate emitted when it
    passes the profitability test. *)
Definition evaluate (config : EvaluatorConfig) (market : Market) (state : RelayState)
  : option SubmitOrder :=
  match bountyPlacedEvent state with
  | None => None
  | Some placed =>
      match status state, messageDeliveredEvent state, bountyClaimedEvent state with
      | O, None, _ =>
          if profitable market
               (deliveryPrice placed (bountyIncreasedEvent state))
               (maxGasDelivery (details placed))
               (relativeMinDeliveryReward config) (minDeliveryReward config)
          then Some (DeliveryOrder (messageIdentifier state)) else None
      | 1%nat, _, None =>
          if profitable market
               (ackPrice placed (bountyIncreasedEvent state))
               (maxGasAck (details placed))
               (relativeMinAckReward config) (minAckReward config)
          then Some (AckOrder (messageIdentifier state)) else None
      | _, _, _ => None
      end
  end.




End Evaluator.

(* ===================================================================== *)
(** ** src/common/utils.ts: the bounty as it is displayed *)
(* ===================================================================== *)

Module BountyDto.

(** [BountyStatus] ([src/store/types/bounty.enum]), by the members
    [getBountyStatus] switches over. *)
Inductive BountyStatus : Type :=
  | BountyPlaced
  | MessageDelivered
  | BountyClaimed.

Definition getBountyStatus (status : BountyStatus) : string :=
  match status with
  | BountyPlaced => "Bounty Placed"
  | MessageDelivered => "Message Delivered"
  | BountyClaimed => "Bounty Claimed"
  end.

Definition add0X (address : string) : string := "0x" +:+ address.

(** [Bounty] ([src/store/types/store.types]), by the fields [bountyToDTO]
    reads; the gas amounts and prices are bigints. *)
Record Bounty : Type := {
  messageIdentifier : string;
  maxGasDelivery : Z;
  maxGasAck : Z;
  refundGasTo : string;
  priceOfDeliveryGas : Z;
  priceOfAckGas : Z;
  targetDelta : Z;
  status : BountyStatus;
}.

Record BountyDTO : Type := {
  dto_messageIdentifier : string;
  dto_maxGasDelivery : string;
  dto_maxGasAck : string;
  dto_refundGasTo : string;
  dto_priceOfDeliveryGas : string;
  dto_priceOfAckGas : string;
  dto_targetDelta : string;
  dto_status : string;
}.

(** [bigint.toString()]: the decimal digits, after a [-] for a negative. *)
Definition bigintToString (n : Z) : string := pretty n.

Definition bountyToDTO (bounty : Bounty) : BountyDTO :=
  {| dto_messageIdentifier := messageIdentifier bounty;
     dto_maxGasDelivery := bigintToString (maxGasDelivery bounty);
     dto_maxGasAck := bigintToString (maxGasAck bounty);
     dto_refundGasTo := refundGasTo bounty;
     dto_priceOfDeliveryGas := bigintToString (priceOfDeliveryGas bounty);
     dto_priceOfAckGas := bigintToString (priceOfAckGas bounty);
     dto_targetDelta := bigintToString (targetDelta bounty);
     dto_status := getBountyStatus (status bounty) |}.

End BountyDto.

(* ===================================================================== *)
(** ** The submitter service: what loading the configuration writes *)
(* ===================================================================== *)

Module SubmitterEffects.
Import Config Submitter.

(** [loadGlobalSubmitterConfig] works on the configuration's own
    [gasLimitBuffer] object when there is one ([submitterConfig.gasLimitBuffer
    ?? {}]), so the ['default'] key it sets is set in the configuration.
    This is the submitter configuration after the call. *)
Definition submitterConfigAfterLoad (submitterConfig : SubmitterConfig)
  : SubmitterConfig :=
  {| cfg_enabled := cfg_enabled submitterConfig;
     cfg_newOrdersDelay := cfg_newOrdersDelay submitterConfig;
     cfg_retryInterval := cfg_retryInterval submitterConfig;
     cfg_processingInterval := cfg_processingInterval submitterConfig;
     cfg_maxTries := cfg_maxTries submitterConfig;
     cfg_maxPendingTransactions := cfg_maxPendingTransactions submitterConfig;
     cfg_confirmations := cfg_confirmations submitterConfig;
     cfg_confirmationTimeout := cfg_confirmationTimeout submitterConfig;
     cfg_lowBalanceWarning := cfg_lowBalanceWarning submitterConfig;
     cfg_balanceUpdateInterval := cfg_balanceUpdateInterval submitterConfig;
     cfg_gasLimitBuffer := withDefaultKey <$> cfg_gasLimitBuffer submitterConfig;
     cfg_maxFeePerGas := cfg_maxFeePerGas submitterConfig;
     cfg_maxPriorityFeeAdjustmentFactor :=
       cfg_maxPriorityFeeAdjustmentFactor submitterConfig;
     cfg_maxAllowedPriorityFeePerGas := cfg_maxAllowedPriorityFeePerGas submitterConfig;
     cfg_gasPriceAdjustmentFactor := cfg_gasPriceAdjustmentFactor submitterConfig;
     cfg_maxAllowedGasPrice := cfg_maxAllowedGasPrice submitterConfig;
     cfg_priorityAdjustmentFactor := cfg_priorityAdjustmentFactor submitterConfig |}.

(** The configuration service after [loadGlobalSubmitterConfig] has run. *)
Definition configAfterLoad (configService : ConfigService) : ConfigService :=
  {| relayerConfig :=
       {| privateKey := privateKey (relayerConfig configService);
          relayer_submitter :=
            submitterConfigAfterLoad (relayer_submitter (relayerConfig configService)) |};
     globalConfig := globalConfig configService;
     ambsConfig := ambsConfig configService;
     chainsConfig := chainsConfig configService;
     getAMBConfig := getAMBConfig configService |}.

(** The last AMB of a list that has a name: the one whose address
    [incentivesAddresses.set(amb.name, ...)] leaves under that name. *)
Definition lastNamed (name : string) (ambs : list (string * AMBConfig))
  : option AMBConfig :=
  last (filter (fun amb => amb_name amb = name) ambs.*2).

End SubmitterEffects.

(* ===================================================================== *)
(** ** The polymer collector: workers exiting one after another *)
(* ===================================================================== *)

Module PolymerExits.
Import Config Polymer.

(** The [exit] handlers that run when the workers of [chains] exit, in that
    order. *)
Definition afterExits (chains : list string) (workers : Workers) : Workers :=
  foldl (fun workers chain => onWorkerExit chain workers) workers chains.

End PolymerExits.

(* ===================================================================== *)
(** ** tests/utils/query-logs.ts: one pass of the search by identifier *)
(* ===================================================================== *)

Module QueryLogsScan.
Import QueryLogs.

(** What one iteration of the loop of [queryLogsByMessageIdentifier] finds:
    the [try] block, a poll and the search of its logs, with the [catch] that
    swallows whatever they throw. *)
Definition scan (provider : JsonRpcProvider) (filter : Filter)
    (incentivesEscrowInterface : EscrowInterface) (messageIdentifier : string)
    (polled : nat) : option Log :=
  match
    tryCatch
      (bindC (provider filter polled)
             (findByMessageIdentifier incentivesEscrowInterface messageIdentifier))
      (fun _ => Normal None)
  with
  | Normal found => found
  | Throw _ => None
  end.

(** The filter [queryLogs] polls with when it is given no block hash. *)
Definition eventFilter (incentiveAddress eventTopic : string) : Filter :=
  {| address := incentiveAddress; topics := [eventTopic]; blockHash := None |}.

End QueryLogsScan.

(* ===================================================================== *)
(** ** tests/config/jest.setup.ts *)
(* ===================================================================== *)

Module JestSetup.

(** [deployFullEnvironment()] is imported: the outcome of the call made when
    [n] calls have been made before it, the deployed addresses or an error. *)
Definition Deployment : Type := nat -> Completion (list string).

Definition DEPLOYMENT_FAILED : string := "Deployment failed after multiple attempts".

(** What a call of [tryDeployFullEnvironment] has done: how it ended ([None]
    while the loop is still running), the number of deployments started, and
    the failures written to [console.error], as the attempt number and the
    error, latest first. *)
Record Attempted : Type := {
  ended : option (Completion (list string));
  deployments : nat;
  reported : list (Z * string);
}.

(** The [for (let attempt = 1; attempt <= retries; attempt++)] loop, run for
    at most [fuel] iterations. *)
Fixpoint attemptLoop (deployFullEnvironment : Deployment) (retries : Z) (fuel : nat)
    (attempt : Z) (deployments : nat) (reported : list (Z * string)) : Attempted :=
  if (attempt <=? retries)%Z then
    match fuel with
    | O => {| ended := None; deployments := deployments; reported := reported |}
    | S fuel' =>
        match deployFullEnvironment deployments with
        | Normal result =>
            {| ended := Some (Normal result); deployments := S deployments;
               reported := reported |}
        | Throw error =>
            let reported := (attempt, error) :: reported in
            if (attempt =? retries)%Z then
              {| ended := Some (Throw error); deployments := S deployments;
                 reported := reported |}
            else
              attemptLoop deployFullEnvironment retries fuel' (attempt + 1)
                (S deployments) reported
        end
    end
  else
    {| ended := Some (Throw DEPLOYMENT_FAILED); deployments := deployments;
       reported := reported |}.

(** [tryDeployFullEnvironment(retries)], for an integer [retries]: the loop
    runs at most [retries] times. *)
Definition tryDeployFullEnvironment (deployFullEnvironment : Deployment) (retries : Z)
  : Attempted :=
  attemptLoop deployFullEnvironment retries (Z.to_nat retries) 1 0 [].

End JestSetup.


(* ===================================================================== *)
(** ** The global teardown of the test run *)
(* ===================================================================== *)

Module JestTeardown.

(** What a rejected [exec] or [fs] call hands to [catch]: an [Error] object,
    by its [code] and [message], as Node's own calls reject with, or a bare
    string. *)
Inductive Thrown : Type :=
  | ErrorObject (code message : string)
  | ThrownString (s : string).

Inductive Result (A : Type) : Type :=
  | Ok (a : A)
  | Raise (error : Thrown).
Arguments Ok {A} a.
Arguments Raise {A} error.

(** An argument of [console.log] or [console.error]. *)
Inductive Printed : Type :=
  | Text (s : string)
  | Strings (l : list string)
  | Caught (error : Thrown).

(** What the teardown does to the world, in order. *)
Inductive Effect : Type :=
  | ConsoleLog (args : list Printed)
  | ConsoleError (args : list Printed)
  | ReadFile (path encoding : string)
  | Exec (command : string)
  | Unlink (path : string)
  | Exit (code : Z).

(** The world the teardown runs in: [process.env['JEST_WATCH_MODE']], the
    [pids] that reading and parsing [pids.json] gives (or what either
    throws), the outcome of the [n]-th command handed to [exec], and the
    outcome of [fs.unlink] on a path. *)
Record World : Type := {
  JEST_WATCH_MODE : option string;
  readPids : Result (list string);
  exec : nat -> string -> Result unit;
  unlink : string -> Result unit;
}.

Definition PIDS_FILE : string := "./tests/config/pids.json".
Definition CONFIG_FILE : string := "./tests/config/config.test.yaml".

(** The two versions of the file differ in the command that stops the
    relayer. *)
Definition PKILL_PNPM : string := "pkill pnpm".
Definition PKILL_RELAYER : string := "pkill -f relayer-process-name".

(** [error !== 'ENOENT']: an object is never identical to a string. *)
Definition isNotENOENT (error : Thrown) : bool :=
  match error with
  | ThrownString s => negb (String.eqb s "ENOENT")
  | ErrorObject _ _ => true
  end.

(** One [try { await execPromise(`kill ${pid}`) } catch] of the [for] loop. *)
Definition killOne (world : World) (executed : nat) (pid : string) : list Effect :=
  let command := "kill " +:+ pid in
  match exec world executed command with
  | Ok _ =>
      [Exec command; ConsoleLog [Text ("Process with PID " +:+ pid +:+ " stopped.")]]
  | Raise error =>
      [Exec command;
       ConsoleError [Text ("Failed to stop process with PID " +:+ pid +:+ ":");
                     Caught error]]
  end.

(** [for (const pid of pids)] *)
Fixpoint killAll (world : World) (executed : nat) (pids : list string) : list Effect :=
  match pids with
  | [] => []
  | pid :: rest => killOne world executed pid ++ killAll world (S executed) rest
  end.

Definition stopRelayer (world : World) (executed : nat) (pkill : string) : list Effect :=
  match exec world executed pkill with
  | Ok _ => [Exec pkill; ConsoleLog [Text "Relayer process stopped."]]
  | Raise error =>
      [Exec pkill; ConsoleError [Text "Failed to stop relayer process:"; Caught error]]
  end.

(** One [try { await fs.unlink(path) } catch] block; [name] is the file name
    the messages use. *)
Definition deleteFile (world : World) (path name : string) : list Effect :=
  match unlink world path with
  | Ok _ => [Unlink path; ConsoleLog [Text ("Deleted " +:+ name)]]
  | Raise error =>
      if isNotENOENT error then
        [Unlink path;
         ConsoleError [Text ("Failed to delete " +:+ name +:+ ":"); Caught error]]
      else [Unlink path]
  end.

(** [globalTeardown()], with the command that stops the relayer: the effects
    of the call, in order.  After [process.exit(0)] nothing runs. *)
Definition globalTeardown (pkill : string) (world : World) : list Effect :=
  if QueryLogs.truthy (JEST_WATCH_MODE world) then
    [ConsoleLog [Text "In watch mode, skipping global teardown..."]]
  else
    ConsoleLog [Text "Running global teardown..."]
    :: ReadFile PIDS_FILE "utf-8"
    :: match readPids world with
       | Ok pids =>
           ConsoleLog [Text "PIDs to stop:"; Strings pids]
           :: killAll world 0 pids
           ++ stopRelayer world (length pids) pkill
           ++ deleteFile world PIDS_FILE "pids.json"
           ++ deleteFile world CONFIG_FILE "config.test.yaml"
       | Raise error =>
           [ConsoleError [Text "Failed to process teardown:"; Caught error]]
       end
    ++ [Exit 0].

(** The commands run and the files unlinked, in order. *)
Definition commands (effects : list Effect) : list string :=
  omap (fun effect => match effect with Exec command => Some command | _ => None end)
       effects.

Definition unlinked (effects : list Effect) : list string :=
  omap (fun effect => match effect with Unlink path => Some path | _ => None end)
       effects.

Definition exits (effects : list Effect) : list Z :=
  omap (fun effect => match effect with Exit code => Some code | _ => None end)
       effects.

(** The failures written to [console.error]. *)
Definition failures (effects : list Effect) : list (list Printed) :=
  omap (fun effect => match effect with ConsoleError args => Some args | _ => None end)
       effects.

End JestTeardown.


(* ===================================================================== *)
(** ** The relay tests: polling the store for a relay state *)
(* ===================================================================== *)

(** The helpers of the event tests ([getMessageIdentifier], [runTest],
    [processFlowWithEvents]) and [checkRelayState] of message-relay.test.ts,
    with the module-level variables they share. *)
Module RelayTests.
Import QueryLogs.

(** *** Relay states as the tests see them, and [toMatchObject] *)

(** The values of a stored relay state: what comes out of the store is an
    object of strings, numbers, bigints and nested objects. *)
#[warnings="-register-all"]
Inductive JsVal : Type :=
  | VUndefined
  | VNull
  | VNumber (n : Z)
  | VBigInt (n : Z)
  | VString (s : string)
  | VObject (props : list (string * JsVal)).

(** [Partial<RelayState>]: an object, by its properties. *)
Definition State : Type := list (string * JsVal).

Definition hasProp (props : list (string * JsVal)) (key : string) : bool :=
  existsb (fun prop => String.eqb prop.1 key) props.

(** [object[key]]: [undefined] when there is no such property. *)
Fixpoint getProp (props : list (string * JsVal)) (key : string) : JsVal :=
  match props with
  | [] => VUndefined
  | (name, value) :: rest => if String.eqb name key then value else getProp rest key
  end.

(** [a === b]; an object is identical to itself only, and a property of a
    state read from the store is never the object it is compared with. *)
Definition strictEq (a b : JsVal) : bool :=
  match a, b with
  | VUndefined, VUndefined => true
  | VNull, VNull => true
  | VNumber m, VNumber n => (m =? n)%Z
  | VBigInt m, VBigInt n => (m =? n)%Z
  | VString s, VString t => String.eqb s t
  | _, _ => false
  end.

(** The expected structures the tests write: [expect.any(Number)],
    [expect.any(String)], [expect.any(BigInt)], a number, or an object
    literal of such. *)
#[warnings="-register-all"]
Inductive Matcher : Type :=
  | AnyNumber
  | AnyString
  | AnyBigInt
  | Exactly (n : Z)
  | Shape (props : list (string * Matcher)).

Definition Expected : Type := list (string * Matcher).

(** Jest's subset match: every expected property is a property of the
    received object, with a value that matches. *)
Fixpoint matches (expected : Matcher) (received : JsVal) : bool :=
  match expected with
  | AnyNumber => match received with VNumber _ => true | _ => false end
  | AnyString => match received with VString _ => true | _ => false end
  | AnyBigInt => match received with VBigInt _ => true | _ => false end
  | Exactly n => strictEq received (VNumber n)
  | Shape props =>
      match received with
      | VObject actual =>
          (fix each (props : list (string * Matcher)) : bool :=
             match props with
             | [] => true
             | (key, matcher) :: rest =>
                 hasProp actual key && matches matcher (getProp actual key) && each rest
             end) props
      | _ => false
      end
  end.

(** [expect(received).toMatchObject(expected)] passes. *)
Definition toMatchObject (received : State) (expected : Expected) : bool :=
  matches (Shape expected) (VObject received).

Definition TO_MATCH_OBJECT_FAILED : string := "expect(received).toMatchObject(expected)".

(** [s.toLowerCase()], on the ASCII letters. *)
Definition lowerAscii (c : Ascii.ascii) : Ascii.ascii :=
  let n := Ascii.nat_of_ascii c in
  if (65 <=? n)%nat && (n <=? 90)%nat then Ascii.ascii_of_nat (n + 32) else c.

Fixpoint toLowerCase (s : string) : string :=
  match s with
  | EmptyString => EmptyString
  | String c rest => String (lowerAscii c) (toLowerCase rest)
  end.

(** *** The world of a test and the variables of the test file *)

Record Incentive : Type := {
  maxGasDelivery : Z;
  maxGasAck : Z;
  refundGasTo : string;
  priceOfDeliveryGas : string;
  priceOfAckGas : string;
  targetDelta : Z;
}.

Record Transaction : Type := {
  direction : bool;
  swapAmount : string;
  incentivePayment : string;
  incentive : Incentive;
}.

(** [parseEther('0.1').toString()] and [parseEther('0.5').toString()] are
    written out. *)
Definition validTransactOpts : Transaction :=
  {| direction := true;
     swapAmount := "100000000000000000";
     incentivePayment := "500000000000000000";
     incentive :=
       {| maxGasDelivery := 2000000; maxGasAck := 2000000;
          refundGasTo := "0xf39Fd6e51aad88F6F4ce6aB8827279cffFb92266";
          priceOfDeliveryGas := "50000000000"; priceOfAckGas := "50000000000";
          targetDelta := 0 |} |}.

(** What a test file runs against.  Each of the three outside calls answers
    by the number of such calls made before it in the test:
    [provider.getLogs(filter)]; [performSwap(wallet, opts)] followed by
    [tx.wait(1)], giving [receipt?.blockHash]; and
    [store.getRelayStateByKey(key)], giving the state or [null]. *)
Record World : Type := {
  ATTEMPTS_MAXIMUM : Z;
  TIME_BETWEEN_ATTEMPTS : Z;
  retryInterval : option Z;
  incentiveAddress : string;
  incentivesEscrowInterface : EscrowInterface;
  getLogs : Filter -> nat -> Completion (list Log);
  performSwap : Transaction -> nat -> Completion (option string);
  getRelayStateByKey : string -> nat -> Completion (option State);
}.

(** The module-level [let relayState] and [let attemptsCounter], with the
    calls made so far and the [wait]s awaited (latest first). *)
Record Harness : Type := {
  relayState : option State;
  attemptsCounter : Z;
  swaps : nat;
  polled : nat;
  reads : nat;
  waited : list Z;
}.

(** The state [beforeEach] leaves. *)
Definition beforeEach : Harness :=
  {| relayState := None; attemptsCounter := 0; swaps := 0; polled := 0; reads := 0;
     waited := [] |}.

(** How an [async] helper ends: it returns, it throws, or it is still
    waiting for [queryLogs] when watched for a bounded number of polls. *)
Inductive Ending (A : Type) : Type :=
  | Returns (a : A)
  | Throws (message : string)
  | Hangs.
Arguments Returns {A} a.
Arguments Throws {A} message.
Arguments Hangs {A}.

Definition Test (A : Type) : Type := Harness -> Harness * Ending A.

Definition ret {A} (a : A) : Test A := fun h => (h, Returns a).
Definition throw {A} (message : string) : Test A := fun h => (h, Throws message).

Definition bind {A B} (t : Test A) (k : A -> Test B) : Test B :=
  fun h =>
    match t h with
    | (h', Returns a) => k a h'
    | (h', Throws message) => (h', Throws message)
    | (h', Hangs) => (h', Hangs)
    end.

Declare Scope test_scope.
Delimit Scope test_scope with test.
Notation "'await' x ':=' t 'in' k" := (bind t (fun x => k))
  (at level 10, x name, t at level 100, k at level 200, only parsing) : test_scope.
Bind Scope test_scope with Test.

Definition liftC {A} (c : Completion A) : Test A :=
  fun h => match c with
           | Normal a => (h, Returns a)
           | Throw message => (h, Throws message)
           end.

Section Helpers.
Variable world : World.
(** How many polls a [queryLogs] call is watched for. *)
Variable fuel : nat.

(** [await performSwap(wallet, opts)], [await tx.wait(1)],
    [receipt?.blockHash]. *)
Definition swap (transactOpts : Transaction) : Test (option string) :=
  fun h =>
    let h' :=
      {| relayState := relayState h; attemptsCounter := attemptsCounter h;
         swaps := S (swaps h); polled := polled h; reads := reads h;
         waited := waited h |} in
    match performSwap world transactOpts (swaps h) with
    | Normal blockHash => (h', Returns blockHash)
    | Throw message => (h', Throws message)
    end.

(** [await queryLogs(incentiveAddress, incentivesEscrowInterface, eventName,
    provider, blockHash, messageIdentifier)] *)
Definition queryLogs (eventName : string) (blockHash messageIdentifier : option string)
  : Test (option Log) :=
  fun h =>
    let run :=
      QueryLogs.queryLogs (retryInterval world)
        (fun filter n => getLogs world filter (polled h + n)%nat) fuel
        (incentiveAddress world) (incentivesEscrowInterface world) eventName
        blockHash messageIdentifier in
    let h' :=
      {| relayState := relayState h; attemptsCounter := attemptsCounter h;
         swaps := swaps h; polled := (polled h + polls run)%nat; reads := reads h;
         waited := waits run ++ waited h |} in
    match outcome run with
    | Resolved log => (h', Returns log)
    | Rejected message => (h', Throws message)
    | Polling => (h', Hangs)
    end.

(** [`relay_state:${messageIdentifier}`] *)
Definition stateKey (messageIdentifier : option string) : string :=
  "relay_state:" +:+ (messageIdentifier ?? "undefined").

Definition identifierValue (messageIdentifier : option string) : JsVal :=
  match messageIdentifier with
  | Some s => VString s
  | None => VUndefined
  end.

(** [!relayState || relayState.messageIdentifier !== messageIdentifier] *)
Definition notYetFound (relayState : option State) (messageIdentifier : option string)
  : bool :=
  match relayState with
  | None => true
  | Some state =>
      negb (strictEq (getProp state "messageIdentifier")
                     (identifierValue messageIdentifier))
  end.

(** The polling loop the helpers share,
    [while (attemptsCounter < ATTEMPTS_MAXIMUM && (!relayState ||
    relayState.messageIdentifier !== messageIdentifier))], for the counter
    [attempts] (the module's or a local one), run for at most [turns]
    iterations; it gives the counter back with how it ended. *)
Fixpoint pollLoop (turns : nat) (messageIdentifier : option string) (attempts : Z)
    (h : Harness) : Harness * Z * Ending unit :=
  if (attempts <? ATTEMPTS_MAXIMUM world)%Z
     && notYetFound (relayState h) messageIdentifier
  then
    match turns with
    | O => (h, attempts, Hangs)
    | S turns' =>
        match getRelayStateByKey world (stateKey messageIdentifier) (reads h) with
        | Throw message =>
            ({| relayState := relayState h; attemptsCounter := attemptsCounter h;
                swaps := swaps h; polled := polled h; reads := S (reads h);
                waited := waited h |}, attempts, Throws message)
        | Normal state =>
            pollLoop turns' messageIdentifier (attempts + 1)
              {| relayState := state; attemptsCounter := attemptsCounter h;
                 swaps := swaps h; polled := polled h; reads := S (reads h);
                 waited :=
                   match state with
                   | None => TIME_BETWEEN_ATTEMPTS world :: waited h
                   | Some _ => waited h
                   end |}
        end
    end
  else (h, attempts, Returns tt).

(** The loop can run at most this many times. *)
Definition turnsLeft (attempts : Z) : nat := Z.to_nat (ATTEMPTS_MAXIMUM world - attempts).

(** The loop on the module-level [attemptsCounter]. *)
Definition awaitRelayState (messageIdentifier : option string) : Test unit :=
  fun h =>
    match pollLoop (turnsLeft (attemptsCounter h)) messageIdentifier (attemptsCounter h) h
    with
    | (h', attempts, ending) =>
        ({| relayState := relayState h'; attemptsCounter := attempts;
            swaps := swaps h'; polled := polled h'; reads := reads h';
            waited := waited h' |}, ending)
    end.

(** [if (!relayState) throw ...; expect(relayState).toMatchObject(expected)] *)
Definition expectRelayState (exceeded : string) (expected : Expected) : Test unit :=
  fun h =>
    match relayState h with
    | None => (h, Throws exceeded)
    | Some state =>
        if toMatchObject state expected then (h, Returns tt)
        else (h, Throws TO_MATCH_OBJECT_FAILED)
    end.

Definition EXCEEDED : string := "Exceeded maximum attempts or event not found".

#[local] Open Scope test_scope.

(** *** The event tests *)

Definition getMessageIdentifier : Test (option string) :=
  await blockHash := swap validTransactOpts in
  if negb (truthy blockHash) then throw "Block hash not found"
  else
    await log := queryLogs "BountyPlaced" blockHash None in
    match log with
    | None => throw "BountyPlaced event log not found"
    | Some log => liftC (parseLog (incentivesEscrowInterface world) log)
    end.

Definition runTest (eventType : string) (expectedStructure : Expected)
    (transactOpts : Transaction) (messageIdentifier : option string) : Test unit :=
  await messageIdentifier :=
    (if negb (truthy messageIdentifier) then getMessageIdentifier
     else ret messageIdentifier) in
  await log := queryLogs eventType None messageIdentifier in
  match log with
  | None => throw ("Log for event " +:+ eventType +:+ " not found")
  | Some _ =>
      await _ := awaitRelayState messageIdentifier in
      expectRelayState EXCEEDED expectedStructure
  end.

(** The structure [processFlowWithEvents] expects for an event. *)
Definition flowStructure (event : string) : Expected :=
  [("status", AnyNumber);
   ("messageIdentifier", AnyString);
   (toLowerCase event +:+ "Event",
    Shape [("transactionHash", AnyString); ("blockHash", AnyString);
           ("blockNumber", AnyNumber)])].

(** [for (const event of events) await runTest(...)] *)
Fixpoint flowEvents (events : list string) (messageIdentifier : option string)
  : Test unit :=
  match events with
  | [] => ret tt
  | event :: rest =>
      await _ := runTest event (flowStructure event) validTransactOpts messageIdentifier in
      flowEvents rest messageIdentifier
  end.

Definition processFlowWithEvents (events : list string) : Test unit :=
  await messageIdentifier := getMessageIdentifier in
  flowEvents events messageIdentifier.

(** *** message-relay.test.ts *)

(** [checkRelayState(messageIdentifier, expectedState = {})]: the loop runs
    on a local [attemptsCounter], the [relayState] is the module's. *)
Definition checkRelayState (messageIdentifier : option string) (expectedState : Expected)
  : Test unit :=
  fun h =>
    match pollLoop (turnsLeft 0) messageIdentifier 0 h with
    | (h', _, Returns _) =>
        expectRelayState
          ("Exceeded maximum attempts or event not found for messageIdentifier "
           +:+ (messageIdentifier ?? "undefined"))
          expectedState h'
    | (h', _, Throws message) => (h', Throws message)
    | (h', _, Hangs) => (h', Hangs)
    end.

End Helpers.

End RelayTests.


(* ===================================================================== *)
(** ** submitter-wallet.test.ts: the relay state of a transaction *)
(* ===================================================================== *)

Module SubmitterWalletTests.
Import QueryLogs RelayTests.

Section Helpers.
Variable world : World.
(** This file calls [queryLogs(incentiveAddress, topicHash, provider,
    blockHash)], a [queryLogs] that takes the topic hash; it is not among the
    sources: how the call with these arguments ends when [n] calls were made
    before it (counted in [polled]). *)
Variable queryLogs : string -> string -> string -> nat -> Ending (option Log).
(** The module-level [validTransactOpts], as it is when [runTest] is
    called. *)
Variable validTransactOpts : Transaction.

Definition callQueryLogs (topicHash blockHash : string) : Test (option Log) :=
  fun h =>
    ({| relayState := relayState h; attemptsCounter := attemptsCounter h;
        swaps := swaps h; polled := S (polled h); reads := reads h;
        waited := waited h |},
     queryLogs (incentiveAddress world) topicHash blockHash (polled h)).

(** [while (attemptsCounter < ATTEMPTS_MAXIMUM && !relayState)], on the
    module-level counter, run for at most [turns] iterations. *)
Fixpoint pollLoop (turns : nat) (messageIdentifier : option string) (h : Harness)
  : Harness * Ending unit :=
  if (attemptsCounter h <? ATTEMPTS_MAXIMUM world)%Z
     && bool_decide (relayState h = None)
  then
    match turns with
    | O => (h, Hangs)
    | S turns' =>
        match
          getRelayStateByKey world ("relay_state:" +:+ (messageIdentifier ?? "undefined"))
            (reads h)
        with
        | Throw message =>
            ({| relayState := relayState h; attemptsCounter := attemptsCounter h;
                swaps := swaps h; polled := polled h; reads := S (reads h);
                waited := waited h |}, Throws message)
        | Normal state =>
            pollLoop turns' messageIdentifier
              {| relayState := state; attemptsCounter := attemptsCounter h + 1;
                 swaps := swaps h; polled := polled h; reads := S (reads h);
                 waited :=
                   match state with
                   | None => TIME_BETWEEN_ATTEMPTS world :: waited h
                   | Some _ => waited h
                   end |}
        end
    end
  else (h, Returns tt).

Definition awaitRelayState (messageIdentifier : option string) : Test unit :=
  fun h => pollLoop (turnsLeft world (attemptsCounter h)) messageIdentifier h.

#[local] Open Scope test_scope.

Definition runTest (expectedStructure : Expected) : Test unit :=
  await blockHash := swap world validTransactOpts in
  if negb (truthy blockHash)
  then throw "Transaction receipt or block hash not found"
  else
    match getEvent (incentivesEscrowInterface world) "BountyPlaced" with
    | None => throw NO_SUCH_EVENT
    | Some topicHash =>
        await log := callQueryLogs topicHash (blockHash ?? "") in
        match log with
        | Some log =>
            await messageIdentifier :=
              liftC (parseLog (incentivesEscrowInterface world) log) in
            await _ := awaitRelayState messageIdentifier in
            expectRelayState EXCEEDED expectedStructure
        | None => throw "Log not found"
        end
    end.

(** [for (let i = 0; i < n; i++) await runTest(expectedStructure)], the body
    of `should process and store RelayState for multiple transactions'
    ([n = 3]) and of `... when multiple message identifiers are used'
    ([n = 2]). *)
Fixpoint runTests (n : nat) (expectedStructure : Expected) : Test unit :=
  match n with
  | O => ret tt
  | S n' =>
      await _ := runTest expectedStructure in
      runTests n' expectedStructure
  end.

End Helpers.

End SubmitterWalletTests.


(* ===================================================================== *)
(** ** The BountyIncreased tests *)
(* ===================================================================== *)

Module BountyIncreasedTests.
Import QueryLogs RelayTests.

Section Helpers.
Variable world : World.
Variable fuel : nat.
(** [escrowContract.increaseBounty(messageIdentifier, ...)] followed by
    [increaseBountyTx.wait(1)]: how the [n]-th increase of the test goes. *)
Variable increaseBounty : option string -> nat -> Completion unit.
(** [parsedLog?.args['newDeliveryGasPrice']] of a log. *)
Variable newDeliveryGasPrice : Log -> option Z.

#[local] Open Scope test_scope.

(** [runTest] of this file: it returns the message identifier. *)
Definition runTest (eventType : string) (expectedStructure : Expected)
    (transactOpts : Transaction) : Test (option string) :=
  await blockHash := swap world transactOpts in
  if negb (truthy blockHash) then throw "Block hash not found"
  else
    await log := RelayTests.queryLogs world fuel eventType blockHash None in
    match log with
    | None => throw ("Log for event " +:+ eventType +:+ " not found")
    | Some log =>
        await messageIdentifier :=
          liftC (parseLog (incentivesEscrowInterface world) log) in
        await _ := awaitRelayState world messageIdentifier in
        await _ := expectRelayState EXCEEDED expectedStructure in
        ret messageIdentifier
    end.

(** The structure the tests expect of a placed bounty. *)
Definition placedStructure : Expected :=
  [("status", Exactly 0);
   ("messageIdentifier", AnyString);
   ("bountyPlacedEvent",
    Shape [("transactionHash", AnyString); ("blockHash", AnyString);
           ("blockNumber", AnyNumber); ("fromChainId", AnyString);
           ("incentivesAddress", AnyString); ("maxGasDelivery", AnyBigInt);
           ("maxGasAck", AnyBigInt); ("refundGasTo", AnyString);
           ("priceOfDeliveryGas", AnyBigInt); ("priceOfAckGas", AnyBigInt);
           ("targetDelta", AnyBigInt)])].

Definition TO_EQUAL_FAILED : string := "expect(received).toEqual(expected)".

(** [parseUnits('50', 'gwei')] *)
Definition FIFTY_GWEI : Z := 50000000000.

(** The first loop of `should handle multiple BountyIncreased events
    correctly': [n] more rounds of [runTest], [messageIdentifiers.push] and
    [increaseBounty], after [i] rounds. *)
Fixpoint placeAndIncrease (n i : nat) (messageIdentifiers : list (option string))
  : Test (list (option string)) :=
  match n with
  | O => ret messageIdentifiers
  | S n' =>
      await messageIdentifier := runTest "BountyPlaced" placedStructure validTransactOpts in
      await _ := liftC (increaseBounty messageIdentifier i) in
      placeAndIncrease n' (S i) (messageIdentifiers ++ [messageIdentifier])
  end.

(** Its second loop, [for (const messageIdentifier of messageIdentifiers)].
    [expect(log).not.toBeNull()] holds of a log and of [undefined] alike. *)
Fixpoint verifyIncreased (messageIdentifiers : list (option string)) : Test unit :=
  match messageIdentifiers with
  | [] => ret tt
  | messageIdentifier :: rest =>
      await log := RelayTests.queryLogs world fuel "BountyIncreased" None None in
      match log with
      | None => throw "BountyIncreased event not found"
      | Some log =>
          await parsed := liftC (parseLog (incentivesEscrowInterface world) log) in
          if bool_decide (parsed = messageIdentifier) then
            if bool_decide (newDeliveryGasPrice log = Some FIFTY_GWEI)
            then verifyIncreased rest
            else throw TO_EQUAL_FAILED
          else throw TO_EQUAL_FAILED
      end
  end.

(** `should handle multiple BountyIncreased events correctly' *)
Definition multipleBountyIncreased : Test unit :=
  await messageIdentifiers := placeAndIncrease 3 0 [] in
  verifyIncreased messageIdentifiers.

End Helpers.

End BountyIncreasedTests.


(* ===================================================================== *)
(** ** tests/tests/getter/getter.test.ts *)
(* ===================================================================== *)

Module GetterTests.
Import QueryLogs RelayTests.

Section Test.
(** [process.env], after [dotenv.config()]. *)
Variable env : string -> option string.
(** [parseInt(s)]; [None] is [NaN]. *)
Variable parseInt : string -> option Z.
Variable incentiveAddress : string.
Variable incentivesEscrowInterface : EscrowInterface.
(** [performSwap(wallet, direction, swapAmount, incentivePayment, incentive)]
    and [tx.wait(1)], giving [receipt?.blockHash], and the [queryLogs] of
    this file, which takes the topic hash: neither is among the sources. *)
Variable performSwap : nat -> Completion (option string).
Variable queryLogs : string -> string -> string -> Ending (option Log).
Variable getRelayStateByKey : string -> nat -> Completion (option State).

(** What [beforeAll] leaves in [ATTEMPTS_MAXIMUM] and [TIME_BETWEEN_ATTEMPTS]:
    [None] is [undefined], when the variable is not set or empty, or [NaN];
    every comparison with either is false. *)
Definition fromEnv (name : string) : option Z :=
  match env name with
  | Some value => if truthy (Some value) then parseInt value else None
  | None => None
  end.

Definition ATTEMPTS_MAXIMUM : option Z := fromEnv "ATTEMPTS_MAXIMUM".
Definition TIME_BETWEEN_ATTEMPTS : option Z := fromEnv "TIME_BETWEEN_ATTEMPTS".

(** [attemptsCounter < ATTEMPTS_MAXIMUM] *)
Definition belowMaximum (attemptsCounter : Z) : bool :=
  match ATTEMPTS_MAXIMUM with
  | Some maximum => (attemptsCounter <? maximum)%Z
  | None => false
  end.

(** [while (attemptsCounter < ATTEMPTS_MAXIMUM && !relayState)], run for at
    most [turns] iterations; a [wait] of [undefined] or [NaN] milliseconds
    is a wait of 0. *)
Fixpoint pollLoop (turns : nat) (messageIdentifier : string) (h : Harness)
  : Harness * Ending unit :=
  if belowMaximum (attemptsCounter h) && bool_decide (relayState h = None) then
    match turns with
    | O => (h, Hangs)
    | S turns' =>
        match getRelayStateByKey ("relay_state:" +:+ messageIdentifier) (reads h) with
        | Throw message =>
            ({| relayState := relayState h; attemptsCounter := attemptsCounter h;
                swaps := swaps h; polled := polled h; reads := S (reads h);
                waited := waited h |}, Throws message)
        | Normal state =>
            pollLoop turns' messageIdentifier
              {| relayState := state; attemptsCounter := attemptsCounter h + 1;
                 swaps := swaps h; polled := polled h; reads := S (reads h);
                 waited :=
                   match state with
                   | None => (TIME_BETWEEN_ATTEMPTS ?? 0) :: waited h
                   | Some _ => waited h
                   end |}
        end
    end
  else (h, Returns tt).

Definition bountyPlacedStructure : Expected :=
  [("status", AnyNumber);
   ("messageIdentifier", AnyString);
   ("bountyPlacedEvent",
    Shape [("transactionHash", AnyString); ("blockHash", AnyString);
           ("blockNumber", AnyNumber); ("fromChainId", AnyString);
           ("incentivesAddress", AnyString); ("maxGasDelivery", AnyBigInt);
           ("maxGasAck", AnyBigInt); ("refundGasTo", AnyString);
           ("priceOfDeliveryGas", AnyBigInt); ("priceOfAckGas", AnyBigInt);
           ("targetDelta", AnyBigInt)])].

Definition NO_MESSAGE_IDENTIFIER : string :=
  "TypeError: Cannot read properties of undefined (reading 'messageIdentifier')".

#[local] Open Scope test_scope.

(** `should retrieve expected Bounty Placed Event transaction successfully' *)
Definition retrieveBountyPlaced : Test unit :=
  await blockHash :=
    (fun h =>
       ({| relayState := relayState h; attemptsCounter := attemptsCounter h;
           swaps := S (swaps h); polled := polled h; reads := reads h;
           waited := waited h |},
        match performSwap (swaps h) with
        | Normal blockHash => Returns blockHash
        | Throw message => Throws message
        end)) in
  if negb (truthy blockHash) then throw "Block number not found"
  else
    match getEvent incentivesEscrowInterface "BountyPlaced" with
    | None => throw NO_SUCH_EVENT
    | Some topicHash =>
        await log :=
          (fun h => (h, queryLogs incentiveAddress topicHash (blockHash ?? ""))) in
        match log with
        | Some log =>
            await parsed := liftC (parseLog incentivesEscrowInterface log) in
            match parsed with
            | None => throw NO_MESSAGE_IDENTIFIER
            | Some messageIdentifier =>
                await _ :=
                  (fun h =>
                     pollLoop (Z.to_nat ((ATTEMPTS_MAXIMUM ?? 0) - attemptsCounter h))
                       messageIdentifier h) in
                expectRelayState "Exceeded maximum attempts or bounty not found"
                  bountyPlacedStructure
            end
        | None => throw "Log not found"
        end
    end.

End Test.

End GetterTests.


(* ===================================================================== *)
(** ** Concrete inputs *)
(* ===================================================================== *)

(** Small configurations and inputs on which the definitions above are run. *)
Module Examples.

(** A stand-in encoder for running [getSwapIdentifier]: it accepts the swap
    identifier's five arguments when the last is a [uint32] and lists them. *)
Definition listingEncoder (types : list string) (args : list Utils.AbiArg)
  : option string :=
  match args with
  | [Utils.ArgString a; Utils.ArgBigint u; Utils.ArgBigint f; Utils.ArgString t;
     Utils.ArgNumber n] =>
      if bool_decide (0 <= n < 2 ^ 32)
      then Some (a +:+ "," +:+ pretty u +:+ "," +:+ pretty f +:+ "," +:+ t
                 +:+ "," +:+ pretty n)
      else None
  | _ => None
  end.

(** Two chains; the polymer AMB has both addresses for chain 1 and no bridge
    address for chain 2. *)
Definition noSubmitterConfig : Config.SubmitterConfig :=
  {| Config.cfg_enabled := None; Config.cfg_newOrdersDelay := None;
     Config.cfg_retryInterval := None; Config.cfg_processingInterval := None;
     Config.cfg_maxTries := None; Config.cfg_maxPendingTransactions := None;
     Config.cfg_confirmations := None; Config.cfg_confirmationTimeout := None;
     Config.cfg_lowBalanceWarning := None; Config.cfg_balanceUpdateInterval := None;
     Config.cfg_gasLimitBuffer := None; Config.cfg_maxFeePerGas := None;
     Config.cfg_maxPriorityFeeAdjustmentFactor := None;
     Config.cfg_maxAllowedPriorityFeePerGas := None;
     Config.cfg_gasPriceAdjustmentFactor := None;
     Config.cfg_maxAllowedGasPrice := None;
     Config.cfg_priorityAdjustmentFactor := None |}.

Definition chain (id rpc : string) : Config.ChainConfig :=
  {| Config.chainId := id; Config.rpc := rpc;
     Config.startingBlock := None; Config.stoppingBlock := None;
     Config.chain_blockDelay := None;
     Config.getter := {| Config.cfg_interval := None; Config.cfg_maxBlocks := None |};
     Config.submitter := noSubmitterConfig |}.

Definition polymerAddresses (amb key chainId : string) : option string :=
  if String.eqb amb "polymer" then
    if String.eqb key "incentivesAddress" then
      if String.eqb chainId "1" then Some "0xE1" else
      if String.eqb chainId "2" then Some "0xE2" else None
    else if String.eqb key "bridgeAddress" then
      if String.eqb chainId "1" then Some "0xB1" else None
    else None
  else None.

Definition twoChains : Config.ConfigService :=
  {| Config.relayerConfig :=
       {| Config.privateKey := "0x01"; Config.relayer_submitter := noSubmitterConfig |};
     Config.globalConfig :=
       {| Config.global_blockDelay := None;
          Config.global_getter :=
            {| Config.cfg_interval := None; Config.cfg_maxBlocks := None |} |};
     Config.ambsConfig :=
       [("polymer",
         {| Config.amb_name := "polymer";
            Config.getIncentivesAddress := fun chainId => "0xE" +:+ chainId |})];
     Config.chainsConfig :=
       [chain "1" "http://localhost:8545"; chain "2" "http://localhost:8546"];
     Config.getAMBConfig := polymerAddresses |}.

Definition logger : Config.LoggerService :=
  {| Config.loggerOptions := [("level", "info")] |}.

Definition workerOfChain1 : Polymer.PolymerWorkerData :=
  {| Polymer.wd_chainId := "1"; Polymer.wd_rpc := "http://localhost:8545";
     Polymer.wd_startingBlock := None; Polymer.wd_stoppingBlock := None;
     Polymer.wd_blockDelay := 0; Polymer.wd_interval := 5000;
     Polymer.wd_maxBlocks := None;
     Polymer.wd_incentivesAddress := "0xE1"; Polymer.wd_polymerAddress := "0xB1";
     Polymer.wd_loggerOptions := [("level", "info")] |}.

Definition workersOfTwoChains : gmap string (option Polymer.PolymerWorkerData) :=
  {["1" := Some workerOfChain1]}.

(** The escrow interface with the four events of the tests; it reads the
    message identifier of a log off its transaction hash. *)
Definition escrowInterface : QueryLogs.EscrowInterface :=
  {| QueryLogs.getEvent := fun name =>
       if String.eqb name "BountyPlaced" then Some "0xtopicPlaced"
       else if String.eqb name "MessageDelivered" then Some "0xtopicDelivered"
       else if String.eqb name "BountyClaimed" then Some "0xtopicClaimed"
       else if String.eqb name "BountyIncreased" then Some "0xtopicIncreased"
       else None;
     QueryLogs.parseLog := fun log => Normal (Some (QueryLogs.log_transactionHash log)) |}.

Definition placedLog : QueryLogs.Log :=
  {| QueryLogs.log_address := "0xE1"; QueryLogs.log_blockHash := "0xblock";
     QueryLogs.log_blockNumber := 12; QueryLogs.log_transactionHash := "0xtx";
     QueryLogs.log_index := 0 |}.

(** Two [BountyPlaced] logs for one message at the same block number and log
    index, in blocks with different hashes (one of them reorganised out), and
    the delivery and the claim that follow. *)
Definition placedDetails : Store.PlacedDetails :=
  {| Store.fromChainId := "1"; Store.incentivesAddress := "0xE1";
     Store.maxGasDelivery := 2000000; Store.maxGasAck := 2000000;
     Store.refundGasTo := "0xf39F"; Store.priceOfDeliveryGas := 50000000000;
     Store.priceOfAckGas := 50000000000; Store.targetDelta := 0;
     Store.payload := "0x" |}.

Definition placedInFork : Store.Observation Store.PlacedDetails :=
  {| Store.meta := {| Store.txHash := "0xtx"; Store.blockHash := "0xfork";
                      Store.blockNumber := 12; Store.logIndex := 0 |};
     Store.details := placedDetails |}.

Definition placedInCanonical : Store.Observation Store.PlacedDetails :=
  {| Store.meta := {| Store.txHash := "0xtx"; Store.blockHash := "0xcanonical";
                      Store.blockNumber := 12; Store.logIndex := 0 |};
     Store.details := placedDetails |}.

Definition deliveredObservation : Store.Observation Store.DeliveredDetails :=
  {| Store.meta := {| Store.txHash := "0xtd"; Store.blockHash := "0xd";
                      Store.blockNumber := 40; Store.logIndex := 1 |};
     Store.details := {| Store.toChainId := "2" |} |}.

Definition claimedObservation : Store.Observation unit :=
  {| Store.meta := {| Store.txHash := "0xtc"; Store.blockHash := "0xc";
                      Store.blockNumber := 15; Store.logIndex := 0 |};
     Store.details := tt |}.

Definition completeFlow : list Store.BountyEvent :=
  [Store.BountyPlaced "0xM" placedInCanonical;
   Store.MessageDelivered "0xM" deliveredObservation;
   Store.BountyClaimed "0xM" claimedObservation].

(** A flow in which slots are offered more than once: the bounty is placed
    in block 12 and, after a reorganisation, again in block 13, and it is
    increased twice in block 20, at log indices 3 and 7.  In [busyFlow] the
    later increase and the earlier placement come first; [busyFlowReversed]
    has the same events in the opposite order. *)
Definition placedAgain : Store.Observation Store.PlacedDetails :=
  {| Store.meta := {| Store.txHash := "0xtx2"; Store.blockHash := "0xcanonical13";
                      Store.blockNumber := 13; Store.logIndex := 2 |};
     Store.details := placedDetails |}.

Definition firstIncrease : Store.Observation Store.IncreasedDetails :=
  {| Store.meta := {| Store.txHash := "0xti1"; Store.blockHash := "0xi";
                      Store.blockNumber := 20; Store.logIndex := 3 |};
     Store.details := {| Store.newPriceOfDeliveryGas := 60000000000;
                         Store.newPriceOfAckGas := 50000000000 |} |}.

Definition secondIncrease : Store.Observation Store.IncreasedDetails :=
  {| Store.meta := {| Store.txHash := "0xti2"; Store.blockHash := "0xi";
                      Store.blockNumber := 20; Store.logIndex := 7 |};
     Store.details := {| Store.newPriceOfDeliveryGas := 70000000000;
                         Store.newPriceOfAckGas := 50000000000 |} |}.

Definition busyFlow : list Store.BountyEvent :=
  [Store.BountyIncreased "0xM" secondIncrease;
   Store.BountyPlaced "0xM" placedInFork;
   Store.MessageDelivered "0xM" deliveredObservation;
   Store.BountyIncreased "0xM" firstIncrease;
   Store.BountyPlaced "0xM" placedAgain;
   Store.BountyClaimed "0xM" claimedObservation].

Definition busyFlowReversed : list Store.BountyEvent :=
  [Store.BountyClaimed "0xM" claimedObservation;
   Store.BountyPlaced "0xM" placedAgain;
   Store.BountyIncreased "0xM" firstIncrease;
   Store.MessageDelivered "0xM" deliveredObservation;
   Store.BountyPlaced "0xM" placedInFork;
   Store.BountyIncreased "0xM" secondIncrease].

Definition claimedState : Store.RelayState :=
  foldl Store.merge (Store.newRelayState "0xM") completeFlow.

Definition claimedStore : gmap string Store.RelayState :=
  foldl Store.applyEvent ∅ completeFlow.

Definition laterUpdates : list Store.Update :=
  [Store.FromCollector (Store.BountyClaimed "0xM" claimedObservation);
   Store.FromWallet (Store.DeliveryConfirmed "0xM" 310000);
   Store.FromCollector (Store.BountyPlaced "0xN" placedInFork);
   Store.FromCollector (Store.MessageDelivered "0xM" deliveredObservation);
   Store.FromWallet (Store.AckFailed "0xM");
   Store.FromCollector (Store.BountyPlaced "0xM" placedInFork)].

(** The bounty of the test "should not process BountyPlaced event with zero
    gas prices", a relayer that asks for no reward, and a chain on which gas
    is free. *)
Definition zeroPricePlaced : Store.Observation Store.PlacedDetails :=
  {| Store.meta := Store.meta placedInCanonical;
     Store.details :=
       {| Store.fromChainId := "1"; Store.incentivesAddress := "0xE1";
          Store.maxGasDelivery := 2000000; Store.maxGasAck := 2000000;
          Store.refundGasTo := "0xf39F"; Store.priceOfDeliveryGas := 0;
          Store.priceOfAckGas := 0; Store.targetDelta := 0;
          Store.payload := "0x" |} |}.

Definition zeroPriceState : Store.RelayState :=
  Store.merge (Store.newRelayState "0xM") (Store.BountyPlaced "0xM" zeroPricePlaced).


Definition someReward : Evaluator.EvaluatorConfig :=
  {| Evaluator.minDeliveryReward := 0.001; Evaluator.relativeMinDeliveryReward := 0.1;
     Evaluator.minAckReward := 0.001; Evaluator.relativeMinAckReward := 0.1 |}.


Definition pricedGas : Evaluator.Market :=
  {| Evaluator.gasEstimate := None; Evaluator.localGasPrice := 0.00000002;
     Evaluator.sourceRate := 1 |}.


(** A provider that has nothing on the first two polls and the log after. *)
Definition slowProvider : QueryLogs.JsonRpcProvider :=
  fun _ n => if (n <? 2)%nat then Normal [] else Normal [placedLog].

(** A provider whose every call is rejected. *)
Definition downProvider : QueryLogs.JsonRpcProvider :=
  fun _ _ => Throw "could not detect network".

(** A bounty as the store holds it. *)
Definition bounty : BountyDto.Bounty :=
  {| BountyDto.messageIdentifier := "0xtx";
     BountyDto.maxGasDelivery := 2000000; BountyDto.maxGasAck := 2000000;
     BountyDto.refundGasTo := "0xf39Fd6e51aad88F6F4ce6aB8827279cffFb92266";
     BountyDto.priceOfDeliveryGas := 50000000000;
     BountyDto.priceOfAckGas := 50000000000;
     BountyDto.targetDelta := 0;
     BountyDto.status := BountyDto.MessageDelivered |}.

(** A teardown in which the first anvil is already gone and both files have
    been deleted by hand. *)
Definition cleanedByHand : JestTeardown.World :=
  {| JestTeardown.JEST_WATCH_MODE := None;
     JestTeardown.readPids := JestTeardown.Ok ["101"; "102"];
     JestTeardown.exec := fun n _ =>
       if (n =? 0)%nat
       then JestTeardown.Raise (JestTeardown.ErrorObject "ESRCH" "No such process")
       else JestTeardown.Ok tt;
     JestTeardown.unlink := fun _ =>
       JestTeardown.Raise
         (JestTeardown.ErrorObject "ENOENT" "no such file or directory") |}.

(** A relay state with the property [processFlowWithEvents] looks for. *)
Definition flowState : RelayTests.State :=
  [("status", RelayTests.VNumber 2);
   ("messageIdentifier", RelayTests.VString "0xtx");
   ("bountyclaimedEvent",
    RelayTests.VObject
      [("transactionHash", RelayTests.VString "0xclaim");
       ("blockHash", RelayTests.VString "0xblock2");
       ("blockNumber", RelayTests.VNumber 14)])].

(** A test world in which every swap is mined in block [0xblock], the
    provider has the log at once, and the store has the relay state from the
    second read on. *)
Definition relayWorld : RelayTests.World :=
  {| RelayTests.ATTEMPTS_MAXIMUM := 3;
     RelayTests.TIME_BETWEEN_ATTEMPTS := 1000;
     RelayTests.retryInterval := Some 2000;
     RelayTests.incentiveAddress := "0xE1";
     RelayTests.incentivesEscrowInterface := escrowInterface;
     RelayTests.getLogs := fun _ _ => Normal [placedLog];
     RelayTests.performSwap := fun _ _ => Normal (Some "0xblock");
     RelayTests.getRelayStateByKey := fun _ n =>
       if (n <? 1)%nat then Normal None else Normal (Some flowState) |}.

(** The variables of a test that has used up its attempts. *)
Definition exhausted : RelayTests.Harness :=
  {| RelayTests.relayState := None; RelayTests.attemptsCounter := 3;
     RelayTests.swaps := 1; RelayTests.polled := 2; RelayTests.reads := 3;
     RelayTests.waited := [1000; 1000; 1000] |}.


(** The structure submitter-wallet.test.ts expects of a delivered message,
    a relay state that has it, and a world whose store has that state from
    the second read on. *)
Definition deliveredStructure : RelayTests.Expected :=
  [("status", RelayTests.Exactly 1);
   ("messageIdentifier", RelayTests.AnyString);
   ("deliveryGasCost", RelayTests.AnyBigInt);
   ("messageDeliveredEvent",
    RelayTests.Shape
      [("transactionHash", RelayTests.AnyString);
       ("blockHash", RelayTests.AnyString);
       ("blockNumber", RelayTests.AnyNumber);
       ("toChainId", RelayTests.AnyString)])].

Definition deliveredState : RelayTests.State :=
  [("status", RelayTests.VNumber 1);
   ("messageIdentifier", RelayTests.VString "0xtx");
   ("deliveryGasCost", RelayTests.VBigInt 21000);
   ("messageDeliveredEvent",
    RelayTests.VObject
      [("transactionHash", RelayTests.VString "0xdeliver");
       ("blockHash", RelayTests.VString "0xblock1");
       ("blockNumber", RelayTests.VNumber 13);
       ("toChainId", RelayTests.VString "2")])].

Definition walletWorld : RelayTests.World :=
  {| RelayTests.ATTEMPTS_MAXIMUM := 3;
     RelayTests.TIME_BETWEEN_ATTEMPTS := 1000;
     RelayTests.retryInterval := Some 2000;
     RelayTests.incentiveAddress := "0xE1";
     RelayTests.incentivesEscrowInterface := escrowInterface;
     RelayTests.getLogs := fun _ _ => Normal [placedLog];
     RelayTests.performSwap := fun _ _ => Normal (Some "0xblock");
     RelayTests.getRelayStateByKey := fun _ n =>
       if (n <? 1)%nat then Normal None else Normal (Some deliveredState) |}.

(** A [queryLogs] that finds the log of every block at once. *)
Definition logAtOnce (address topicHash blockHash : string) (n : nat)
  : RelayTests.Ending (option QueryLogs.Log) :=
  RelayTests.Returns (Some placedLog).

(** An environment in which no variable is set. *)
Definition emptyEnv (name : string) : option string := None.

(** A [parseInt] that reads the number 3 and nothing else. *)
Definition parseThree (s : string) : option Z :=
  if String.eqb s "3" then Some 3 else None.

(** The [queryLogs] of getter.test.ts, finding the log at once. *)
Definition logOfBlock (address topicHash blockHash : string)
  : RelayTests.Ending (option QueryLogs.Log) :=
  RelayTests.Returns (Some placedLog).

End Examples.

(* ===================================================================== *)
(** * Properties *)
(* ===================================================================== *)

(** ** utils.ts *)

Section UtilsProperties.
Import Utils.

Lemma js_remainder_nonneg (n : Z) : 0 <= n -> blockNumberMod n = n mod 2 ^ 32.
Proof.
  intros Hn. unfold blockNumberMod.
  apply Z.rem_mod_nonneg; lia.
Qed.

(** On a negative number the JS remainder is not the residue: *)
Example js_remainder_negative : blockNumberMod (-1) = -1.
Proof. reflexivity. Qed.

Lemma blockNumberMod_congruent (a b : Z) :
  0 <= a -> 0 <= b -> a mod 2 ^ 32 = b mod 2 ^ 32 ->
  blockNumberMod a = blockNumberMod b.
Proof.
  intros Ha Hb Hab.
  rewrite !js_remainder_nonneg by assumption. exact Hab.
Qed.

Variable keccak256 : string -> string.
Variable abiEncode : list string -> list AbiArg -> option string.

Lemma getSwapIdentifier_congruent toAccount units fromAmountMinusFee fromAsset (a b : Z) :
  0 <= a -> 0 <= b -> a mod 2 ^ 32 = b mod 2 ^ 32 ->
  getSwapIdentifier keccak256 abiEncode toAccount units fromAmountMinusFee fromAsset a
  = getSwapIdentifier keccak256 abiEncode toAccount units fromAmountMinusFee fromAsset b.
Proof.
  intros Ha Hb Hab. unfold getSwapIdentifier.
  by rewrite (blockNumberMod_congruent a b).
Qed.

(** C8: for a block number [b] (a non-negative integer), [getSwapIdentifier]
    gives the same identifier at [b] and at [b + 2^32], whatever the other
    arguments: the block number enters only as [b % 2 ** 32]. *)
Theorem getSwapIdentifier_period toAccount units fromAmountMinusFee fromAsset (b : Z) :
  0 <= b ->
  getSwapIdentifier keccak256 abiEncode toAccount units fromAmountMinusFee fromAsset b
  = getSwapIdentifier keccak256 abiEncode toAccount units fromAmountMinusFee fromAsset
      (b + 2 ^ 32).
Proof.
  intros Hb. apply getSwapIdentifier_congruent; [lia | lia |].
  rewrite <- (Z.mul_1_l (2 ^ 32)) at 2.
  by rewrite Z.mod_add.
Qed.

End UtilsProperties.

Lemma getSwapIdentifier_period_witness :
  Utils.getSwapIdentifier id Examples.listingEncoder "0xab" 7 5 "0xcd" 19000000
  = Utils.getSwapIdentifier id Examples.listingEncoder "0xab" 7 5 "0xcd" (19000000 + 2 ^ 32).
Proof.
  apply (getSwapIdentifier_period id Examples.listingEncoder "0xab" 7 5 "0xcd" 19000000).
  lia.
Defined.

Section ErrorToString.
Import Utils.

(** C9, as the code has it: [tryErrorToString] returns normally on every
    input; [undefined] and [null] give [undefined], a string is returned as
    it is, and anything else gives what its [toString()] returns, whatever
    value that is, or the fixed fallback when [toString()] throws.  So the
    result is [undefined] exactly for [undefined], for [null] and for a value
    whose [toString()] returns [undefined]. *)
Theorem tryErrorToString_total (error : JsValue) :
  ∃ result,
    tryErrorToString error = Normal result ∧
    (error = JsUndefined ∨ error = JsNull -> result = JsUndefined) ∧
    (∀ s, error = JsString s -> result = JsString s) ∧
    (∀ outcome, error = JsOther outcome ->
       result = match outcome with
                | Normal returned => returned
                | Throw _ => JsString "Unable to stringify error."
                end) ∧
    (result = JsUndefined
     ↔ error = JsUndefined ∨ error = JsNull ∨ error = JsOther (Normal JsUndefined)).
Proof.
  destruct error as [ | | s | [returned | message]]; cbn; eexists;
    (split; [reflexivity |]).
  - split_and!; [done | by intros ? [=] | by intros ? [=] |].
    split; [by left | done].
  - split_and!; [done | by intros ? [=] | by intros ? [=] |].
    split; [by right; left | done].
  - split_and!; [by intros [[=] | [=]] | by intros ? [= ->] | by intros ? [=] |].
    split; [done | by intros [[=] | [[=] | [=]]]].
  - split_and!; [by intros [[=] | [=]] | by intros ? [=] | by intros ? [= <-] |].
    split; [intros ->; by right; right | by intros [[=] | [[=] | [= ->]]]].
  - split_and!; [by intros [[=] | [=]] | by intros ? [=] | by intros ? [= <-] |].
    split; [done | by intros [[=] | [[=] | [=]]]].
Qed.

End ErrorToString.

(** C9 as it is worded fails: an object whose [toString()] returns
    [undefined] is neither [undefined] nor [null], and [tryErrorToString]
    returns [undefined] for it. *)
Lemma tryErrorToString_undefined_for_an_object :
  let silent := Utils.JsOther (Normal Utils.JsUndefined) in
  Utils.tryErrorToString silent = Normal Utils.JsUndefined ∧
  silent ≠ Utils.JsUndefined ∧ silent ≠ Utils.JsNull.
Proof. split_and!; [reflexivity | discriminate | discriminate]. Qed.

(** ** The submitter's configuration *)

Section SubmitterProperties.
Import Config Submitter.

Lemma withDefaultKey_lookup (buffers : gmap string Q) (key : string) :
  withDefaultKey buffers !! key
  = if decide (key = "default")
    then Some (buffers !! "default" ?? 0%Q)
    else buffers !! key.
Proof.
  unfold withDefaultKey.
  destruct (decide (is_Some (buffers !! "default"))) as [[v Hv] | Hnone].
  - case_decide; subst; [by rewrite Hv | done].
  - apply eq_None_not_Some in Hnone.
    case_decide; subst.
    + by rewrite lookup_insert_eq, Hnone.
    + by rewrite lookup_insert_ne.
Qed.

Lemma withDefaultKey_has_default (buffers : gmap string Q) :
  is_Some (withDefaultKey buffers !! "default").
Proof. rewrite withDefaultKey_lookup. by case_decide. Qed.

Lemma copyKeys_union (source target : gmap string Q) :
  copyKeys source target = source ∪ target.
Proof.
  unfold copyKeys.
  apply (map_fold_weak_ind (fun result visited => result = visited ∪ target)).
  - by rewrite (left_id_L ∅ (∪)).
  - intros key value visited result _ ->. by rewrite insert_union_l.
Qed.

Lemma getChainGasLimitBufferConfig_union (defaults chain : gmap string Q) :
  getChainGasLimitBufferConfig defaults chain = chain ∪ defaults.
Proof.
  unfold getChainGasLimitBufferConfig.
  by rewrite !copyKeys_union, (right_id_L ∅ (∪)).
Qed.

Lemma getChainGasLimitBufferConfig_lookup (defaults chain : gmap string Q) key :
  getChainGasLimitBufferConfig defaults chain !! key
  = nullishOpt (chain !! key) (defaults !! key).
Proof.
  rewrite getChainGasLimitBufferConfig_union, lookup_union.
  by destruct (chain !! key), (defaults !! key).
Qed.

(** C4: a key that is absent from the submitter configuration gets its
    default, [newOrdersDelay=0], [retryInterval=2000],
    [processingInterval=100], [maxTries=3], [maxPendingTransactions=1000],
    [confirmations=1], [confirmationTimeout=600000],
    [balanceUpdateInterval=50], and a gas limit buffer without a ['default']
    key gains one that is 0, its other keys kept. *)
Theorem loadGlobalSubmitterConfig_defaults (configService : ConfigService) :
  let submitterConfig := relayer_submitter (relayerConfig configService) in
  let loaded := loadGlobalSubmitterConfig configService in
  (cfg_newOrdersDelay submitterConfig = None -> newOrdersDelay loaded = 0) ∧
  (cfg_retryInterval submitterConfig = None -> retryInterval loaded = 2000) ∧
  (cfg_processingInterval submitterConfig = None -> processingInterval loaded = 100) ∧
  (cfg_maxTries submitterConfig = None -> maxTries loaded = 3) ∧
  (cfg_maxPendingTransactions submitterConfig = None ->
     maxPendingTransactions loaded = 1000) ∧
  (cfg_confirmations submitterConfig = None -> confirmations loaded = 1) ∧
  (cfg_confirmationTimeout submitterConfig = None ->
     confirmationTimeout loaded = 600000) ∧
  (cfg_balanceUpdateInterval submitterConfig = None ->
     balanceUpdateInterval loaded = 50) ∧
  (cfg_gasLimitBuffer submitterConfig = None ->
     gasLimitBuffer loaded = {["default" := 0%Q]}) ∧
  (∀ buffers, cfg_gasLimitBuffer submitterConfig = Some buffers ->
     buffers !! "default" = None ->
     gasLimitBuffer loaded = <["default" := 0%Q]> buffers).
Proof.
  intros submitterConfig loaded. subst loaded. unfold loadGlobalSubmitterConfig.
  fold submitterConfig. cbn.
  repeat match goal with
         | |- (_ = None -> _) ∧ _ => split; [by intros -> |]
         end.
  intros buffers -> Hnone. cbn. unfold withDefaultKey.
  rewrite Hnone. by rewrite decide_False by (intros [? [=]]).
Qed.

Lemma loadWorkerData_gasLimitBuffer_lookup (configService : ConfigService)
    (loggerService : LoggerService) (chainConfig : ChainConfig) (globalConfig : GlobalSubmitterConfig) key :
  wd_gasLimitBuffer
    (loadWorkerData configService loggerService chainConfig globalConfig) !! key
  = nullishOpt ((cfg_gasLimitBuffer (Config.submitter chainConfig) ?? ∅) !! key)
               (gasLimitBuffer globalConfig !! key).
Proof. cbn. apply getChainGasLimitBufferConfig_lookup. Qed.

Lemma loadWorkerData_has_default (configService : ConfigService)
    (loggerService : LoggerService) (chainConfig : ChainConfig) :
  is_Some
    (wd_gasLimitBuffer
       (loadWorkerData configService loggerService chainConfig
          (loadGlobalSubmitterConfig configService)) !! "default").
Proof.
  rewrite loadWorkerData_gasLimitBuffer_lookup.
  destruct (_ !! "default"); [by eexists |].
  cbn. apply withDefaultKey_has_default.
Qed.

(** Every worker the submitter service starts is handed a map with a
    ['default'] entry. *)
Lemma onModuleInit_workers_have_default (configService : ConfigService)
    (loggerService : LoggerService) workerData :
  workerData ∈ onModuleInit configService loggerService ->
  is_Some (wd_gasLimitBuffer workerData !! "default").
Proof.
  unfold onModuleInit. case_match; [by intros ?%elem_of_nil |].
  intros (chainConfig & -> & _)%list_elem_of_fmap.
  apply loadWorkerData_has_default.
Qed.

(** C5: the gas limit buffers handed to a chain's submitter worker are the
    chain's own entries, and the global entries for the keys the chain does
    not set; they always have a ['default'] entry, so the lookup
    [gasLimitBuffer[orderKind] ?? gasLimitBuffer.default] always finds a
    value. *)
Theorem worker_gasLimitBuffer (configService : ConfigService)
    (loggerService : LoggerService) (chainConfig : ChainConfig)
    (key orderKind : string) :
  let globalBuffers := gasLimitBuffer (loadGlobalSubmitterConfig configService) in
  let chainBuffers := cfg_gasLimitBuffer (Config.submitter chainConfig) ?? ∅ in
  let handed :=
    wd_gasLimitBuffer
      (loadWorkerData configService loggerService chainConfig
         (loadGlobalSubmitterConfig configService)) in
  handed !! key
    = match chainBuffers !! key with
      | Some value => Some value
      | None => globalBuffers !! key
      end
  ∧ is_Some (handed !! "default")
  ∧ is_Some (gasLimitBufferFor handed orderKind).
Proof.
  intros globalBuffers chainBuffers handed.
  pose proof (loadWorkerData_has_default configService loggerService chainConfig)
    as Hdefault.
  fold handed in Hdefault.
  split; [apply loadWorkerData_gasLimitBuffer_lookup |]. split; [exact Hdefault |].
  unfold gasLimitBufferFor. destruct (handed !! orderKind); [by eexists | exact Hdefault].
Qed.

End SubmitterProperties.

(** ** The polymer collector *)

Section PolymerProperties.
Import Config Polymer.

Variable dBlockDelay dInterval : Z.
Variable dMaxBlocks : option Z.
Variable configService : ConfigService.
Variable loggerService : LoggerService.

Lemma loadWorkerData_Some globalPolymerConfig chainConfig :
  complete configService (chainId chainConfig) ->
  ∃ workerData,
    loadWorkerData configService loggerService chainConfig globalPolymerConfig = Some workerData ∧
    wd_chainId workerData = chainId chainConfig.
Proof.
  intros [[incentives Hi] [bridge Hb]]. unfold loadWorkerData.
  rewrite Hi, Hb. by eexists.
Qed.

Lemma loadWorkerData_None globalPolymerConfig chainConfig :
  getAMBConfig configService "polymer" "incentivesAddress" (chainId chainConfig) = None
  ∨ getAMBConfig configService "polymer" "bridgeAddress" (chainId chainConfig) = None ->
  loadWorkerData configService loggerService chainConfig globalPolymerConfig = None.
Proof.
  unfold loadWorkerData. intros [-> | ->]; [done |]. by destruct (getAMBConfig _ _ _ _).
Qed.

Lemma loadWorkerData_inv globalPolymerConfig chainConfig workerData :
  loadWorkerData configService loggerService chainConfig globalPolymerConfig = Some workerData ->
  wd_chainId workerData = chainId chainConfig ∧
  complete configService (chainId chainConfig).
Proof.
  unfold loadWorkerData, complete.
  destruct (getAMBConfig _ _ "incentivesAddress" _) as [incentives |]; [| done].
  destruct (getAMBConfig _ _ "bridgeAddress" _) as [bridge |]; [| done].
  intros [= <-]. cbn. eauto.
Qed.

(** The loop over the chains: one effect per chain, in order, and a [workers]
    entry for each worker created. *)
Lemma startChain_effects globalPolymerConfig chains state :
  (foldl (startChain configService loggerService globalPolymerConfig) state chains).1
  = state.1 ++ (effectOf configService loggerService globalPolymerConfig <$> chains).
Proof.
  revert state. induction chains as [| chainConfig chains IH]; intros state; cbn.
  - by rewrite app_nil_r.
  - rewrite IH. unfold startChain, effectOf.
    destruct (loadWorkerData _ _ _ _); cbn; by rewrite <- app_assoc.
Qed.

Lemma startChain_workers globalPolymerConfig chains state chain :
  (foldl (startChain configService loggerService globalPolymerConfig) state chains).2 !! chain
  = match
      last (filter (fun workerData => wd_chainId workerData = chain)
              (omap (fun chainConfig =>
                       loadWorkerData configService loggerService chainConfig globalPolymerConfig)
                    chains))
    with
    | Some workerData => Some (Some workerData)
    | None => state.2 !! chain
    end.
Proof.
  revert state. induction chains as [| chainConfig chains IH] using rev_ind;
    intros state; [done |].
  rewrite foldl_snoc, omap_app, filter_app. cbn.
  unfold startChain at 1.
  destruct (loadWorkerData _ _ _ _) as [workerData |] eqn:Hload; cbn.
  - case_decide as Hchain.
    + rewrite last_snoc. subst chain. by rewrite lookup_insert_eq.
    + rewrite app_nil_r, lookup_insert_ne by done. apply IH.
  - rewrite app_nil_r. apply IH.
Qed.

Lemma created_effectOf globalPolymerConfig chains :
  created (effectOf configService loggerService globalPolymerConfig <$> chains)
  = omap (fun chainConfig =>
            loadWorkerData configService loggerService chainConfig globalPolymerConfig) chains.
Proof.
  unfold created. induction chains as [| chainConfig chains IH]; [done |].
  cbn. unfold effectOf at 1.
  destruct (loadWorkerData _ _ _ _); cbn; by rewrite IH.
Qed.

Lemma last_is_Some {A} (l : list A) : is_Some (last l) ↔ l ≠ [].
Proof.
  destruct l as [| x l] using rev_ind; [split; [by intros [? [=]] | done] |].
  rewrite last_snoc. split; [by destruct l | by eexists].
Qed.


Lemma objectKeys_spec (workers : Workers) chain :
  chain ∈ objectKeys workers ↔ is_Some (workers !! chain).
Proof.
  unfold objectKeys. rewrite list_elem_of_fmap. split.
  - intros ([key value] & -> & Hin). apply elem_of_map_to_list in Hin. by eexists.
  - intros [value Hvalue]. exists (chain, value). by rewrite elem_of_map_to_list.
Qed.

Lemma logStatus_filter (workers : Workers) :
  logStatus workers
  = {| activeWorkers := filter (fun chain => isActive workers chain) (objectKeys workers);
       inactiveWorkers :=
         filter (fun chain => ¬ isActive workers chain) (objectKeys workers) |}.
Proof.
  unfold logStatus.
  enough (Hgen : ∀ keys active inactive,
             foldl (fun (lists : list string * list string) chain =>
                      if isActive workers chain
                      then (lists.1 ++ [chain], lists.2)
                      else (lists.1, lists.2 ++ [chain]))
                   (active, inactive) keys
             = (active ++ filter (fun chain => isActive workers chain) keys,
                inactive ++ filter (fun chain => ¬ isActive workers chain) keys)).
  { by rewrite Hgen. }
  induction keys as [| key keys IH]; intros active inactive.
  - cbn. by rewrite !app_nil_r.
  - rewrite !filter_cons. cbn [foldl fst snd].
    destruct (isActive workers key) eqn:Hkey; cbn [fst snd].
    + rewrite IH, decide_True, decide_False by (cbn; tauto).
      by rewrite <- app_assoc.
    + rewrite IH, decide_False, decide_True by (cbn; tauto).
      by rewrite <- app_assoc.
Qed.

Lemma active_spec (workers : Workers) chain :
  chain ∈ activeWorkers (logStatus workers)
  ↔ ∃ workerData, workers !! chain = Some (Some workerData).
Proof.
  rewrite logStatus_filter. cbn. rewrite list_elem_of_filter, objectKeys_spec.
  unfold isActive. destruct (workers !! chain) as [[workerData |] |]; cbn.
  - split; [by eexists | intros _; split; [done | by eexists]].
  - split; [intros [[] _] | intros [? [=]]].
  - split; [intros [[] _] | intros [? [=]]].
Qed.

Lemma inactive_spec (workers : Workers) chain :
  chain ∈ inactiveWorkers (logStatus workers) ↔ workers !! chain = Some None.
Proof.
  rewrite logStatus_filter. cbn. rewrite list_elem_of_filter, objectKeys_spec.
  unfold isActive. destruct (workers !! chain) as [[workerData |] |]; cbn.
  - split; [intros [Hno _]; by destruct Hno | intros [=]].
  - split; [done | intros _; split; [tauto | by eexists]].
  - split; [intros [_ [? [=]]] | intros [=]].
Qed.

Lemma status_lists_NoDup (workers : Workers) :
  NoDup (activeWorkers (logStatus workers)) ∧
  NoDup (inactiveWorkers (logStatus workers)).
Proof.
  rewrite logStatus_filter. cbn.
  split; apply NoDup_filter, NoDup_fst_map_to_list.
Qed.

(** After the module has run, the [workers] record holds a worker for each
    chain one was started for, and nothing else. *)
Lemma polymerModule_workers effects (workers : Workers) chain :
  polymerModule dBlockDelay dInterval dMaxBlocks configService loggerService
    = (effects, Normal workers) ->
  (is_Some (workers !! chain) ↔ workerStarted configService chain) ∧
  (workerStarted configService chain ->
   ∃ workerData, workers !! chain = Some (Some workerData)).
Proof.
  unfold polymerModule.
  destruct (loadGlobalPolymerConfig _ _ _ _) as [globalPolymerConfig |]; [| done].
  intros [= _ <-]. rewrite startChain_workers. cbn.
  set (matching := filter _ _).
  assert (Hmatching : matching ≠ [] ↔ workerStarted configService chain).
  { split.
    - intros Hne. destruct matching as [| workerData rest] eqn:Hm; [done |].
      assert (Hin : workerData ∈ matching) by (rewrite Hm; left).
      apply list_elem_of_filter in Hin as [<- Hin].
      apply list_elem_of_omap in Hin as (chainConfig & Hin & Hload).
      apply loadWorkerData_inv in Hload as [-> Hcomplete].
      split; [by exists chainConfig | done].
    - intros [(chainConfig & Hin & <-) Hcomplete].
      destruct (loadWorkerData_Some globalPolymerConfig chainConfig Hcomplete)
        as (workerData & Hload & Hid).
      assert (Hw : workerData ∈ matching).
      { apply list_elem_of_filter. split; [done |].
        apply list_elem_of_omap. by exists chainConfig. }
      intros Hnil. rewrite Hnil in Hw. by apply elem_of_nil in Hw. }
  rewrite <- Hmatching, <- last_is_Some.
  destruct (last matching) as [workerData |]; rewrite ?lookup_empty.
  - split; [split; by eexists | by eexists].
  - split; [split; intros [? [=]] | intros [? [=]]].
Qed.

Lemma Reachable_domain (workers : Workers) chain :
  Reachable dBlockDelay dInterval dMaxBlocks configService loggerService workers ->
  is_Some (workers !! chain) ↔ workerStarted configService chain.
Proof.
  induction 1 as [effects workers Hinit | workers exited _ IH Hstarted].
  - by apply (polymerModule_workers effects).
  - unfold onWorkerExit. destruct (decide (exited = chain)) as [-> | Hne].
    + rewrite lookup_insert_eq. split; [done | by eexists].
    + by rewrite lookup_insert_ne.
Qed.

(** C6, as the code has it: in a status report every chain for which a worker
    was started (a configured chain whose polymer configuration is complete)
    is in exactly one of [activeWorkers] and [inactiveWorkers], no other chain
    is in either, neither list repeats a chain; the chain is active when the
    module has just run, and when its worker exits it is listed as inactive
    while every other chain stays where it was. *)
Theorem status_report_partition (workers : Workers) (chain : string) :
  Reachable dBlockDelay dInterval dMaxBlocks configService loggerService workers ->
  let report := logStatus workers in
  let after := logStatus (onWorkerExit chain workers) in
  (chain ∈ activeWorkers report ∨ chain ∈ inactiveWorkers report
     ↔ workerStarted configService chain) ∧
  ¬ (chain ∈ activeWorkers report ∧ chain ∈ inactiveWorkers report) ∧
  NoDup (activeWorkers report) ∧ NoDup (inactiveWorkers report) ∧
  (∀ effects,
     polymerModule dBlockDelay dInterval dMaxBlocks configService loggerService
       = (effects, Normal workers) ->
     workerStarted configService chain -> chain ∈ activeWorkers report) ∧
  (chain ∈ inactiveWorkers after ∧ chain ∉ activeWorkers after) ∧
  (∀ other, other ≠ chain ->
     (other ∈ activeWorkers after ↔ other ∈ activeWorkers report) ∧
     (other ∈ inactiveWorkers after ↔ other ∈ inactiveWorkers report)).
Proof.
  intros Hreach report after. subst report after.
  pose proof (Reachable_domain workers chain Hreach) as Hdom.
  unfold onWorkerExit. split_and!.
  - rewrite active_spec, inactive_spec. split.
    + intros [[workerData Hw] | Hw]; apply Hdom; by eexists.
    + intros [[workerData |] Hw]%Hdom; [left; by eexists | by right].
  - rewrite active_spec, inactive_spec. intros [[workerData Hw] Hnone]. congruence.
  - apply status_lists_NoDup.
  - apply status_lists_NoDup.
  - intros effects Hinit Hstarted. rewrite active_spec.
    by apply (polymerModule_workers effects).
  - rewrite inactive_spec. by rewrite lookup_insert_eq.
  - rewrite active_spec, lookup_insert_eq. intros [? [=]].
  - intros other Hother. rewrite !active_spec, !inactive_spec.
    by rewrite lookup_insert_ne.
Qed.

Lemma created_for_complete globalPolymerConfig chains chain :
  complete configService chain ->
  length (filter (fun workerData => wd_chainId workerData = chain)
            (omap (fun chainConfig =>
                     loadWorkerData configService loggerService chainConfig globalPolymerConfig)
                  chains))
  = length (filter (fun chainConfig => chainId chainConfig = chain) chains).
Proof.
  intros Hcomplete. induction chains as [| chainConfig chains IH]; [done |].
  rewrite filter_cons. cbn [omap list_omap].
  destruct (loadWorkerData _ _ _ _) as [workerData |] eqn:Hload.
  - apply loadWorkerData_inv in Hload as [Hid _].
    rewrite filter_cons, Hid. case_decide; cbn; by rewrite IH.
  - rewrite decide_False; [exact IH |].
    intros Hsame. subst chain.
    destruct (loadWorkerData_Some globalPolymerConfig chainConfig Hcomplete)
      as (workerData & Hsome & _).
    congruence.
Qed.

Lemma created_for_incomplete globalPolymerConfig chains chain :
  ¬ complete configService chain ->
  filter (fun workerData => wd_chainId workerData = chain)
         (omap (fun chainConfig =>
                  loadWorkerData configService loggerService chainConfig globalPolymerConfig)
               chains)
  = [].
Proof.
  intros Hincomplete. induction chains as [| chainConfig chains IH]; [done |].
  cbn [omap list_omap].
  destruct (loadWorkerData _ _ _ _) as [workerData |] eqn:Hload; [| exact IH].
  apply loadWorkerData_inv in Hload as [Hid Hcomplete].
  rewrite filter_cons, decide_False; [exact IH |].
  intros Hsame. apply Hincomplete. congruence.
Qed.

Lemma filter_none {A} (P : A -> Prop) `{∀ x, Decision (P x)} (l : list A) :
  (∀ x, x ∈ l -> ¬ P x) -> filter P l = [].
Proof.
  induction l as [| x l IH]; [done |]. intros Hall.
  rewrite filter_cons, decide_False by (apply Hall; left).
  apply IH. intros y Hy. apply Hall. by right.
Qed.

Lemma one_chain_per_id (chains : list ChainConfig) chainConfig :
  NoDup (chainId <$> chains) -> chainConfig ∈ chains ->
  length (filter (fun other => chainId other = chainId chainConfig) chains) = 1%nat.
Proof.
  induction chains as [| first chains IH]; [by intros _ ?%elem_of_nil |].
  rewrite fmap_cons, NoDup_cons, filter_cons.
  intros [Hfresh Hnodup] [-> | Hin]%elem_of_cons.
  - rewrite decide_True by done. cbn. f_equal.
    rewrite filter_none; [done |].
    intros other Hother Hsame. apply Hfresh. rewrite <- Hsame.
    by apply list_elem_of_fmap_2.
  - rewrite decide_False; [by apply IH |].
    intros Hsame. apply Hfresh. rewrite Hsame. by apply list_elem_of_fmap_2.
Qed.

Lemma incomplete_iff chain :
  getAMBConfig configService "polymer" "incentivesAddress" chain = None
  ∨ getAMBConfig configService "polymer" "bridgeAddress" chain = None
  ↔ ¬ complete configService chain.
Proof.
  unfold complete. split.
  - intros [Hnone | Hnone] [[? Hi] [? Hb]]; congruence.
  - intros Hnot.
    destruct (getAMBConfig configService "polymer" "incentivesAddress" chain) eqn:Hi;
      [| by left].
    destruct (getAMBConfig configService "polymer" "bridgeAddress" chain) eqn:Hb;
      [| by right].
    exfalso. apply Hnot. split; by eexists.
Qed.

(** C7: a chain whose polymer configuration lacks the incentives address or
    the bridge address gets no worker ([loadWorkerData] gives [null] and the
    module logs a line for it); a chain whose configuration is complete gets a
    worker, exactly one when the chains' ids are distinct; and when the
    ['polymer'] AMB configuration is absent altogether the module throws
    having created no worker. *)
Theorem polymer_worker_per_complete_chain :
  (mapGet (ambsConfig configService) "polymer" = None ->
   polymerModule dBlockDelay dInterval dMaxBlocks configService loggerService
     = ([], Throw POLYMER_NOT_FOUND)) ∧
  (is_Some (mapGet (ambsConfig configService) "polymer") ->
   ∃ globalPolymerConfig workers,
     let effects := effectOf configService loggerService globalPolymerConfig <$> chainsConfig configService in
     loadGlobalPolymerConfig dBlockDelay dInterval dMaxBlocks configService
       = Normal globalPolymerConfig ∧
     polymerModule dBlockDelay dInterval dMaxBlocks configService loggerService
       = (effects, Normal workers) ∧
     ∀ chainConfig, chainConfig ∈ chainsConfig configService ->
       let chain := chainId chainConfig in
       (getAMBConfig configService "polymer" "incentivesAddress" chain = None
        ∨ getAMBConfig configService "polymer" "bridgeAddress" chain = None ->
        loadWorkerData configService loggerService chainConfig globalPolymerConfig = None ∧
        effectOf configService loggerService globalPolymerConfig chainConfig
          = LogInfo chain CHAIN_INCOMPLETE ∧
        workersCreatedFor effects chain = 0%nat ∧
        workers !! chain = None) ∧
       (complete configService chain ->
        (∃ workerData,
           loadWorkerData configService loggerService chainConfig globalPolymerConfig
             = Some workerData ∧
           wd_chainId workerData = chain ∧
           NewWorker workerData ∈ effects) ∧
        workersCreatedFor effects chain
          = length (filter (fun other => chainId other = chain)
                      (chainsConfig configService)) ∧
        (NoDup (chainId <$> chainsConfig configService) ->
         workersCreatedFor effects chain = 1%nat))).
Proof.
  split.
  - intros Hnone. unfold polymerModule, loadGlobalPolymerConfig. by rewrite Hnone.
  - intros [polymer Hpolymer].
    destruct (loadGlobalPolymerConfig dBlockDelay dInterval dMaxBlocks configService)
      as [globalPolymerConfig | message] eqn:Hglobal;
      [| unfold loadGlobalPolymerConfig in Hglobal; by rewrite Hpolymer in Hglobal].
    exists globalPolymerConfig.
    eexists. intros effects. split; [done |]. split.
    { unfold polymerModule. rewrite Hglobal, startChain_effects. reflexivity. }
    intros chainConfig Hin chain. split.
    + intros Hmissing.
      pose proof (loadWorkerData_None globalPolymerConfig chainConfig Hmissing) as Hload.
      apply incomplete_iff in Hmissing.
      split_and!; [done | by unfold effectOf; rewrite Hload | |].
      * unfold workersCreatedFor, effects.
        by rewrite created_effectOf, created_for_incomplete.
      * rewrite startChain_workers, created_for_incomplete by done. done.
    + intros Hcomplete.
      destruct (loadWorkerData_Some globalPolymerConfig chainConfig Hcomplete)
        as (workerData & Hload & Hid).
      assert (Hcount : workersCreatedFor effects chain
                       = length (filter (fun other => chainId other = chain)
                                   (chainsConfig configService))).
      { unfold workersCreatedFor, effects.
        by rewrite created_effectOf, created_for_complete. }
      split_and!; [| done |].
      * exists workerData. split_and!; [done | done |].
        apply list_elem_of_fmap. exists chainConfig.
        split; [by unfold effectOf; rewrite Hload | done].
      * intros Hnodup. rewrite Hcount. by apply one_chain_per_id.
Qed.

End PolymerProperties.

Example polymerModule_twoChains :
  Polymer.polymerModule 0 5000 None Examples.twoChains Examples.logger
  = ([Polymer.NewWorker Examples.workerOfChain1;
      Polymer.LogInfo "2" Polymer.CHAIN_INCOMPLETE],
     Normal Examples.workersOfTwoChains).
Proof. vm_compute. reflexivity. Qed.

Lemma status_report_partition_witness :
  let workers := Examples.workersOfTwoChains in
  let report := Polymer.logStatus workers in
  let after := Polymer.logStatus (Polymer.onWorkerExit "1" workers) in
  ("1" ∈ Polymer.activeWorkers report ∨ "1" ∈ Polymer.inactiveWorkers report
     ↔ Polymer.workerStarted Examples.twoChains "1") ∧
  ¬ ("1" ∈ Polymer.activeWorkers report ∧ "1" ∈ Polymer.inactiveWorkers report) ∧
  NoDup (Polymer.activeWorkers report) ∧ NoDup (Polymer.inactiveWorkers report) ∧
  (∀ effects,
     Polymer.polymerModule 0 5000 None Examples.twoChains Examples.logger
       = (effects, Normal workers) ->
     Polymer.workerStarted Examples.twoChains "1" ->
     "1" ∈ Polymer.activeWorkers report) ∧
  ("1" ∈ Polymer.inactiveWorkers after ∧ "1" ∉ Polymer.activeWorkers after) ∧
  (∀ other, other ≠ "1" ->
     (other ∈ Polymer.activeWorkers after ↔ other ∈ Polymer.activeWorkers report) ∧
     (other ∈ Polymer.inactiveWorkers after ↔ other ∈ Polymer.inactiveWorkers report)).
Proof.
  apply (status_report_partition 0 5000 None Examples.twoChains Examples.logger
           Examples.workersOfTwoChains "1").
  eapply Polymer.reach_init. vm_compute. reflexivity.
Defined.

(** C6 as it is worded fails: chain 2 is configured, its polymer
    configuration is incomplete, and the status report lists it neither as
    active nor as inactive. *)
Lemma status_report_omits_incomplete_chain :
  Polymer.polymerModule 0 5000 None Examples.twoChains Examples.logger
    = ([Polymer.NewWorker Examples.workerOfChain1;
        Polymer.LogInfo "2" Polymer.CHAIN_INCOMPLETE],
       Normal Examples.workersOfTwoChains) ∧
  Config.chainId <$> Config.chainsConfig Examples.twoChains = ["1"; "2"] ∧
  Polymer.logStatus Examples.workersOfTwoChains
    = {| Polymer.activeWorkers := ["1"]; Polymer.inactiveWorkers := [] |} ∧
  "2" ∉ ["1"] ++ [].
Proof.
  split_and!; [by vm_compute | done | by vm_compute |].
  by intros [[=] | ?%elem_of_nil]%elem_of_cons.
Qed.

(** ** Polling for logs *)

Section QueryLogsProperties.
Import QueryLogs.

Variable provider : JsonRpcProvider.
Variable interval : Z.

(** The first poll of the loop, [polled + 0], and the polls after it. *)
Ltac first_poll Hbefore Hpoll :=
  specialize (Hbefore 0%nat); rewrite Nat.add_0_r in Hbefore;
  rewrite Hbefore in Hpoll by lia; discriminate Hpoll.

Ltac later_poll Hbefore :=
  let k := fresh "k" in
  let Hk := fresh "Hk" in
  intros k Hk; specialize (Hbefore (S k));
  rewrite Nat.add_succ_r in Hbefore; apply Hbefore; lia.

Lemma queryLogsByBlockLoop_resolved fuel filter polled waited log :
  outcome (queryLogsByBlockLoop provider interval fuel filter polled waited)
    = Resolved log
  ↔ ∃ n first rest,
      log = Some first ∧ (n < fuel)%nat ∧
      provider filter (polled + n)%nat = Normal (first :: rest) ∧
      ∀ k, (k < n)%nat -> provider filter (polled + k)%nat = Normal [].
Proof.
  revert polled waited.
  induction fuel as [| fuel IH]; intros polled waited; cbn.
  - split; [done | intros (n & ? & ? & _ & Hn & _); lia].
  - destruct (provider filter polled) as [[| first rest] | message] eqn:Hpoll; cbn.
    + rewrite IH. split.
      * intros (n & head & tail & -> & Hn & Hfound & Hbefore).
        exists (S n), head, tail. split_and!; [done | lia | |].
        { by rewrite Nat.add_succ_r. }
        intros [| k] Hk; [by rewrite Nat.add_0_r |].
        rewrite Nat.add_succ_r. apply Hbefore. lia.
      * intros ([| n] & head & tail & -> & Hn & Hfound & Hbefore).
        { rewrite Nat.add_0_r in Hfound. congruence. }
        exists n, head, tail. split_and!; [done | lia | |].
        { by rewrite Nat.add_succ_r in Hfound. }
        later_poll Hbefore.
    + split.
      * intros [= <-]. exists 0%nat, first, rest.
        rewrite Nat.add_0_r. split_and!; [done | lia | done | intros; lia].
      * intros ([| n] & head & tail & -> & Hn & Hfound & Hbefore).
        { rewrite Nat.add_0_r in Hfound. congruence. }
        first_poll Hbefore Hpoll.
    + split; [done |].
      intros ([| n] & head & tail & -> & Hn & Hfound & Hbefore).
      { rewrite Nat.add_0_r in Hfound. congruence. }
      first_poll Hbefore Hpoll.
Qed.

Lemma queryLogsByBlockLoop_rejected fuel filter polled waited message :
  outcome (queryLogsByBlockLoop provider interval fuel filter polled waited)
    = Rejected message
  ↔ ∃ n, (n < fuel)%nat ∧
      provider filter (polled + n)%nat = Throw message ∧
      ∀ k, (k < n)%nat -> provider filter (polled + k)%nat = Normal [].
Proof.
  revert polled waited.
  induction fuel as [| fuel IH]; intros polled waited; cbn.
  - split; [done | intros (n & Hn & _); lia].
  - destruct (provider filter polled) as [[| first rest] | thrown] eqn:Hpoll; cbn.
    + rewrite IH. split.
      * intros (n & Hn & Hfound & Hbefore).
        exists (S n). split_and!; [lia | |].
        { by rewrite Nat.add_succ_r. }
        intros [| k] Hk; [by rewrite Nat.add_0_r |].
        rewrite Nat.add_succ_r. apply Hbefore. lia.
      * intros ([| n] & Hn & Hfound & Hbefore).
        { rewrite Nat.add_0_r in Hfound. congruence. }
        exists n. split_and!; [lia | |].
        { by rewrite Nat.add_succ_r in Hfound. }
        later_poll Hbefore.
    + split; [done |].
      intros ([| n] & Hn & Hfound & Hbefore).
      { rewrite Nat.add_0_r in Hfound. congruence. }
      first_poll Hbefore Hpoll.
    + split.
      * intros [= <-]. exists 0%nat.
        rewrite Nat.add_0_r. split_and!; [lia | done | intros; lia].
      * intros ([| n] & Hn & Hfound & Hbefore).
        { rewrite Nat.add_0_r in Hfound. congruence. }
        first_poll Hbefore Hpoll.
Qed.

Lemma queryLogsByBlockLoop_polling fuel filter polled waited :
  (∀ k, (k < fuel)%nat -> provider filter (polled + k)%nat = Normal []) ->
  queryLogsByBlockLoop provider interval fuel filter polled waited
  = {| outcome := Polling; polls := (polled + fuel)%nat;
       waits := replicate fuel interval ++ waited |}.
Proof.
  revert polled waited.
  induction fuel as [| fuel IH]; intros polled waited Hempty; cbn.
  - by rewrite Nat.add_0_r.
  - pose proof (Hempty 0%nat) as Hfirst. rewrite Nat.add_0_r in Hfirst.
    rewrite Hfirst by lia. rewrite IH.
    + rewrite Nat.add_succ_r. f_equal.
      change (interval :: waited) with ([interval] ++ waited).
      rewrite app_assoc. f_equal.
      change [interval] with (replicate 1 interval).
      by rewrite <- replicate_add, Nat.add_1_r.
    + later_poll Hempty.
Qed.

Lemma truthy_Some (s : string) : s ≠ "" -> truthy (Some s) = true.
Proof.
  intros Hs. cbn. apply negb_true_iff. by apply String.eqb_neq.
Qed.

(** The first poll that is not the empty list, among polls that are not
    rejected. *)
Lemma first_nonempty_poll (filter : Filter) (n : nat) first rest :
  (∀ k, ∃ logs, provider filter k = Normal logs) ->
  provider filter n = Normal (first :: rest) ->
  ∃ m first' rest',
    (m <= n)%nat ∧ provider filter m = Normal (first' :: rest') ∧
    ∀ k, (k < m)%nat -> provider filter k = Normal [].
Proof.
  intros Hanswered Hfound.
  assert (Hscan : ∀ bound,
             (∀ k, (k < bound)%nat -> provider filter k = Normal [])
             ∨ ∃ m first' rest',
                 (m < bound)%nat ∧ provider filter m = Normal (first' :: rest') ∧
                 ∀ k, (k < m)%nat -> provider filter k = Normal []).
  { induction bound as [| bound [Hempty | (m & first' & rest' & Hm & Hrest)]].
    - left. intros; lia.
    - destruct (Hanswered bound) as [[| first' rest'] Hpoll].
      + left. intros k Hk. destruct (decide (k = bound)) as [-> | ?]; [done |].
        apply Hempty. lia.
      + right. exists bound, first', rest'. split_and!; [lia | done | done].
    - right. exists m, first', rest'. split; [lia | done]. }
  destruct (Hscan (S n)) as [Hempty | (m & first' & rest' & Hm & Hrest)].
  - rewrite Hempty in Hfound by lia. done.
  - exists m, first', rest'. split; [lia | done].
Qed.

(** C10, as the code has it.  Without a retry interval every call of
    [queryLogs] is rejected, before any poll.  With the retry interval
    configured and an event the interface knows: with neither a block hash
    nor a message identifier (absent or empty) it resolves to [undefined]
    without a poll; with a non-empty block hash and a provider none of whose
    polls is rejected, it ends exactly when some poll gives a non-empty list,
    and then it has resolved to the first log of the first such poll, having
    waited the retry interval after each poll before; otherwise it keeps
    polling, waiting the retry interval after each poll. *)
Theorem queryLogs_polls_until_found :
  (∀ fuel incentiveAddress incentivesEscrowInterface eventName blockHash
     messageIdentifier,
     queryLogs None provider fuel incentiveAddress incentivesEscrowInterface
       eventName blockHash messageIdentifier
     = {| outcome := Rejected "Retry interval is not defined"; polls := 0;
          waits := [] |}) ∧
  (∀ incentiveAddress incentivesEscrowInterface eventName eventTopic,
     getEvent incentivesEscrowInterface eventName = Some eventTopic ->
     (∀ absentHash absentIdentifier fuel,
        truthy absentHash = false -> truthy absentIdentifier = false ->
        queryLogs (Some interval) provider fuel incentiveAddress
          incentivesEscrowInterface eventName absentHash absentIdentifier
        = {| outcome := Resolved None; polls := 0; waits := [] |}) ∧
     (∀ blockHash messageIdentifier,
        blockHash ≠ "" ->
        let run fuel :=
          queryLogs (Some interval) provider fuel incentiveAddress
            incentivesEscrowInterface eventName (Some blockHash) messageIdentifier in
        let filter := blockFilter incentiveAddress eventTopic blockHash in
        (∀ n, ∃ logs, provider filter n = Normal logs) ->
        ((∃ fuel, outcome (run fuel) ≠ Polling)
         ↔ ∃ n first rest, provider filter n = Normal (first :: rest)) ∧
        (∀ fuel, outcome (run fuel) ≠ Polling ->
           ∃ n first rest,
             (n < fuel)%nat ∧
             provider filter n = Normal (first :: rest) ∧
             (∀ k, (k < n)%nat -> provider filter k = Normal []) ∧
             run fuel
             = {| outcome := Resolved (Some first); polls := S n;
                  waits := replicate n interval |}) ∧
        ((¬ ∃ n first rest, provider filter n = Normal (first :: rest)) ->
         ∀ fuel,
           run fuel
           = {| outcome := Polling; polls := fuel;
                waits := replicate fuel interval |}))).
Proof.
  split; [done |].
  intros incentiveAddress incentivesEscrowInterface eventName eventTopic Hevent.
  split.
  { intros absentHash absentIdentifier fuel Hno_hash Hno_identifier.
    unfold queryLogs. by rewrite Hevent, Hno_hash, Hno_identifier. }
  intros blockHash messageIdentifier Hhash run filter Hanswered.
  assert (Hrun : ∀ fuel,
             run fuel = queryLogsByBlockLoop provider interval fuel filter 0 []).
  { intros fuel. subst run. cbv beta. unfold queryLogs.
    by rewrite Hevent, (truthy_Some blockHash Hhash). }
  assert (Hshape : ∀ fuel,
             (run fuel = {| outcome := Polling; polls := fuel;
                            waits := replicate fuel interval |}
              ∧ ∀ k, (k < fuel)%nat -> provider filter k = Normal [])
             ∨ ∃ n first rest,
                 (n < fuel)%nat ∧ provider filter n = Normal (first :: rest) ∧
                 (∀ k, (k < n)%nat -> provider filter k = Normal []) ∧
                 run fuel = {| outcome := Resolved (Some first); polls := S n;
                               waits := replicate n interval |}).
  { intros fuel. rewrite Hrun. clear Hrun.
    assert (Hloop : ∀ polled waited,
               (queryLogsByBlockLoop provider interval fuel filter polled waited
                = {| outcome := Polling; polls := (polled + fuel)%nat;
                     waits := replicate fuel interval ++ waited |}
                ∧ ∀ k, (k < fuel)%nat -> provider filter (polled + k)%nat = Normal [])
               ∨ ∃ n first rest,
                   (n < fuel)%nat ∧
                   provider filter (polled + n)%nat = Normal (first :: rest) ∧
                   (∀ k, (k < n)%nat -> provider filter (polled + k)%nat = Normal []) ∧
                   queryLogsByBlockLoop provider interval fuel filter polled waited
                   = {| outcome := Resolved (Some first); polls := S (polled + n);
                        waits := replicate n interval ++ waited |}).
    { induction fuel as [| fuel IH]; intros polled waited.
      - left. cbn. rewrite Nat.add_0_r. split; [done | intros; lia].
      - cbn [queryLogsByBlockLoop].
        destruct (Hanswered polled) as [[| first rest] Hpoll]; rewrite Hpoll.
        + destruct (IH (S polled) (interval :: waited))
            as [[Hpolling Hempty] | (n & first & rest & Hn & Hfound & Hbefore & Hend)].
          * left. split.
            -- rewrite Hpolling, Nat.add_succ_r. f_equal.
               change (interval :: waited) with ([interval] ++ waited).
               rewrite app_assoc. f_equal.
               change [interval] with (replicate 1 interval).
               by rewrite <- replicate_add, Nat.add_1_r.
            -- intros [| k] Hk; [by rewrite Nat.add_0_r |].
               rewrite Nat.add_succ_r. apply Hempty. lia.
          * right. exists (S n), first, rest. rewrite Nat.add_succ_r.
            split_and!; [lia | done | |].
            -- intros [| k] Hk; [by rewrite Nat.add_0_r |].
               rewrite Nat.add_succ_r. apply Hbefore. lia.
            -- rewrite Hend. f_equal.
               change (interval :: waited) with ([interval] ++ waited).
               rewrite app_assoc. f_equal.
               change [interval] with (replicate 1 interval).
               by rewrite <- replicate_add, Nat.add_1_r.
        + right. exists 0%nat, first, rest. rewrite Nat.add_0_r.
          split_and!; [lia | done | intros; lia | done]. }
    destruct (Hloop 0%nat []) as [[Hpolling Hempty] | (n & first & rest & Hend)].
    - left. by rewrite Hpolling, app_nil_r.
    - right. exists n, first, rest. by rewrite app_nil_r in Hend. }
  split_and!.
  - split.
    + intros [fuel Hended].
      destruct (Hshape fuel) as [[Hpolling _] | (n & first & rest & _ & Hfound & _)].
      * by rewrite Hpolling in Hended.
      * by exists n, first, rest.
    + intros (n & first & rest & Hfound).
      destruct (first_nonempty_poll filter n first rest Hanswered Hfound)
        as (m & first' & rest' & _ & Hfound' & Hbefore).
      exists (S m).
      destruct (Hshape (S m)) as [[_ Hempty] | (k & ? & ? & _ & _ & _ & Hend)].
      * rewrite Hempty in Hfound' by lia. done.
      * by rewrite Hend.
  - intros fuel Hended.
    destruct (Hshape fuel) as [[Hpolling _] | Hend]; [| done].
    by rewrite Hpolling in Hended.
  - intros Hnever fuel.
    destruct (Hshape fuel) as [[Hpolling _] | (n & first & rest & _ & Hfound & _)];
      [done |].
    destruct Hnever. by exists n, first, rest.
Qed.

End QueryLogsProperties.

Example queryLogs_slowProvider :
  QueryLogs.queryLogs (Some 2000) Examples.slowProvider 10 "0xE1"
    Examples.escrowInterface "BountyPlaced" (Some "0xblock") None
  = {| QueryLogs.outcome := QueryLogs.Resolved (Some Examples.placedLog);
       QueryLogs.polls := 3; QueryLogs.waits := [2000; 2000] |}.
Proof. reflexivity. Qed.

Lemma queryLogs_polls_until_found_witness :
  let run fuel :=
    QueryLogs.queryLogs (Some 2000) Examples.slowProvider fuel "0xE1"
      Examples.escrowInterface "BountyPlaced" (Some "0xblock") None in
  let filter := QueryLogs.blockFilter "0xE1" "0xtopicPlaced" "0xblock" in
  QueryLogs.queryLogs None Examples.slowProvider 10 "0xE1" Examples.escrowInterface
    "BountyPlaced" (Some "0xblock") None
  = {| QueryLogs.outcome := QueryLogs.Rejected "Retry interval is not defined";
       QueryLogs.polls := 0; QueryLogs.waits := [] |} ∧
  QueryLogs.queryLogs (Some 2000) Examples.slowProvider 10 "0xE1"
    Examples.escrowInterface "BountyPlaced" (Some "") None
  = {| QueryLogs.outcome := QueryLogs.Resolved None; QueryLogs.polls := 0;
       QueryLogs.waits := [] |} ∧
  ((∃ fuel, QueryLogs.outcome (run fuel) ≠ QueryLogs.Polling)
   ↔ ∃ n first rest, Examples.slowProvider filter n = Normal (first :: rest)) ∧
  (∀ fuel, QueryLogs.outcome (run fuel) ≠ QueryLogs.Polling ->
     ∃ n first rest,
       (n < fuel)%nat ∧
       Examples.slowProvider filter n = Normal (first :: rest) ∧
       (∀ k, (k < n)%nat -> Examples.slowProvider filter k = Normal []) ∧
       run fuel
       = {| QueryLogs.outcome := QueryLogs.Resolved (Some first);
            QueryLogs.polls := S n; QueryLogs.waits := replicate n 2000 |}) ∧
  run 10%nat
  = {| QueryLogs.outcome := QueryLogs.Resolved (Some Examples.placedLog);
       QueryLogs.polls := 3; QueryLogs.waits := [2000; 2000] |}.
Proof.
  cbv zeta.
  destruct (queryLogs_polls_until_found Examples.slowProvider 2000)
    as [Hundefined Hdefined].
  destruct (Hdefined "0xE1" Examples.escrowInterface "BountyPlaced" "0xtopicPlaced"
              eq_refl) as [Hneither Hblock].
  assert (Hanswered : ∀ n, ∃ logs,
             Examples.slowProvider
               (QueryLogs.blockFilter "0xE1" "0xtopicPlaced" "0xblock") n
             = Normal logs).
  { intros n. unfold Examples.slowProvider. destruct (n <? 2)%nat; by eexists. }
  destruct (Hblock "0xblock" None ltac:(discriminate) Hanswered)
    as (Hends & Hfirst & _).
  split_and!.
  - apply Hundefined.
  - by apply Hneither.
  - exact Hends.
  - exact Hfirst.
  - reflexivity.
Defined.

(** C10 as it is worded fails: without a configured retry interval the call
    with neither a block hash nor a message identifier is rejected, where the
    claim has it return [undefined]. *)
Lemma queryLogs_ends_without_a_log :
  QueryLogs.queryLogs None Examples.slowProvider 10 "0xE1"
    Examples.escrowInterface "BountyPlaced" None None
  = {| QueryLogs.outcome := QueryLogs.Rejected "Retry interval is not defined";
       QueryLogs.polls := 0; QueryLogs.waits := [] |}
  ∧ QueryLogs.Rejected "Retry interval is not defined" ≠ QueryLogs.Resolved None.
Proof. split; [reflexivity | discriminate]. Qed.

(** A poll the provider rejects ends the search by block hash, where the
    search by message identifier catches the rejection and polls again. *)
Example queryLogs_rejected_poll :
  QueryLogs.queryLogs (Some 2000) Examples.downProvider 3 "0xE1"
    Examples.escrowInterface "BountyPlaced" (Some "0xblock") None
  = {| QueryLogs.outcome := QueryLogs.Rejected "could not detect network";
       QueryLogs.polls := 1; QueryLogs.waits := [] |}
  ∧
  QueryLogs.queryLogs (Some 2000) Examples.downProvider 3 "0xE1"
    Examples.escrowInterface "BountyPlaced" None (Some "0xtx")
  = {| QueryLogs.outcome := QueryLogs.Polling;
       QueryLogs.polls := 3; QueryLogs.waits := [2000; 2000; 2000] |}.
Proof. split; reflexivity. Qed.

(** ** The Store's merge rule *)

Section StoreProperties.
Import Store.

Lemma laterThan_spec (a b : EventMeta) :
  laterThan a b = true
  ↔ blockNumber b < blockNumber a
    ∨ (blockNumber b = blockNumber a ∧ logIndex b < logIndex a).
Proof.
  unfold laterThan.
  rewrite orb_true_iff, andb_true_iff, !Z.ltb_lt, Z.eqb_eq. tauto.
Qed.

Lemma laterThan_false (a b : EventMeta) :
  laterThan a b = false
  ↔ blockNumber a < blockNumber b
    ∨ (blockNumber a = blockNumber b ∧ logIndex a <= logIndex b).
Proof.
  rewrite <- not_true_iff_false, laterThan_spec. lia.
Qed.

Lemma relayStateKey_inj (mid mid' : string) :
  relayStateKey mid = relayStateKey mid' -> mid = mid'.
Proof. unfold relayStateKey. cbn. by intros [=]. Qed.

Lemma statusOf_le_2 (event : BountyEvent) : (statusOf event <= 2)%nat.
Proof. destruct event; cbn; lia. Qed.

Lemma mergeSlot_is_Some {P} (slot : option (Observation P)) new :
  is_Some (mergeSlot slot new).
Proof. unfold mergeSlot. destruct slot; [case_match |]; by eexists. Qed.

#[local] Instance grows_refl : Reflexive grows.
Proof. intros state. unfold grows. split_and!; (lia || done). Qed.

#[local] Instance grows_trans : Transitive grows.
Proof.
  intros a b c (? & ? & ? & ? & ?) (? & ? & ? & ? & ?).
  unfold grows. split_and!; (lia || auto).
Qed.

Lemma merge_grows (state : RelayState) (event : BountyEvent) :
  grows state (merge state event).
Proof.
  pose proof (statusOf_le_2 event).
  unfold grows. cbn. split_and!; [lia | lia | | |];
    destruct event; intros; (done || apply mergeSlot_is_Some).
Qed.

Lemma recordWallet_grows (update : WalletUpdate) (state : RelayState) :
  grows state (recordWallet update state).
Proof. unfold grows. cbn. split_and!; (lia || done). Qed.

(** One update of the Store: the state of a message that has one is kept, and
    has grown. *)
Lemma applyUpdate_grows (store : StoreMap) (update : Update) mid before :
  store !! relayStateKey mid = Some before ->
  ∃ after, applyUpdate store update !! relayStateKey mid = Some after ∧
           grows before after.
Proof.
  intros Hbefore. destruct update as [event | update]; cbn.
  - unfold applyEvent.
    destruct (decide (relayStateKey (eventMid event) = relayStateKey mid)) as [Heq | Hne].
    + rewrite Heq, lookup_insert_eq, Hbefore. cbn.
      eexists. split; [done |]. apply merge_grows.
    + rewrite lookup_insert_ne by done. by exists before.
  - unfold applyWallet. rewrite lookup_alter.
    case_decide as Heq.
    + rewrite Heq, Hbefore. cbn. eexists. split; [done |]. apply recordWallet_grows.
    + by exists before.
Qed.

Lemma applyUpdates_grow (updates : list Update) (store : StoreMap) mid before :
  store !! relayStateKey mid = Some before ->
  ∃ after, foldl applyUpdate store updates !! relayStateKey mid = Some after ∧
           grows before after.
Proof.
  revert store before.
  induction updates as [| update updates IH]; intros store before Hbefore; cbn.
  - by exists before.
  - destruct (applyUpdate_grows store update mid before Hbefore)
      as (middle & Hmiddle & Hgrows).
    destruct (IH _ _ Hmiddle) as (after & Hafter & Hgrows').
    exists after. split; [done |]. by etrans.
Qed.

(** C1: once a message has a RelayState with its [BountyPlaced] recorded, no
    sequence of event merges and wallet updates removes the state, empties the
    [BountyPlaced] slot or lowers the status; and a state with status 2 and the
    three slots of the complete flow populated stays so. *)
Theorem status_never_decreases (store : StoreMap) (mid : string)
    (before : RelayState) (updates : list Update) :
  getRelayStateByKey store (relayStateKey mid) = Some before ->
  is_Some (bountyPlacedEvent before) ->
  ∃ after,
    getRelayStateByKey (foldl applyUpdate store updates) (relayStateKey mid)
      = Some after ∧
    (status before <= status after)%nat ∧
    is_Some (bountyPlacedEvent after) ∧
    (terminal before -> terminal after).
Proof.
  unfold getRelayStateByKey. intros Hbefore Hplaced.
  destruct (applyUpdates_grow updates store mid before Hbefore)
    as (after & Hafter & Hle & Hbound & Hp & Hd & Hc).
  exists after. split_and!; [done | done | auto |].
  intros (Hstatus & ? & ? & ?). unfold terminal. split_and!; [lia | auto ..].
Qed.

(** *** The merge as a function of the events, whatever their order *)

Lemma merged_status (events : list BountyEvent) (state : RelayState) :
  status (foldl merge state events)
  = Nat.max (status state) (max_list_with statusOf events).
Proof.
  revert state. induction events as [| event events IH]; intros state; cbn.
  - lia.
  - rewrite IH. cbn. lia.
Qed.

(** Each slot of the merged state is the fold of [mergeSlot] over the events
    of its kind: the same induction for the four slots. *)
Ltac slot_of_merged events :=
  let event := fresh "event" in
  let IH := fresh "IH" in
  let state := fresh "state" in
  induction events as [| event events IH]; intros state;
  [reflexivity | cbn [foldl]; rewrite IH; destruct event; reflexivity].

Lemma merged_placed (events : list BountyEvent) :
  ∀ state,
    bountyPlacedEvent (foldl merge state events)
    = foldl mergeSlot (bountyPlacedEvent state) (omap placedOf events).
Proof. slot_of_merged events. Qed.

Lemma merged_increased (events : list BountyEvent) :
  ∀ state,
    bountyIncreasedEvent (foldl merge state events)
    = foldl mergeSlot (bountyIncreasedEvent state) (omap increasedOf events).
Proof. slot_of_merged events. Qed.

Lemma merged_delivered (events : list BountyEvent) :
  ∀ state,
    messageDeliveredEvent (foldl merge state events)
    = foldl mergeSlot (messageDeliveredEvent state) (omap deliveredOf events).
Proof. slot_of_merged events. Qed.

Lemma merged_claimed (events : list BountyEvent) :
  ∀ state,
    bountyClaimedEvent (foldl merge state events)
    = foldl mergeSlot (bountyClaimedEvent state) (omap claimedOf events).
Proof. slot_of_merged events. Qed.

Lemma merged_rest (events : list BountyEvent) (state : RelayState) :
  let final := foldl merge state events in
  messageIdentifier final = messageIdentifier state ∧
  deliveryGasCost final = deliveryGasCost state ∧
  ackGasCost final = ackGasCost state ∧
  deliveryAttempts final = deliveryAttempts state ∧
  ackAttempts final = ackAttempts state.
Proof.
  revert state. induction events as [| event events IH]; intros state; [done |].
  cbn. destruct (IH (merge state event)) as (-> & -> & -> & -> & ->). done.
Qed.

Lemma RelayState_eq (a b : RelayState) :
  status a = status b ->
  messageIdentifier a = messageIdentifier b ->
  bountyPlacedEvent a = bountyPlacedEvent b ->
  bountyIncreasedEvent a = bountyIncreasedEvent b ->
  messageDeliveredEvent a = messageDeliveredEvent b ->
  bountyClaimedEvent a = bountyClaimedEvent b ->
  deliveryGasCost a = deliveryGasCost b ->
  ackGasCost a = ackGasCost b ->
  deliveryAttempts a = deliveryAttempts b ->
  ackAttempts a = ackAttempts b ->
  a = b.
Proof. destruct a, b; cbn; intros; by subst. Qed.

(** A slot filled from an empty one holds a latest observation. *)
Lemma mergeSlot_latest {P} (offered : list (Observation P)) slot new :
  latest offered slot -> latest (offered ++ [new]) (mergeSlot slot new).
Proof.
  unfold latest, mergeSlot. destruct slot as [held |].
  - intros [Hheld Hnone].
    destruct (laterThan (meta new) (meta held)) eqn:Hlater.
    + split; [apply elem_of_app; right; left |].
      intros other [Hother | ->%list_elem_of_singleton]%elem_of_app.
      * specialize (Hnone other Hother).
        apply laterThan_spec in Hlater. apply laterThan_false in Hnone.
        apply laterThan_false. lia.
      * apply laterThan_false. lia.
    + split; [apply elem_of_app; by left |].
      intros other [Hother | ->%list_elem_of_singleton]%elem_of_app; auto.
  - intros ->. split; [left |].
    intros other ->%list_elem_of_singleton. apply laterThan_false. lia.
Qed.

Lemma foldl_mergeSlot_latest {P} (offered : list (Observation P)) :
  latest offered (foldl mergeSlot None offered).
Proof.
  induction offered as [| new offered IH] using rev_ind; [done |].
  rewrite foldl_snoc. by apply mergeSlot_latest.
Qed.

Lemma latest_unique {P} (offered : list (Observation P)) slot slot' :
  positionsIdentify offered -> latest offered slot -> latest offered slot' ->
  slot = slot'.
Proof.
  unfold latest. intros Hidentify.
  destruct slot as [held |], slot' as [held' |].
  - intros [Hheld Hnone] [Hheld' Hnone']. f_equal.
    pose proof (Hnone held' Hheld') as H1. pose proof (Hnone' held Hheld) as H2.
    apply laterThan_false in H1, H2.
    apply Hidentify; [done | done | lia | lia].
  - intros [Hheld _] ->. by apply elem_of_nil in Hheld.
  - intros -> [Hheld _]. by apply elem_of_nil in Hheld.
  - done.
Qed.

Lemma latest_Permutation {P} (offered offered' : list (Observation P)) slot :
  offered ≡ₚ offered' -> latest offered slot -> latest offered' slot.
Proof.
  intros Hperm. unfold latest. destruct slot as [held |].
  - intros [Hheld Hnone]. split; [by rewrite <- Hperm |].
    intros other Hother. apply Hnone. by rewrite Hperm.
  - intros ->. symmetry. by apply Permutation_nil_l.
Qed.

Lemma mergeSlot_order_independent {P} (offered offered' : list (Observation P)) :
  positionsIdentify offered -> offered ≡ₚ offered' ->
  foldl mergeSlot None offered' = foldl mergeSlot None offered.
Proof.
  intros Hidentify Hperm.
  apply (latest_unique offered); [done | | apply foldl_mergeSlot_latest].
  apply (latest_Permutation offered'); [done | apply foldl_mergeSlot_latest].
Qed.

Lemma merged_order_independent (mid : string) (events events' : list BountyEvent) :
  coherent events -> events ≡ₚ events' ->
  foldl merge (newRelayState mid) events' = foldl merge (newRelayState mid) events.
Proof.
  intros (Hp & Hi & Hd & Hc) Hperm.
  pose proof (merged_rest events (newRelayState mid)) as (? & ? & ? & ? & ?).
  pose proof (merged_rest events' (newRelayState mid)) as (? & ? & ? & ? & ?).
  apply RelayState_eq; try congruence.
  - rewrite !merged_status. by rewrite Hperm.
  - rewrite !merged_placed. apply mergeSlot_order_independent; [done | by rewrite Hperm].
  - rewrite !merged_increased. apply mergeSlot_order_independent; [done | by rewrite Hperm].
  - rewrite !merged_delivered. apply mergeSlot_order_independent; [done | by rewrite Hperm].
  - rewrite !merged_claimed. apply mergeSlot_order_independent; [done | by rewrite Hperm].
Qed.

(** The Store after the events of one message: its state is the merge of the
    events, and no other key is touched. *)
Lemma applyEvents_one_message (mid : string) (events : list BountyEvent)
    (store : StoreMap) :
  Forall (fun event => eventMid event = mid) events ->
  foldl applyEvent store events
  = match events with
    | [] => store
    | _ :: _ =>
        <[relayStateKey mid :=
            foldl merge ((store !! relayStateKey mid) ?? newRelayState mid) events]>
          store
    end.
Proof.
  intros Hmid. revert store.
  induction Hmid as [| event events Hevent _ IH]; intros store; [done |].
  assert (Hstep : applyEvent store event
                  = <[relayStateKey mid :=
                        merge ((store !! relayStateKey mid) ?? newRelayState mid) event]>
                      store)
    by (unfold applyEvent; by rewrite Hevent).
  cbn [foldl]. rewrite IH, Hstep.
  destruct events as [| next events]; [done |].
  rewrite lookup_insert_eq. cbn [nullish].
  by rewrite insert_insert_eq.
Qed.

(** C2, as the model has it: when no two different events for one slot were
    seen at the same [(blockNumber, logIndex)], the events of a message give
    the same Store and the same RelayState in whatever order they are merged;
    each slot then holds an event of its kind than which none is later, and
    the status is the largest [statusOf] among the events. *)
Theorem merge_order_independent (mid : string) (events events' : list BountyEvent) :
  Forall (fun event => eventMid event = mid) events ->
  coherent events ->
  events ≡ₚ events' ->
  let final := foldl merge (newRelayState mid) events in
  foldl applyEvent ∅ events' = foldl applyEvent ∅ events ∧
  foldl merge (newRelayState mid) events' = final ∧
  (events ≠ [] ->
   getRelayStateByKey (foldl applyEvent ∅ events) (relayStateKey mid) = Some final) ∧
  latest (omap placedOf events) (bountyPlacedEvent final) ∧
  latest (omap increasedOf events) (bountyIncreasedEvent final) ∧
  latest (omap deliveredOf events) (messageDeliveredEvent final) ∧
  latest (omap claimedOf events) (bountyClaimedEvent final) ∧
  status final = max_list_with statusOf events.
Proof.
  intros Hmid Hcoherent Hperm final.
  pose proof (merged_order_independent mid events events' Hcoherent Hperm) as Hfinal.
  assert (Hmid' : Forall (fun event => eventMid event = mid) events')
    by (by rewrite <- Hperm).
  split_and!.
  - rewrite !(applyEvents_one_message mid) by done.
    destruct events as [| event events], events' as [| event' events'].
    + done.
    + by apply Permutation_nil_l in Hperm.
    + by apply Permutation_nil_r in Hperm.
    + rewrite lookup_empty. cbn [nullish]. by rewrite Hfinal.
  - exact Hfinal.
  - intros Hsome. rewrite (applyEvents_one_message mid) by done.
    destruct events as [| event events]; [done |].
    unfold getRelayStateByKey. by rewrite lookup_insert_eq, lookup_empty.
  - subst final. rewrite merged_placed. apply foldl_mergeSlot_latest.
  - subst final. rewrite merged_increased. apply foldl_mergeSlot_latest.
  - subst final. rewrite merged_delivered. apply foldl_mergeSlot_latest.
  - subst final. rewrite merged_claimed. apply foldl_mergeSlot_latest.
  - subst final. by rewrite merged_status.
Qed.

Lemma positionsIdentify_nil {P} : positionsIdentify (@nil (Observation P)).
Proof. by intros a b ?%elem_of_nil. Qed.

Lemma positionsIdentify_singleton {P} (only : Observation P) : positionsIdentify [only].
Proof. by intros a b ->%list_elem_of_singleton ->%list_elem_of_singleton. Qed.

Lemma positionsIdentify_pair {P} (a b : Observation P) :
  blockNumber (meta a) ≠ blockNumber (meta b) ∨ logIndex (meta a) ≠ logIndex (meta b) ->
  positionsIdentify [a; b].
Proof.
  intros Hapart x y Hx Hy Hblock Hindex.
  apply elem_of_cons in Hx as [-> | ->%list_elem_of_singleton];
    apply elem_of_cons in Hy as [-> | ->%list_elem_of_singleton];
    first [done | destruct Hapart; congruence].
Qed.

End StoreProperties.

Example completeFlow_merged :
  foldl Store.merge (Store.newRelayState "0xM") Examples.completeFlow
  = {| Store.status := 2; Store.messageIdentifier := "0xM";
       Store.bountyPlacedEvent := Some Examples.placedInCanonical;
       Store.bountyIncreasedEvent := None;
       Store.messageDeliveredEvent := Some Examples.deliveredObservation;
       Store.bountyClaimedEvent := Some Examples.claimedObservation;
       Store.deliveryGasCost := None; Store.ackGasCost := None;
       Store.deliveryAttempts := 0; Store.ackAttempts := 0 |}.
Proof. reflexivity. Qed.

Lemma status_never_decreases_witness :
  ∃ after,
    Store.getRelayStateByKey (foldl Store.applyUpdate Examples.claimedStore
                                Examples.laterUpdates)
      (Store.relayStateKey "0xM") = Some after ∧
    (Store.status Examples.claimedState <= Store.status after)%nat ∧
    is_Some (Store.bountyPlacedEvent after) ∧
    (Store.terminal Examples.claimedState -> Store.terminal after).
Proof.
  apply (status_never_decreases Examples.claimedStore "0xM" Examples.claimedState
           Examples.laterUpdates).
  - vm_compute. reflexivity.
  - by eexists.
Defined.

Lemma merge_order_independent_witness :
  let final := foldl Store.merge (Store.newRelayState "0xM") Examples.busyFlow in
  (Store.bountyPlacedEvent final = Some Examples.placedAgain ∧
   Store.bountyIncreasedEvent final = Some Examples.secondIncrease ∧
   Store.laterThan (Store.meta Examples.placedAgain) (Store.meta Examples.placedInFork)
     = true ∧
   Store.laterThan (Store.meta Examples.secondIncrease)
                   (Store.meta Examples.firstIncrease) = true) ∧
  foldl Store.applyEvent ∅ Examples.busyFlowReversed
    = foldl Store.applyEvent ∅ Examples.busyFlow ∧
  foldl Store.merge (Store.newRelayState "0xM") Examples.busyFlowReversed = final ∧
  (Examples.busyFlow ≠ [] ->
   Store.getRelayStateByKey (foldl Store.applyEvent ∅ Examples.busyFlow)
     (Store.relayStateKey "0xM") = Some final) ∧
  Store.latest (omap Store.placedOf Examples.busyFlow) (Store.bountyPlacedEvent final) ∧
  Store.latest (omap Store.increasedOf Examples.busyFlow)
    (Store.bountyIncreasedEvent final) ∧
  Store.latest (omap Store.deliveredOf Examples.busyFlow)
    (Store.messageDeliveredEvent final) ∧
  Store.latest (omap Store.claimedOf Examples.busyFlow)
    (Store.bountyClaimedEvent final) ∧
  Store.status final = max_list_with Store.statusOf Examples.busyFlow.
Proof.
  cbv zeta. split; [split_and!; reflexivity |].
  apply (merge_order_independent "0xM" Examples.busyFlow Examples.busyFlowReversed).
  - by repeat constructor.
  - split_and!; cbn.
    + apply positionsIdentify_pair. left. discriminate.
    + apply positionsIdentify_pair. right. discriminate.
    + apply positionsIdentify_singleton.
    + apply positionsIdentify_singleton.
  - symmetry. exact (reverse_Permutation Examples.busyFlow).
Defined.

(** C2 as it is worded fails: two different [BountyPlaced] observations of a
    message at the same block number and log index (the block of one was
    reorganised out) leave in the slot whichever was merged first. *)
Lemma merge_order_matters_at_equal_positions :
  let fork := Store.BountyPlaced "0xM" Examples.placedInFork in
  let canonical := Store.BountyPlaced "0xM" Examples.placedInCanonical in
  [fork; canonical] ≡ₚ [canonical; fork] ∧
  Store.bountyPlacedEvent (foldl Store.merge (Store.newRelayState "0xM") [fork; canonical])
    = Some Examples.placedInFork ∧
  Store.bountyPlacedEvent (foldl Store.merge (Store.newRelayState "0xM") [canonical; fork])
    = Some Examples.placedInCanonical ∧
  Store.blockHash (Store.meta Examples.placedInFork) = "0xfork" ∧
  Store.blockHash (Store.meta Examples.placedInCanonical) = "0xcanonical".
Proof. split_and!; [apply Permutation_swap | reflexivity ..]. Qed.

(** ** The Evaluator's decision *)

Section EvaluatorProperties.
Import Store Evaluator.

#[local] Open Scope Q_scope.









End EvaluatorProperties.

Example zero_price_bounty_not_delivered :
  Evaluator.evaluate Examples.someReward Examples.pricedGas Examples.zeroPriceState = None.
Proof. reflexivity. Qed.



(* ===================================================================== *)
(** * Further properties of the code *)
(* ===================================================================== *)

(** ** utils.ts: the displayed bounty *)

Section BountyDtoProperties.
Import BountyDto.

Lemma getBountyStatus_inj (a b : BountyStatus) :
  getBountyStatus a = getBountyStatus b -> a = b.
Proof. destruct a, b; cbn; congruence. Qed.

Lemma bigintToString_inj (a b : Z) : bigintToString a = bigintToString b -> a = b.
Proof. unfold bigintToString. apply (inj pretty). Qed.

(** X1: [bountyToDTO] loses nothing of what it reads: two bounties with the
    same DTO have the same identifier, gas limits, refund address, prices,
    target delta and status. *)
Theorem bountyToDTO_lossless (a b : Bounty) : bountyToDTO a = bountyToDTO b -> a = b.
Proof.
  destruct a, b. unfold bountyToDTO. cbn.
  intros [= -> ?%bigintToString_inj ?%bigintToString_inj ->
             ?%bigintToString_inj ?%bigintToString_inj ?%bigintToString_inj
             ?%getBountyStatus_inj].
  by subst.
Qed.

End BountyDtoProperties.

(** ** The submitter service: workers and their settings *)

Section SubmitterWorkers.
Import Config Submitter SubmitterEffects.

Variable configService : ConfigService.
Variable loggerService : LoggerService.

Lemma incentivesAddresses_fold (ambs : list (string * AMBConfig)) chain
    (start : gmap string string) name :
  foldl (fun acc entry =>
           let amb := snd entry in
           <[amb_name amb := getIncentivesAddress amb chain]> acc)
        start ambs !! name
  = match lastNamed name ambs with
    | Some amb => Some (getIncentivesAddress amb chain)
    | None => start !! name
    end.
Proof.
  revert start. unfold lastNamed.
  induction ambs as [| entry ambs IH] using rev_ind; intros start; [done |].
  rewrite foldl_snoc, fmap_app, filter_app. cbn [fmap list_fmap].
  rewrite filter_cons, filter_nil. cbn zeta.
  case_decide as Hname.
  - rewrite last_snoc, <- Hname. by rewrite lookup_insert_eq.
  - rewrite app_nil_r, lookup_insert_ne by done. apply IH.
Qed.

(** X2: the [incentivesAddresses] map handed to a chain's submitter worker
    has an entry exactly for the names of the configured AMBs, and under a
    name it holds the incentives address that the last AMB configured with
    that name gives for the worker's chain. *)
Theorem worker_incentivesAddresses (chainConfig : ChainConfig)
    (globalConfig : GlobalSubmitterConfig) (name : string) :
  let handed :=
    wd_incentivesAddresses
      (loadWorkerData configService loggerService chainConfig globalConfig) in
  handed !! name
    = (fun amb => getIncentivesAddress amb (chainId chainConfig))
        <$> lastNamed name (ambsConfig configService)
  ∧ (is_Some (handed !! name)
     ↔ ∃ entry, entry ∈ ambsConfig configService ∧ amb_name entry.2 = name).
Proof.
  intros handed.
  assert (Hlookup : handed !! name
                    = (fun amb => getIncentivesAddress amb (chainId chainConfig))
                        <$> lastNamed name (ambsConfig configService)).
  { subst handed. cbn [wd_incentivesAddresses loadWorkerData].
    rewrite incentivesAddresses_fold, lookup_empty.
    by destruct (lastNamed _ _). }
  split; [exact Hlookup |]. rewrite Hlookup, fmap_is_Some.
  unfold lastNamed. rewrite last_is_Some. split.
  - intros Hne.
    destruct (filter _ _) as [| amb rest] eqn:Hfilter; [done |].
    assert (Hin : amb ∈ filter (fun amb => amb_name amb = name)
                          (ambsConfig configService).*2)
      by (rewrite Hfilter; left).
    apply list_elem_of_filter in Hin as [Hname Hin].
    apply list_elem_of_fmap in Hin as (entry & -> & Hin). by exists entry.
  - intros (entry & Hin & Hname) Hnil.
    assert (Hmem : entry.2 ∈ filter (fun amb => amb_name amb = name)
                           (ambsConfig configService).*2).
    { apply list_elem_of_filter. split; [done |]. by apply list_elem_of_fmap_2. }
    rewrite Hnil in Hmem. by apply elem_of_nil in Hmem.
Qed.

(** X3: unless the submitter is disabled ([enabled: false]), [onModuleInit]
    starts one worker per configured chain, in the order of the
    configuration, each with its chain's id and rpc; every numeric setting of
    a worker is the chain's value if the chain sets it, else the relayer's,
    else the default, the low balance warning has no default, and the gas
    price settings are the chain's alone.  Disabled, it starts none. *)
Theorem onModuleInit_workers :
  let relayer := relayer_submitter (relayerConfig configService) in
  let started := onModuleInit configService loggerService in
  (cfg_enabled relayer = Some false -> started = []) ∧
  (cfg_enabled relayer ≠ Some false ->
   length started = length (chainsConfig configService) ∧
   ∀ i chainConfig, chainsConfig configService !! i = Some chainConfig ->
     ∃ workerData,
       started !! i = Some workerData ∧
       let chain := Config.submitter chainConfig in
       wd_chainId workerData = chainId chainConfig ∧
       wd_rpc workerData = rpc chainConfig ∧
       wd_relayerPrivateKey workerData = privateKey (relayerConfig configService) ∧
       wd_newOrdersDelay workerData
         = cfg_newOrdersDelay chain ?? (cfg_newOrdersDelay relayer ?? 0) ∧
       wd_retryInterval workerData
         = cfg_retryInterval chain ?? (cfg_retryInterval relayer ?? 2000) ∧
       wd_processingInterval workerData
         = cfg_processingInterval chain ?? (cfg_processingInterval relayer ?? 100) ∧
       wd_maxTries workerData = cfg_maxTries chain ?? (cfg_maxTries relayer ?? 3) ∧
       wd_maxPendingTransactions workerData
         = cfg_maxPendingTransactions chain
             ?? (cfg_maxPendingTransactions relayer ?? 1000) ∧
       wd_confirmations workerData
         = cfg_confirmations chain ?? (cfg_confirmations relayer ?? 1) ∧
       wd_confirmationTimeout workerData
         = cfg_confirmationTimeout chain ?? (cfg_confirmationTimeout relayer ?? 600000) ∧
       wd_balanceUpdateInterval workerData
         = cfg_balanceUpdateInterval chain ?? (cfg_balanceUpdateInterval relayer ?? 50) ∧
       wd_lowBalanceWarning workerData
         = nullishOpt (cfg_lowBalanceWarning chain) (cfg_lowBalanceWarning relayer) ∧
       wd_maxFeePerGas workerData = cfg_maxFeePerGas chain ∧
       wd_maxPriorityFeeAdjustmentFactor workerData
         = cfg_maxPriorityFeeAdjustmentFactor chain ∧
       wd_maxAllowedPriorityFeePerGas workerData
         = cfg_maxAllowedPriorityFeePerGas chain ∧
       wd_gasPriceAdjustmentFactor workerData = cfg_gasPriceAdjustmentFactor chain ∧
       wd_maxAllowedGasPrice workerData = cfg_maxAllowedGasPrice chain ∧
       wd_priorityAdjustmentFactor workerData = cfg_priorityAdjustmentFactor chain).
Proof.
  intros relayer started. subst started. unfold onModuleInit.
  assert (Henabled : enabled (loadGlobalSubmitterConfig configService)
                     = cfg_enabled relayer ?? true) by reflexivity.
  rewrite Henabled. split.
  - by intros ->.
  - intros Hnot.
    assert (Hon : cfg_enabled relayer ?? true = true)
      by (destruct (cfg_enabled relayer) as [[|] |]; cbn; congruence).
    rewrite Hon. cbn [negb]. split; [by rewrite length_fmap |].
    intros i chainConfig Hi. eexists. split.
    + rewrite list_lookup_fmap, Hi. reflexivity.
    + cbn. split_and!; reflexivity.
Qed.

Lemma withDefaultKey_idempotent (buffers : gmap string Q) :
  withDefaultKey (withDefaultKey buffers) = withDefaultKey buffers.
Proof.
  unfold withDefaultKey at 1.
  by rewrite decide_True by apply withDefaultKey_has_default.
Qed.

(** X4: [loadGlobalSubmitterConfig] writes into the configuration it reads:
    a [gasLimitBuffer] object of the relayer configuration that has no
    ['default'] key has one, 0, after the call, and nothing else changes.
    Called again on the configuration it left, it returns the same settings
    and changes nothing more. *)
Theorem loadGlobalSubmitterConfig_writes_default :
  let before := relayer_submitter (relayerConfig configService) in
  let after := relayer_submitter (relayerConfig (configAfterLoad configService)) in
  (cfg_gasLimitBuffer before = None -> after = before) ∧
  (∀ buffers, cfg_gasLimitBuffer before = Some buffers ->
     cfg_gasLimitBuffer after
       = Some (gasLimitBuffer (loadGlobalSubmitterConfig configService)) ∧
     (buffers !! "default" = None ->
      cfg_gasLimitBuffer after = Some (<["default" := 0%Q]> buffers))) ∧
  loadGlobalSubmitterConfig (configAfterLoad configService)
    = loadGlobalSubmitterConfig configService ∧
  configAfterLoad (configAfterLoad configService) = configAfterLoad configService.
Proof.
  intros before after. subst after. split_and!.
  - intros Hnone. subst before. cbn.
    destruct (relayer_submitter (relayerConfig configService)). cbn in *.
    by rewrite Hnone.
  - intros buffers Hsome. cbn. fold before. rewrite Hsome. cbn. split; [done |].
    intros Hnone. unfold withDefaultKey.
    rewrite decide_False; [done |]. rewrite Hnone. by intros [? [=]].
  - unfold loadGlobalSubmitterConfig. cbn. fold before.
    destruct (cfg_gasLimitBuffer before) as [buffers |]; cbn; [| done].
    by rewrite withDefaultKey_idempotent.
  - unfold configAfterLoad, submitterConfigAfterLoad. cbn. fold before.
    destruct (cfg_gasLimitBuffer before) as [buffers |]; cbn; [| done].
    by rewrite withDefaultKey_idempotent.
Qed.

End SubmitterWorkers.

(** ** The polymer collector: the workers it keeps *)

Section PolymerWorkers.
Import Config Polymer PolymerExits.

Variable dBlockDelay dInterval : Z.
Variable dMaxBlocks : option Z.
Variable configService : ConfigService.
Variable loggerService : LoggerService.

(** An exit never puts a worker into the record. *)
Lemma Reachable_worker_from_module (workers : Workers) chain workerData :
  Reachable dBlockDelay dInterval dMaxBlocks configService loggerService workers ->
  workers !! chain = Some (Some workerData) ->
  ∃ effects initial,
    polymerModule dBlockDelay dInterval dMaxBlocks configService loggerService
      = (effects, Normal initial) ∧
    initial !! chain = Some (Some workerData).
Proof.
  induction 1 as [effects workers Hinit | workers exited _ IH Hstarted].
  - intros Hworker. by exists effects, workers.
  - unfold onWorkerExit. destruct (decide (exited = chain)) as [-> | Hne].
    + rewrite lookup_insert_eq. intros [=].
    + rewrite lookup_insert_ne by done. exact IH.
Qed.

(** X5: in every state the status interval can find, a worker kept under a
    chain id was created by the module for a configured chain with that id:
    with that chain's rpc and block range, with the incentives and bridge
    addresses the polymer AMB has for the chain, and with the block delay,
    interval and block window of the chain if it sets them, else of the global
    configuration, else the getter's defaults. *)
Theorem kept_worker_data (workers : Workers) (chain : string)
    (workerData : PolymerWorkerData) :
  Reachable dBlockDelay dInterval dMaxBlocks configService loggerService workers ->
  workers !! chain = Some (Some workerData) ->
  ∃ chainConfig,
    chainConfig ∈ chainsConfig configService ∧
    chainId chainConfig = chain ∧
    wd_chainId workerData = chain ∧
    wd_rpc workerData = rpc chainConfig ∧
    wd_startingBlock workerData = startingBlock chainConfig ∧
    wd_stoppingBlock workerData = stoppingBlock chainConfig ∧
    getAMBConfig configService "polymer" "incentivesAddress" chain
      = Some (wd_incentivesAddress workerData) ∧
    getAMBConfig configService "polymer" "bridgeAddress" chain
      = Some (wd_polymerAddress workerData) ∧
    wd_blockDelay workerData
      = chain_blockDelay chainConfig
          ?? (global_blockDelay (globalConfig configService) ?? dBlockDelay) ∧
    wd_interval workerData
      = cfg_interval (getter chainConfig)
          ?? (cfg_interval (global_getter (globalConfig configService)) ?? dInterval) ∧
    wd_maxBlocks workerData
      = nullishOpt (cfg_maxBlocks (getter chainConfig))
          (nullishOpt (cfg_maxBlocks (global_getter (globalConfig configService)))
             dMaxBlocks) ∧
    wd_loggerOptions workerData = loggerOptions loggerService.
Proof.
  intros Hreach Hworker.
  destruct (Reachable_worker_from_module workers chain workerData Hreach Hworker)
    as (effects & initial & Hmodule & Hinitial).
  unfold polymerModule in Hmodule.
  destruct (loadGlobalPolymerConfig _ _ _ _) as [globalPolymerConfig |] eqn:Hglobal;
    [| done].
  injection Hmodule as _ <-.
  rewrite startChain_workers in Hinitial. cbn [snd] in Hinitial.
  destruct (last _) as [kept |] eqn:Hlast; [| by rewrite lookup_empty in Hinitial].
  injection Hinitial as ->.
  apply last_Some_elem_of, list_elem_of_filter in Hlast as [Hid Hin].
  apply list_elem_of_omap in Hin as (chainConfig & Hin & Hload).
  unfold loadGlobalPolymerConfig in Hglobal.
  destruct (mapGet _ _); [| done]. injection Hglobal as <-.
  unfold loadWorkerData in Hload.
  destruct (getAMBConfig _ _ "incentivesAddress" _) as [incentives |] eqn:Hi; [| done].
  destruct (getAMBConfig _ _ "bridgeAddress" _) as [bridge |] eqn:Hb; [| done].
  injection Hload as <-. cbn in Hid. subst chain.
  exists chainConfig. cbn. by split_and!.
Qed.

Lemma afterExits_lookup (exits : list string) (workers : Workers) chain :
  afterExits exits workers !! chain
  = if decide (chain ∈ exits) then Some None else workers !! chain.
Proof.
  unfold afterExits. revert workers.
  induction exits as [| exited exits IH]; intros workers; cbn [foldl].
  - rewrite decide_False; [done | apply not_elem_of_nil].
  - rewrite IH. unfold onWorkerExit.
    destruct (decide (chain ∈ exits)) as [Hin | Hout].
    + rewrite decide_True; [done | by right].
    + destruct (decide (exited = chain)) as [-> | Hne].
      * rewrite lookup_insert_eq, decide_True; [done | left].
      * rewrite lookup_insert_ne by done.
        rewrite decide_False; [done |].
        intros [? | ?]%elem_of_cons; [congruence | done].
Qed.

(** X6: workers only ever leave.  After any sequence of worker exits, the
    chains whose workers exited are inactive; every other chain is where it
    was; a chain that was inactive is still inactive; no chain has become
    active; and the order in which the workers exited makes no difference. *)
Theorem exits_only_deactivate (workers : Workers) (exits : list string)
    (chain : string) :
  let before := logStatus workers in
  let after := logStatus (afterExits exits workers) in
  (chain ∈ exits -> chain ∈ inactiveWorkers after) ∧
  (chain ∉ exits ->
   (chain ∈ activeWorkers after ↔ chain ∈ activeWorkers before) ∧
   (chain ∈ inactiveWorkers after ↔ chain ∈ inactiveWorkers before)) ∧
  (chain ∈ inactiveWorkers before -> chain ∈ inactiveWorkers after) ∧
  (chain ∈ activeWorkers after -> chain ∈ activeWorkers before ∧ chain ∉ exits) ∧
  (∀ exits', exits ≡ₚ exits' ->
     afterExits exits' workers = afterExits exits workers).
Proof.
  intros before after. subst before after.
  rewrite !active_spec, !inactive_spec, !afterExits_lookup.
  split_and!.
  - intros Hin. by rewrite decide_True.
  - intros Hout. by rewrite decide_False.
  - intros Hinactive. by case_decide.
  - case_decide; [by intros [? [=]] | done].
  - intros exits' Hperm. apply map_eq. intros key.
    rewrite !afterExits_lookup.
    destruct (decide (key ∈ exits)) as [Hin | Hout].
    + rewrite decide_True; [done | by rewrite <- Hperm].
    + rewrite decide_False; [done | by rewrite <- Hperm].
Qed.

End PolymerWorkers.

(** ** Polling for the log of a message *)

Section QueryLogsByIdentifier.
Import QueryLogs QueryLogsScan.

Variable provider : JsonRpcProvider.
Variable interval : Z.
Variable incentivesEscrowInterface : EscrowInterface.
Variable messageIdentifier : string.

Lemma findByMessageIdentifier_found (logs : list Log) (log : Log) :
  findByMessageIdentifier incentivesEscrowInterface messageIdentifier logs
    = Normal (Some log)
  ↔ ∃ before after,
      logs = before ++ log :: after ∧
      parseLog incentivesEscrowInterface log = Normal (Some messageIdentifier) ∧
      ∀ other, other ∈ before ->
        ∃ parsed, parseLog incentivesEscrowInterface other = Normal parsed ∧
                  parsed ≠ Some messageIdentifier.
Proof.
  induction logs as [| first logs IH]; cbn.
  - split; [done | intros ([| ? ?] & ? & [=] & _)].
  - destruct (parseLog incentivesEscrowInterface first) as [parsed | thrown] eqn:Hparse;
      cbn.
    + case_decide as Hmatch.
      * split.
        -- intros [= <-]. exists [], logs. split_and!; [done | by subst |].
           by intros other ?%elem_of_nil.
        -- intros ([| other before] & after & Hlogs & Hlog & Hbefore).
           ++ by injection Hlogs as -> _.
           ++ injection Hlogs as <- _.
              destruct (Hbefore first) as (parsed' & Hparse' & Hne); [left |].
              congruence.
      * rewrite IH. split.
        -- intros (before & after & -> & Hlog & Hbefore).
           exists (first :: before), after. split_and!; [done | done |].
           intros other [-> | Hother]%elem_of_cons; [by exists parsed | auto].
        -- intros ([| other before] & after & Hlogs & Hlog & Hbefore).
           ++ injection Hlogs as -> _. congruence.
           ++ injection Hlogs as <- ->. exists before, after.
              split_and!; [done | done |]. intros ? ?. apply Hbefore. by right.
    + split; [done |].
      intros ([| other before] & after & Hlogs & Hlog & Hbefore).
      * injection Hlogs as -> _. congruence.
      * injection Hlogs as <- _.
        destruct (Hbefore first) as (parsed' & Hparse' & _); [left |]. congruence.
Qed.

Lemma scan_found filter polled log :
  scan provider filter incentivesEscrowInterface messageIdentifier polled = Some log
  ↔ ∃ logs,
      provider filter polled = Normal logs ∧
      findByMessageIdentifier incentivesEscrowInterface messageIdentifier logs
        = Normal (Some log).
Proof.
  unfold scan. destruct (provider filter polled) as [logs | thrown]; cbn.
  - destruct (findByMessageIdentifier _ _ logs) as [found | thrown] eqn:Hfind; cbn.
    + split; [intros ->; by exists logs | intros (? & [= <-] & Hfound); congruence].
    + split; [done | intros (? & [= <-] & Hfound); congruence].
  - split; [done | intros (? & [=] & _)].
Qed.

Lemma replicate_shift {A} (n : nat) (x : A) (rest : list A) :
  replicate n x ++ x :: rest = replicate (S n) x ++ rest.
Proof. induction n as [| n IH]; cbn; [done | by rewrite IH]. Qed.

Lemma queryLogsByMessageIdentifierLoop_pass fuel filter polled waited :
  queryLogsByMessageIdentifierLoop provider interval (S fuel) filter
    incentivesEscrowInterface messageIdentifier polled waited
  = match scan provider filter incentivesEscrowInterface messageIdentifier polled with
    | Some log =>
        {| outcome := Resolved (Some log); polls := S polled; waits := waited |}
    | None =>
        queryLogsByMessageIdentifierLoop provider interval fuel filter
          incentivesEscrowInterface messageIdentifier (S polled) (interval :: waited)
    end.
Proof.
  cbn [queryLogsByMessageIdentifierLoop]. unfold scan.
  by destruct (tryCatch _ _) as [[log |] | thrown].
Qed.

(** The loop, by what each pass finds: it stops at the first pass that finds
    a log, having waited once after each pass before. *)
Lemma queryLogsByMessageIdentifierLoop_run fuel filter polled waited :
  let run :=
    queryLogsByMessageIdentifierLoop provider interval fuel filter
      incentivesEscrowInterface messageIdentifier polled waited in
  (outcome run = Polling ∧ polls run = (polled + fuel)%nat ∧
   waits run = replicate fuel interval ++ waited ∧
   ∀ k, (k < fuel)%nat ->
     scan provider filter incentivesEscrowInterface messageIdentifier (polled + k)
       = None)
  ∨ (∃ n log,
       (n < fuel)%nat ∧
       outcome run = Resolved (Some log) ∧ polls run = S (polled + n) ∧
       waits run = replicate n interval ++ waited ∧
       scan provider filter incentivesEscrowInterface messageIdentifier (polled + n)
         = Some log ∧
       ∀ k, (k < n)%nat ->
         scan provider filter incentivesEscrowInterface messageIdentifier (polled + k)
           = None).
Proof.
  revert polled waited.
  induction fuel as [| fuel IH]; intros polled waited run; subst run.
  - left. cbn. split_and!; [done | lia | done | intros; lia].
  - rewrite queryLogsByMessageIdentifierLoop_pass.
    destruct (scan provider filter incentivesEscrowInterface messageIdentifier polled)
      as [log |] eqn:Hscan.
    + right. exists 0%nat, log. cbn. rewrite Nat.add_0_r.
      split_and!; [lia | done | done | done | done | intros; lia].
    + destruct (IH (S polled) (interval :: waited))
        as [(Hout & Hpolls & Hwaits & Hnone)
           | (n & log & Hn & Hout & Hpolls & Hwaits & Hfound & Hnone)].
      * left. split_and!; [done | lia | by rewrite Hwaits, replicate_shift |].
        intros [| k] Hk; [by rewrite Nat.add_0_r |].
        rewrite Nat.add_succ_r. apply Hnone. lia.
      * right. exists (S n), log.
        split_and!; [lia | done | lia | by rewrite Hwaits, replicate_shift | |].
        { by rewrite Nat.add_succ_r. }
        intros [| k] Hk; [by rewrite Nat.add_0_r |].
        rewrite Nat.add_succ_r. apply Hnone. lia.
Qed.

Lemma queryLogs_by_identifier fuel incentiveAddress eventName eventTopic blockHash :
  getEvent incentivesEscrowInterface eventName = Some eventTopic ->
  truthy blockHash = false -> messageIdentifier ≠ "" ->
  queryLogs (Some interval) provider fuel incentiveAddress incentivesEscrowInterface
    eventName blockHash (Some messageIdentifier)
  = queryLogsByMessageIdentifierLoop provider interval fuel
      (eventFilter incentiveAddress eventTopic) incentivesEscrowInterface
      messageIdentifier 0 [].
Proof.
  intros Hevent Hhash Hidentifier. unfold queryLogs.
  by rewrite Hevent, Hhash, (truthy_Some messageIdentifier Hidentifier).
Qed.

(** X7: [queryLogs] searching by message identifier never rejects, whatever
    the provider and [parseLog] throw: watched for any number of passes, it
    is either still polling, having polled and waited the retry interval once
    per pass, or it has resolved to a log that the last poll returned and
    whose parsed [messageIdentifier] is the one asked for, having waited once
    after each earlier poll and not after the last. *)
Theorem queryLogs_by_identifier_never_rejects (incentiveAddress eventName eventTopic : string)
    (blockHash : option string) (fuel : nat) :
  getEvent incentivesEscrowInterface eventName = Some eventTopic ->
  truthy blockHash = false -> messageIdentifier ≠ "" ->
  let run :=
    queryLogs (Some interval) provider fuel incentiveAddress incentivesEscrowInterface
      eventName blockHash (Some messageIdentifier) in
  (outcome run = Polling ∧ polls run = fuel ∧ waits run = replicate fuel interval)
  ∨ (∃ n log logs,
       (n < fuel)%nat ∧ outcome run = Resolved (Some log) ∧
       polls run = S n ∧ waits run = replicate n interval ∧
       provider (eventFilter incentiveAddress eventTopic) n = Normal logs ∧
       log ∈ logs ∧
       parseLog incentivesEscrowInterface log = Normal (Some messageIdentifier)).
Proof.
  intros Hevent Hhash Hidentifier run. subst run.
  rewrite (queryLogs_by_identifier fuel incentiveAddress eventName eventTopic blockHash)
    by done.
  destruct (queryLogsByMessageIdentifierLoop_run fuel
              (eventFilter incentiveAddress eventTopic) 0 [])
    as [(Hout & Hpolls & Hwaits & _)
       | (n & log & Hn & Hout & Hpolls & Hwaits & Hfound & _)].
  - left. rewrite app_nil_r in Hwaits. by split_and!.
  - right. cbn in Hfound.
    apply scan_found in Hfound as (logs & Hpoll & Hfind).
    apply findByMessageIdentifier_found in Hfind as (before & after & -> & Hparse & _).
    exists n, log, (before ++ log :: after).
    rewrite app_nil_r in Hwaits.
    split_and!; [done | done | done | done | done | | done].
    apply elem_of_app. right. left.
Qed.

(** X8: which log the search by message identifier returns.  It resolves to
    a log exactly when some pass finds that log and no earlier pass finds any;
    and a pass finds a log exactly when the poll returns a list in which the
    log parses to the identifier asked for and every log before it parses,
    without an error, to something else.  A log that [parseLog] throws on
    hides the logs after it in that poll. *)
Theorem queryLogs_by_identifier_result (incentiveAddress eventName eventTopic : string)
    (blockHash : option string) (log : Log) :
  getEvent incentivesEscrowInterface eventName = Some eventTopic ->
  truthy blockHash = false -> messageIdentifier ≠ "" ->
  let run fuel :=
    queryLogs (Some interval) provider fuel incentiveAddress incentivesEscrowInterface
      eventName blockHash (Some messageIdentifier) in
  let finds n found :=
    ∃ before after,
      provider (eventFilter incentiveAddress eventTopic) n
        = Normal (before ++ found :: after) ∧
      parseLog incentivesEscrowInterface found = Normal (Some messageIdentifier) ∧
      ∀ other, other ∈ before ->
        ∃ parsed, parseLog incentivesEscrowInterface other = Normal parsed ∧
                  parsed ≠ Some messageIdentifier in
  (∃ fuel, outcome (run fuel) = Resolved (Some log))
  ↔ ∃ n, finds n log ∧ ∀ k other, (k < n)%nat -> ¬ finds k other.
Proof.
  intros Hevent Hhash Hidentifier run finds.
  assert (Hfinds : ∀ n found,
             scan provider (eventFilter incentiveAddress eventTopic)
               incentivesEscrowInterface messageIdentifier n = Some found
             ↔ finds n found).
  { intros n found. rewrite scan_found. subst finds. cbn beta. split.
    - intros (logs & Hpoll & (before & after & -> & Hrest)%findByMessageIdentifier_found).
      by exists before, after.
    - intros (before & after & Hpoll & Hrest). eexists. split; [exact Hpoll |].
      apply findByMessageIdentifier_found. by exists before, after. }
  assert (Hnone : ∀ n,
             scan provider (eventFilter incentiveAddress eventTopic)
               incentivesEscrowInterface messageIdentifier n = None
             ↔ ∀ other, ¬ finds n other).
  { intros n. split.
    - intros Hscan other Hother%Hfinds. congruence.
    - intros Hno. destruct (scan _ _ _ _ n) as [found |] eqn:Hscan; [| done].
      by apply Hfinds, Hno in Hscan. }
  assert (Hrun : ∀ fuel,
             run fuel
             = queryLogsByMessageIdentifierLoop provider interval fuel
                 (eventFilter incentiveAddress eventTopic) incentivesEscrowInterface
                 messageIdentifier 0 []).
  { intros fuel. subst run. cbv beta.
    by apply (queryLogs_by_identifier fuel incentiveAddress eventName eventTopic). }
  split.
  - intros [fuel Hfuel]. rewrite Hrun in Hfuel.
    destruct (queryLogsByMessageIdentifierLoop_run fuel
                (eventFilter incentiveAddress eventTopic) 0 [])
      as [(Hout & _) | (n & found & Hn & Hout & _ & _ & Hfound & Hbefore)];
      [congruence |].
    rewrite Hout in Hfuel. injection Hfuel as ->. cbn in Hfound, Hbefore.
    exists n. split; [by apply Hfinds |].
    intros k other Hk. by apply Hnone, Hbefore.
  - intros (n & Hfound & Hbefore). exists (S n). rewrite Hrun.
    destruct (queryLogsByMessageIdentifierLoop_run (S n)
                (eventFilter incentiveAddress eventTopic) 0 [])
      as [(_ & _ & _ & Hall) | (m & found & Hm & Hout & _ & _ & Hm_found & Hm_before)].
    + specialize (Hall n). cbn in Hall. apply Hfinds in Hfound.
      rewrite Hall in Hfound by lia. done.
    + cbn in Hm_found, Hm_before. rewrite Hout.
      destruct (decide (m = n)) as [-> | Hne].
      * apply Hfinds in Hfound. congruence.
      * exfalso. assert (m < n)%nat as Hlt by lia.
        apply Hfinds in Hm_found. by apply (Hbefore m found Hlt).
Qed.

End QueryLogsByIdentifier.

Section QueryLogsByBlock.
Import QueryLogs.

Variable provider : JsonRpcProvider.
Variable interval : Z.

(** The loop of [queryLogsByBlock], by its polls: it ends at the first poll
    that is not the empty list, having waited once after each poll before. *)
Lemma queryLogsByBlockLoop_run fuel filter polled waited :
  let run := queryLogsByBlockLoop provider interval fuel filter polled waited in
  (outcome run = Polling ∧ polls run = (polled + fuel)%nat ∧
   waits run = replicate fuel interval ++ waited)
  ∨ (∃ n, (n < fuel)%nat ∧ polls run = S (polled + n) ∧
          waits run = replicate n interval ++ waited ∧
          ((∃ log rest, outcome run = Resolved (Some log) ∧
                        provider filter (polled + n)%nat = Normal (log :: rest))
           ∨ (∃ message, outcome run = Rejected message ∧
                         provider filter (polled + n)%nat = Throw message))).
Proof.
  revert polled waited.
  induction fuel as [| fuel IH]; intros polled waited run; subst run.
  - left. cbn. split_and!; [done | lia | done].
  - cbn [queryLogsByBlockLoop].
    destruct (provider filter polled) as [[| log rest] | message] eqn:Hpoll.
    + destruct (IH (S polled) (interval :: waited))
        as [(Hout & Hpolls & Hwaits) | (n & Hn & Hpolls & Hwaits & Hend)].
      * left. split_and!; [done | lia | by rewrite Hwaits, replicate_shift].
      * right. exists (S n). rewrite Nat.add_succ_r.
        split_and!; [lia | lia | by rewrite Hwaits, replicate_shift | done].
    + right. exists 0%nat. cbn. rewrite Nat.add_0_r.
      split_and!; [lia | done | done |]. left. by exists log, rest.
    + right. exists 0%nat. cbn. rewrite Nat.add_0_r.
      split_and!; [lia | done | done |]. right. by exists message.
Qed.

(** X9: given a block hash, [queryLogs] does not look at the message
    identifier at all, never waits after the poll that ends it, and never
    resolves to [undefined]: watched for any number of iterations it is still
    polling, with one wait of the retry interval per poll made, or it has
    ended at poll [n + 1] after [n] waits, resolved with the first log of
    that poll or rejected with the error of that poll. *)
Theorem queryLogs_by_block_run (incentiveAddress eventName eventTopic blockHash : string)
    (incentivesEscrowInterface : EscrowInterface) (messageIdentifier : option string)
    (fuel : nat) :
  getEvent incentivesEscrowInterface eventName = Some eventTopic ->
  blockHash ≠ "" ->
  let run :=
    queryLogs (Some interval) provider fuel incentiveAddress incentivesEscrowInterface
      eventName (Some blockHash) messageIdentifier in
  let filter := blockFilter incentiveAddress eventTopic blockHash in
  run = queryLogs (Some interval) provider fuel incentiveAddress
          incentivesEscrowInterface eventName (Some blockHash) None
  ∧ ((outcome run = Polling ∧ polls run = fuel ∧ waits run = replicate fuel interval)
     ∨ (∃ n, (n < fuel)%nat ∧ polls run = S n ∧ waits run = replicate n interval ∧
             ((∃ log rest, outcome run = Resolved (Some log) ∧
                           provider filter n = Normal (log :: rest))
              ∨ (∃ message, outcome run = Rejected message ∧
                            provider filter n = Throw message)))).
Proof.
  intros Hevent Hhash run filter. subst run filter.
  unfold queryLogs. rewrite Hevent, (truthy_Some blockHash Hhash).
  split; [done |].
  unfold queryLogsByBlock. cbn [address topics nullish].
  fold (blockFilter incentiveAddress eventTopic blockHash).
  destruct (queryLogsByBlockLoop_run fuel
              (blockFilter incentiveAddress eventTopic blockHash) 0 [])
    as [(Hout & Hpolls & Hwaits) | (n & Hn & Hpolls & Hwaits & Hend)].
  - left. rewrite app_nil_r in Hwaits. by split_and!.
  - right. exists n. rewrite app_nil_r in Hwaits. cbn in Hend. by split_and!.
Qed.

End QueryLogsByBlock.

(** ** jest.setup.ts *)

Section DeploymentRetries.
Import JestSetup.

Variable deployFullEnvironment : Deployment.

Lemma attemptLoop_run (retries : Z) (fuel : nat) (made : nat) reported :
  (Z.of_nat made + Z.of_nat fuel = retries) ->
  let run :=
    attemptLoop deployFullEnvironment retries fuel (Z.of_nat made + 1) made reported in
  (∃ n result,
     (n < fuel)%nat ∧ deployFullEnvironment (made + n)%nat = Normal result ∧
     (∀ k, (k < n)%nat -> ∃ error, deployFullEnvironment (made + k)%nat = Throw error) ∧
     ended run = Some (Normal result) ∧ deployments run = S (made + n) ∧
     length (JestSetup.reported run) = (length reported + n)%nat)
  ∨ ((∀ k, (k < fuel)%nat -> ∃ error, deployFullEnvironment (made + k)%nat = Throw error) ∧
     deployments run = (made + fuel)%nat ∧
     length (JestSetup.reported run) = (length reported + fuel)%nat ∧
     match fuel with
     | O => ended run = Some (Throw DEPLOYMENT_FAILED)
     | S last =>
         ∃ error, deployFullEnvironment (made + last)%nat = Throw error ∧
                  ended run = Some (Throw error)
     end).
Proof.
  revert made reported.
  induction fuel as [| fuel IH]; intros made reported Hretries run; subst run.
  - right. cbn [attemptLoop].
    destruct (Z.leb_spec (Z.of_nat made + 1) retries) as [Hle | Hgt]; [lia |].
    cbn. split_and!; [intros; lia | lia | lia | done].
  - cbn [attemptLoop].
    destruct (Z.leb_spec (Z.of_nat made + 1) retries) as [Hle | Hgt]; [| lia].
    destruct (deployFullEnvironment made) as [result | error] eqn:Hfirst.
    + left. exists 0%nat, result. cbn. rewrite Nat.add_0_r.
      split_and!; [lia | done | intros; lia | done | done | lia].
    + destruct (Z.eqb_spec (Z.of_nat made + 1) retries) as [Hlast | Hmore].
      * assert (fuel = 0%nat) as -> by lia.
        right. cbn. rewrite Nat.add_0_r.
        split_and!; [| lia | lia | by exists error].
        intros k Hk. assert (k = 0%nat) as -> by lia.
        rewrite Nat.add_0_r. by exists error.
      * specialize (IH (S made) ((Z.of_nat made + 1, error) :: reported)).
        replace (Z.of_nat (S made) + 1) with (Z.of_nat made + 1 + 1) in IH by lia.
        destruct IH as [(n & result & Hn & Hdeploy & Hbefore & Hend & Hmade & Hreported)
                       | (Hall & Hmade & Hreported & Hend)]; [lia | |].
        -- left. exists (S n), result. rewrite Nat.add_succ_r.
           split_and!; [lia | done | | done | done |].
           ++ intros [| k] Hk; [rewrite Nat.add_0_r; by exists error |].
              rewrite Nat.add_succ_r. apply Hbefore. lia.
           ++ rewrite Hreported. cbn. lia.
        -- right. split_and!.
           ++ intros [| k] Hk; [rewrite Nat.add_0_r; by exists error |].
              rewrite Nat.add_succ_r. apply Hall. lia.
           ++ lia.
           ++ rewrite Hreported. cbn. lia.
           ++ destruct fuel as [| last]; [lia |].
              destruct Hend as (last_error & Hlast_error & Hend).
              exists last_error. by rewrite Nat.add_succ_r.
Qed.

(** X10: [tryDeployFullEnvironment(retries)] always ends, in one of three
    ways.  It returns the result of the first deployment that succeeds among
    the first [retries], having started no deployment after it; or, when
    [retries] deployments in a row have failed, it throws the error of the
    last of them; or, when [retries] is below one, it throws `Deployment
    failed after multiple attempts' without starting any deployment, which is
    the only way to reach that message.  Each failed deployment is reported
    once. *)
Theorem tryDeployFullEnvironment_outcome (retries : Z) :
  let run := tryDeployFullEnvironment deployFullEnvironment retries in
  let failed n := ∃ error, deployFullEnvironment n = Throw error in
  (∃ n result,
     (Z.of_nat n < retries) ∧ deployFullEnvironment n = Normal result ∧
     (∀ k, (k < n)%nat -> failed k) ∧
     ended run = Some (Normal result) ∧ deployments run = S n ∧
     length (reported run) = n)
  ∨ (0 < retries ∧ (∀ k, (Z.of_nat k < retries) -> failed k) ∧
     (∃ error, deployFullEnvironment (Z.to_nat (retries - 1)) = Throw error ∧
               ended run = Some (Throw error)) ∧
     Z.of_nat (deployments run) = retries ∧
     Z.of_nat (length (reported run)) = retries)
  ∨ (retries <= 0 ∧ ended run = Some (Throw DEPLOYMENT_FAILED) ∧
     deployments run = 0%nat ∧ reported run = []).
Proof.
  intros run failed. subst run failed. unfold tryDeployFullEnvironment.
  destruct (Z.le_gt_cases retries 0) as [Hnone | Hsome].
  - right. right. replace (Z.to_nat retries) with 0%nat by lia. cbn [attemptLoop].
    destruct (Z.leb_spec 1 retries) as [Hle | Hgt]; [lia | done].
  - pose proof (attemptLoop_run retries (Z.to_nat retries) 0 []) as Hrun.
    cbv zeta in Hrun. change (Z.of_nat 0 + 1) with 1 in Hrun.
    cbn [length Nat.add] in Hrun.
    destruct Hrun as [(n & result & Hn & Hdeploy & Hbefore & Hend & Hmade & Hreported)
                     | (Hall & Hmade & Hreported & Hend)]; [lia | |].
    + left. exists n, result. split_and!; [lia | done | done | done | done | done].
    + right. left. split_and!; [done | | | lia | lia].
      * intros k Hk. apply Hall. lia.
      * destruct (Z.to_nat retries) as [| last] eqn:Hretries; [lia |].
        destruct Hend as (error & Hlast & Hend). exists error.
        by replace (Z.to_nat (retries - 1)) with last by lia.
Qed.

End DeploymentRetries.

(** ** The global teardown *)

Section Teardown.
Import JestTeardown.

Variable pkill : string.
Variable world : World.

Lemma commands_app (a b : list Effect) : commands (a ++ b) = commands a ++ commands b.
Proof. apply omap_app. Qed.

Lemma unlinked_app (a b : list Effect) : unlinked (a ++ b) = unlinked a ++ unlinked b.
Proof. apply omap_app. Qed.

Lemma exits_app (a b : list Effect) : exits (a ++ b) = exits a ++ exits b.
Proof. apply omap_app. Qed.

Lemma failures_app (a b : list Effect) : failures (a ++ b) = failures a ++ failures b.
Proof. apply omap_app. Qed.

Lemma killAll_effects executed (pids : list string) :
  commands (killAll world executed pids) = (fun pid => "kill " +:+ pid) <$> pids
  ∧ unlinked (killAll world executed pids) = []
  ∧ exits (killAll world executed pids) = [].
Proof.
  revert executed. induction pids as [| pid rest IH]; intros executed; [done |].
  destruct (IH (S executed)) as (Hcommands & Hunlinked & Hexits).
  cbn [killAll]. rewrite commands_app, unlinked_app, exits_app.
  rewrite Hcommands, Hunlinked, Hexits. unfold killOne.
  by destruct (exec world executed _).
Qed.

Lemma stopRelayer_effects executed :
  commands (stopRelayer world executed pkill) = [pkill]
  ∧ unlinked (stopRelayer world executed pkill) = []
  ∧ exits (stopRelayer world executed pkill) = [].
Proof. unfold stopRelayer. by destruct (exec world executed pkill). Qed.

Lemma deleteFile_effects path name :
  commands (deleteFile world path name) = []
  ∧ unlinked (deleteFile world path name) = [path]
  ∧ exits (deleteFile world path name) = [].
Proof.
  unfold deleteFile.
  by destruct (unlink world path) as [| error]; [| destruct (isNotENOENT error)].
Qed.

Lemma globalTeardown_read (pids : list string) :
  QueryLogs.truthy (JEST_WATCH_MODE world) = false ->
  readPids world = Ok pids ->
  globalTeardown pkill world
  = [ConsoleLog [Text "Running global teardown..."]; ReadFile PIDS_FILE "utf-8";
     ConsoleLog [Text "PIDs to stop:"; Strings pids]]
    ++ killAll world 0 pids
    ++ stopRelayer world (length pids) pkill
    ++ deleteFile world PIDS_FILE "pids.json"
    ++ deleteFile world CONFIG_FILE "config.test.yaml"
    ++ [Exit 0].
Proof.
  intros Hwatch Hpids. unfold globalTeardown. rewrite Hwatch, Hpids.
  cbn [app]. by rewrite <- !app_assoc.
Qed.

(** X11: outside watch mode [globalTeardown] ends the process with exit code
    0 as its last act, whatever fails on the way.  When [pids.json] is read,
    every pid in it gets its [kill], in order and whether or not earlier
    kills failed, then the relayer is stopped and both files are unlinked;
    when [pids.json] cannot be read or parsed, nothing is killed and nothing
    is unlinked, so the generated configuration stays behind.  In watch mode
    it runs no command, unlinks nothing and does not exit. *)
Theorem globalTeardown_effects :
  let effects := globalTeardown pkill world in
  if QueryLogs.truthy (JEST_WATCH_MODE world) then
    commands effects = [] ∧ unlinked effects = [] ∧ exits effects = []
  else
    last effects = Some (Exit 0) ∧ exits effects = [0] ∧
    match readPids world with
    | Ok pids =>
        commands effects = ((fun pid => "kill " +:+ pid) <$> pids) ++ [pkill] ∧
        unlinked effects = [PIDS_FILE; CONFIG_FILE]
    | Raise _ => commands effects = [] ∧ unlinked effects = []
    end.
Proof.
  intros effects. subst effects.
  destruct (QueryLogs.truthy (JEST_WATCH_MODE world)) eqn:Hwatch.
  { unfold globalTeardown. by rewrite Hwatch. }
  destruct (readPids world) as [pids | error] eqn:Hpids.
  - rewrite (globalTeardown_read pids Hwatch Hpids).
    destruct (killAll_effects 0 pids) as (Hkill_commands & Hkill_unlinked & Hkill_exits).
    destruct (stopRelayer_effects (length pids)) as (Hstop_commands & Hstop_unlinked & Hstop_exits).
    destruct (deleteFile_effects PIDS_FILE "pids.json") as (Hpids_commands & Hpids_unlinked & Hpids_exits).
    destruct (deleteFile_effects CONFIG_FILE "config.test.yaml")
      as (Hconfig_commands & Hconfig_unlinked & Hconfig_exits).
    split_and!.
    + rewrite !app_assoc. apply last_snoc.
    + rewrite !exits_app, Hkill_exits, Hstop_exits, Hpids_exits, Hconfig_exits. done.
    + rewrite !commands_app, Hkill_commands, Hstop_commands, Hpids_commands,
        Hconfig_commands. done.
    + rewrite !unlinked_app, Hkill_unlinked, Hstop_unlinked, Hpids_unlinked,
        Hconfig_unlinked. done.
  - unfold globalTeardown. rewrite Hwatch, Hpids. done.
Qed.

Lemma deleteFile_failure path name code message :
  unlink world path = Raise (ErrorObject code message) ->
  failures (deleteFile world path name)
  = [[Text ("Failed to delete " +:+ name +:+ ":"); Caught (ErrorObject code message)]].
Proof. intros Hunlink. unfold deleteFile. by rewrite Hunlink. Qed.

(** X12: the guard [error !== 'ENOENT'] does not silence a missing file.
    When [fs.unlink] rejects with an [Error] object, whatever its code,
    [ENOENT] included, the teardown writes `Failed to delete' with that error
    to [console.error], for either of the two files. *)
Theorem globalTeardown_reports_missing_file (pids : list string)
    (path name code message : string) :
  QueryLogs.truthy (JEST_WATCH_MODE world) = false ->
  readPids world = Ok pids ->
  (path, name) ∈ [(PIDS_FILE, "pids.json"); (CONFIG_FILE, "config.test.yaml")] ->
  unlink world path = Raise (ErrorObject code message) ->
  [Text ("Failed to delete " +:+ name +:+ ":"); Caught (ErrorObject code message)]
  ∈ failures (globalTeardown pkill world).
Proof.
  intros Hwatch Hpids Hfile Hunlink.
  rewrite (globalTeardown_read pids Hwatch Hpids), !failures_app.
  do 3 (apply elem_of_app; right).
  apply elem_of_cons in Hfile as [[= -> ->] | Hfile].
  - apply elem_of_app. left.
    rewrite (deleteFile_failure _ _ code message Hunlink). left.
  - apply list_elem_of_singleton in Hfile as [= -> ->].
    apply elem_of_app. right. apply elem_of_app. left.
    rewrite (deleteFile_failure _ _ code message Hunlink). left.
Qed.

End Teardown.

(** ** The relay tests *)

Section RelayTestsProperties.
Import RelayTests.

Variable world : World.
Variable fuel : nat.

Lemma bind_Returns {A B} (t : Test A) (k : A -> Test B) h h' (b : B) :
  bind t k h = (h', Returns b)
  ↔ ∃ h0 a, t h = (h0, Returns a) ∧ k a h0 = (h', Returns b).
Proof.
  unfold bind. destruct (t h) as [h0 [a | message |]]; split.
  - intros Hk. by exists h0, a.
  - by intros (? & ? & [= <- <-] & Hk).
  - done.
  - by intros (? & ? & [=] & _).
  - done.
  - by intros (? & ? & [=] & _).
Qed.

(** What a helper leaves alone. *)
Definition sameStore (h h' : Harness) : Prop :=
  relayState h' = relayState h ∧ attemptsCounter h' = attemptsCounter h ∧
  reads h' = reads h.

Lemma sameStore_refl h : sameStore h h.
Proof. done. Qed.

Lemma sameStore_trans h1 h2 h3 : sameStore h1 h2 -> sameStore h2 h3 -> sameStore h1 h3.
Proof. intros (? & ? & ?) (? & ? & ?). split_and!; congruence. Qed.

Lemma bind_sameStore {A B} (t : Test A) (k : A -> Test B) h h' ending :
  (∀ h0 e, t h = (h0, e) -> sameStore h h0) ->
  (∀ h0 a h1 e, t h = (h0, Returns a) -> k a h0 = (h1, e) -> sameStore h0 h1) ->
  bind t k h = (h', ending) -> sameStore h h'.
Proof.
  intros Ht Hk. unfold bind.
  destruct (t h) as [h0 [a | message |]] eqn:Hrun.
  - intros Hrest. eapply sameStore_trans; [by eapply Ht | by eapply Hk].
  - intros [= <- <-]. by eapply Ht.
  - intros [= <- <-]. by eapply Ht.
Qed.

Lemma swap_sameStore transactOpts h h' ending :
  swap world transactOpts h = (h', ending) -> sameStore h h'.
Proof.
  unfold swap. by destruct (performSwap world transactOpts (swaps h)); intros [= <- <-].
Qed.

Lemma swap_swaps transactOpts h h' ending :
  swap world transactOpts h = (h', ending) -> swaps h' = S (swaps h).
Proof.
  unfold swap. by destruct (performSwap world transactOpts (swaps h)); intros [= <- <-].
Qed.

Lemma queryLogs_sameStore eventName blockHash messageIdentifier h h' ending :
  RelayTests.queryLogs world fuel eventName blockHash messageIdentifier h = (h', ending) ->
  sameStore h h' ∧ swaps h' = swaps h.
Proof.
  unfold RelayTests.queryLogs.
  by destruct (QueryLogs.outcome _); intros [= <- <-].
Qed.

Lemma liftC_same {A} (c : Completion A) h h' ending :
  liftC c h = (h', ending) -> h' = h.
Proof. unfold liftC. by destruct c; intros [= <- <-]. Qed.

Lemma getMessageIdentifier_sameStore h h' ending :
  getMessageIdentifier world fuel h = (h', ending) -> sameStore h h'.
Proof.
  unfold getMessageIdentifier. apply bind_sameStore.
  - intros h0 e. apply swap_sameStore.
  - intros h0 blockHash h1 e _.
    destruct (negb (QueryLogs.truthy blockHash)); [by intros [= <- <-] |].
    apply bind_sameStore.
    + intros h2 e2 Hquery. by apply queryLogs_sameStore in Hquery as [? _].
    + intros h2 [log |] h3 e3 _; [| by intros [= <- <-]].
      intros ->%liftC_same. done.
Qed.

(** The loop: it ends within [turnsLeft] iterations, it advances the counter
    by one per read that returns, up to [ATTEMPTS_MAXIMUM] at most, and it
    waits at most once per read. *)
Lemma pollLoop_run turns messageIdentifier attempts h h' attempts' ending :
  (turnsLeft world attempts <= turns)%nat ->
  pollLoop world turns messageIdentifier attempts h = (h', attempts', ending) ->
  ending ≠ Hangs ∧
  attempts <= attempts' ∧ attempts' <= Z.max attempts (ATTEMPTS_MAXIMUM world) ∧
  swaps h' = swaps h ∧ polled h' = polled h ∧ attemptsCounter h' = attemptsCounter h ∧
  Z.of_nat (reads h')
  = Z.of_nat (reads h) + (attempts' - attempts)
    + (match ending with Throws _ => 1 | _ => 0 end) ∧
  (∃ nulls, waited h' = replicate nulls (TIME_BETWEEN_ATTEMPTS world) ++ waited h ∧
            Z.of_nat nulls <= attempts' - attempts) ∧
  (ending = Returns tt ->
   ATTEMPTS_MAXIMUM world <= attempts'
   ∨ notYetFound (relayState h') messageIdentifier = false).
Proof.
  revert attempts h.
  induction turns as [| turns IH]; intros attempts h Hturns; cbn [pollLoop].
  - destruct (Z.ltb_spec attempts (ATTEMPTS_MAXIMUM world)) as [Hlt | Hge].
    { unfold turnsLeft in Hturns. lia. }
    cbn [andb]. intros [= <- <- <-].
    split_and!; [done | lia | lia | done | done | done | lia | | by left].
    exists 0%nat. split; [done | lia].
  - destruct (Z.ltb_spec attempts (ATTEMPTS_MAXIMUM world)) as [Hlt | Hge]; cbn [andb].
    + destruct (notYetFound (relayState h) messageIdentifier) eqn:Hguard.
      * destruct (getRelayStateByKey world _ (reads h)) as [state | message].
        -- intros Hrest. apply IH in Hrest; [| unfold turnsLeft in *; lia].
           cbn [relayState attemptsCounter swaps polled reads waited] in Hrest.
           destruct Hrest as (Hhangs & Hle & Hmax & Hswaps & Hpolled & Hcounter
                              & Hreads & (nulls & Hwaited & Hnulls) & Hend).
           split_and!; [done | lia | lia | done | done | done | lia | | done].
           destruct state as [state |].
           ++ exists nulls. split; [done | lia].
           ++ exists (S nulls). split; [| lia].
              rewrite Hwaited. apply replicate_shift.
        -- intros [= <- <- <-]. cbn.
           split_and!; [done | lia | lia | done | done | done | lia | | done].
           exists 0%nat. split; [done | lia].
      * intros [= <- <- <-].
        split_and!; [done | lia | lia | done | done | done | lia | | by right].
        exists 0%nat. split; [done | lia].
    + intros [= <- <- <-].
      split_and!; [done | lia | lia | done | done | done | lia | | by left].
      exists 0%nat. split; [done | lia].
Qed.

(** Nothing is read once the attempts are used up or the state is there. *)
Lemma pollLoop_idle turns messageIdentifier attempts h :
  ATTEMPTS_MAXIMUM world <= attempts
  ∨ notYetFound (relayState h) messageIdentifier = false ->
  pollLoop world turns messageIdentifier attempts h = (h, attempts, Returns tt).
Proof.
  intros Hidle.
  assert ((attempts <? ATTEMPTS_MAXIMUM world)%Z
          && notYetFound (relayState h) messageIdentifier = false) as Hguard.
  { destruct Hidle as [Hused | ->]; [| by rewrite andb_false_r].
    by destruct (Z.ltb_spec attempts (ATTEMPTS_MAXIMUM world)); [lia |]. }
  destruct turns; cbn [pollLoop]; by rewrite Hguard.
Qed.

Lemma awaitRelayState_run messageIdentifier h h' ending :
  awaitRelayState world messageIdentifier h = (h', ending) ->
  ending ≠ Hangs ∧
  attemptsCounter h <= attemptsCounter h' ∧
  attemptsCounter h' <= Z.max (attemptsCounter h) (ATTEMPTS_MAXIMUM world) ∧
  swaps h' = swaps h ∧ polled h' = polled h ∧
  Z.of_nat (reads h')
  = Z.of_nat (reads h) + (attemptsCounter h' - attemptsCounter h)
    + (match ending with Throws _ => 1 | _ => 0 end) ∧
  (∃ nulls, waited h' = replicate nulls (TIME_BETWEEN_ATTEMPTS world) ++ waited h ∧
            Z.of_nat nulls <= attemptsCounter h' - attemptsCounter h) ∧
  (ending = Returns tt ->
   ATTEMPTS_MAXIMUM world <= attemptsCounter h'
   ∨ notYetFound (relayState h') messageIdentifier = false).
Proof.
  unfold awaitRelayState.
  destruct (pollLoop world _ messageIdentifier (attemptsCounter h) h)
    as [[h0 attempts] e] eqn:Hloop.
  apply pollLoop_run in Hloop; [| done].
  destruct Hloop as (Hhangs & Hle & Hmax & Hswaps & Hpolled & _ & Hreads & Hwaited & Hend).
  intros [= <- <-]. cbn [relayState attemptsCounter swaps polled reads waited].
  by split_and!.
Qed.

Lemma awaitRelayState_idle messageIdentifier h :
  ATTEMPTS_MAXIMUM world <= attemptsCounter h
  ∨ notYetFound (relayState h) messageIdentifier = false ->
  awaitRelayState world messageIdentifier h = (h, Returns tt).
Proof.
  intros Hidle. unfold awaitRelayState. rewrite pollLoop_idle by done. by destruct h.
Qed.

Lemma expectRelayState_run exceeded expected h h' ending :
  expectRelayState exceeded expected h = (h', ending) ->
  h' = h ∧ ending ≠ Hangs ∧
  (ending = Returns tt
   ↔ ∃ state, relayState h = Some state ∧ toMatchObject state expected = true).
Proof.
  unfold expectRelayState. destruct (relayState h) as [state |].
  - destruct (toMatchObject state expected) eqn:Hmatch; intros [= <- <-].
    + split_and!; [done | done |]. split; [by exists state | done].
    + split_and!; [done | done |]. split; [done |]. intros (? & [= <-] & ?). congruence.
  - intros [= <- <-]. split_and!; [done | done |]. split; [done | by intros (? & ? & _)].
Qed.

(** [runTest] once it has its message identifier and its log. *)
Definition checked (messageIdentifier : option string) (expected : Expected) : Test unit :=
  bind (awaitRelayState world messageIdentifier)
       (fun _ => expectRelayState EXCEEDED expected).

Lemma checked_run messageIdentifier expected h h' ending :
  checked messageIdentifier expected h = (h', ending) ->
  ending ≠ Hangs ∧
  attemptsCounter h <= attemptsCounter h' ∧
  attemptsCounter h' <= Z.max (attemptsCounter h) (ATTEMPTS_MAXIMUM world) ∧
  swaps h' = swaps h ∧
  Z.of_nat (reads h') <= Z.of_nat (reads h) + (attemptsCounter h' - attemptsCounter h) + 1 ∧
  (ending = Returns tt ->
   Z.of_nat (reads h') = Z.of_nat (reads h) + (attemptsCounter h' - attemptsCounter h) ∧
   (ATTEMPTS_MAXIMUM world <= attemptsCounter h'
    ∨ notYetFound (relayState h') messageIdentifier = false) ∧
   ∃ state, relayState h' = Some state ∧ toMatchObject state expected = true).
Proof.
  unfold checked, bind.
  destruct (awaitRelayState world messageIdentifier h) as [h0 e] eqn:Hawait.
  apply awaitRelayState_run in Hawait
    as (Hhangs & Hle & Hmax & Hswaps & _ & Hreads & _ & Hend).
  destruct e as [[] | message |]; [| | done].
  - intros (-> & Hhangs' & Hreturns)%expectRelayState_run.
    split_and!; [done | done | done | done | lia |].
    intros Hending. split_and!; [lia | by apply Hend | by apply Hreturns].
  - intros [= <- <-]. split_and!; [done | done | done | done | lia | done].
Qed.

Lemma checked_idle messageIdentifier expected h :
  ATTEMPTS_MAXIMUM world <= attemptsCounter h
  ∨ notYetFound (relayState h) messageIdentifier = false ->
  checked messageIdentifier expected h = expectRelayState EXCEEDED expected h.
Proof. intros Hidle. unfold checked, bind. by rewrite awaitRelayState_idle. Qed.

Lemma runTest_given eventType expected transactOpts (messageIdentifier : string) h :
  messageIdentifier ≠ "" ->
  runTest world fuel eventType expected transactOpts (Some messageIdentifier) h
  = bind (RelayTests.queryLogs world fuel eventType None (Some messageIdentifier))
         (fun log => match log with
                     | None => throw ("Log for event " +:+ eventType +:+ " not found")
                     | Some _ => checked (Some messageIdentifier) expected
                     end) h.
Proof.
  intros Hidentifier. unfold runTest.
  by rewrite (truthy_Some messageIdentifier Hidentifier).
Qed.

Lemma runTest_unfold eventType expected transactOpts messageIdentifier h :
  runTest world fuel eventType expected transactOpts messageIdentifier h
  = bind (if negb (QueryLogs.truthy messageIdentifier)
          then getMessageIdentifier world fuel else ret messageIdentifier)
      (fun messageIdentifier =>
         bind (RelayTests.queryLogs world fuel eventType None messageIdentifier)
           (fun log => match log with
                       | None => throw ("Log for event " +:+ eventType +:+ " not found")
                       | Some _ => checked messageIdentifier expected
                       end)) h.
Proof. done. Qed.

(** What every call of [runTest] does to the counter and the store. *)
Lemma runTest_run eventType expected transactOpts messageIdentifier h h' ending :
  runTest world fuel eventType expected transactOpts messageIdentifier h = (h', ending) ->
  attemptsCounter h <= attemptsCounter h' ∧
  attemptsCounter h' <= Z.max (attemptsCounter h) (ATTEMPTS_MAXIMUM world) ∧
  Z.of_nat (reads h') <= Z.of_nat (reads h) + (attemptsCounter h' - attemptsCounter h) + 1 ∧
  (ATTEMPTS_MAXIMUM world <= attemptsCounter h -> reads h' = reads h) ∧
  (ending = Returns tt ->
   Z.of_nat (reads h') = Z.of_nat (reads h) + (attemptsCounter h' - attemptsCounter h) ∧
   ∃ state, relayState h' = Some state ∧ toMatchObject state expected = true).
Proof.
  rewrite runTest_unfold. unfold bind at 1.
  destruct ((if negb (QueryLogs.truthy messageIdentifier)
             then getMessageIdentifier world fuel else ret messageIdentifier) h)
    as [h0 e0] eqn:Hidentifier.
  assert (sameStore h h0) as (Hstate0 & Hcounter0 & Hreads0).
  { destruct (negb (QueryLogs.truthy messageIdentifier)).
    - by eapply getMessageIdentifier_sameStore.
    - by injection Hidentifier as <- _. }
  destruct e0 as [identifier | message |].
  2,3: intros [= <- <-]; rewrite Hcounter0, Hreads0;
       split_and!; [lia | lia | lia | done | done].
  unfold bind at 1.
  destruct (RelayTests.queryLogs world fuel eventType None identifier h0)
    as [h1 e1] eqn:Hquery.
  apply queryLogs_sameStore in Hquery as [(Hstate1 & Hcounter1 & Hreads1) _].
  destruct e1 as [[log |] | message |].
  2,3,4: intros [= <- <-]; rewrite Hcounter1, Hreads1, Hcounter0, Hreads0;
         split_and!; [lia | lia | lia | done | done].
  intros Hchecked.
  assert (ATTEMPTS_MAXIMUM world <= attemptsCounter h -> reads h' = reads h) as Hused.
  { intros Hmax. rewrite checked_idle in Hchecked by (left; lia).
    apply expectRelayState_run in Hchecked as (-> & _). congruence. }
  apply checked_run in Hchecked as (_ & Hle & Hmax & _ & Hreads & Hend).
  rewrite Hcounter1, Hcounter0 in Hle, Hmax, Hreads, Hend.
  rewrite Hreads1, Hreads0 in Hreads, Hend.
  split_and!; [done | done | done | done |].
  intros Hending. destruct (Hend Hending) as (Hexact & _ & Hstate). done.
Qed.

(** X13: the attempts of the event tests' [runTest] are counted per test, not
    per call.  A call moves the module-level [attemptsCounter] forward by one
    for each store read that returns and never past [ATTEMPTS_MAXIMUM], and
    reads the store only through those attempts and, at most, one read that
    is rejected; once the counter has reached [ATTEMPTS_MAXIMUM] a call
    reads nothing.  A call that returns has left a [relayState] that matches
    the expected structure.  The [transactOpts] it is given make no
    difference: the swap is always made with [validTransactOpts]. *)
Theorem runTest_attempts_budget (eventType : string) (expectedStructure : Expected)
    (transactOpts : Transaction) (messageIdentifier : option string) (h : Harness) :
  let result :=
    runTest world fuel eventType expectedStructure transactOpts messageIdentifier h in
  let h' := result.1 in
  attemptsCounter h <= attemptsCounter h' ∧
  attemptsCounter h' <= Z.max (attemptsCounter h) (ATTEMPTS_MAXIMUM world) ∧
  Z.of_nat (reads h') <= Z.of_nat (reads h) + (attemptsCounter h' - attemptsCounter h) + 1 ∧
  (ATTEMPTS_MAXIMUM world <= attemptsCounter h -> reads h' = reads h) ∧
  (result.2 = Returns tt ->
   Z.of_nat (reads h') = Z.of_nat (reads h) + (attemptsCounter h' - attemptsCounter h) ∧
   ∃ state, relayState h' = Some state ∧
            toMatchObject state expectedStructure = true) ∧
  result
  = runTest world fuel eventType expectedStructure validTransactOpts messageIdentifier h.
Proof.
  intros result h'. subst h' result.
  destruct (runTest world fuel eventType expectedStructure transactOpts
              messageIdentifier h) as [h' ending] eqn:Hrun.
  destruct (runTest_run _ _ _ _ _ _ _ Hrun) as (Hle & Hmax & Hreads & Hused & Hend).
  cbn [fst snd]. split_and!; [done | done | done | done | done |].
  symmetry. exact Hrun.
Qed.

(** X14: a test cannot recover from used-up attempts.  Once the counter has
    reached [ATTEMPTS_MAXIMUM] with no relay state found, every further call
    of [runTest] in the same test (the retries of `should retry and process
    RelayState after a failure' among them) ends without returning: it reads
    nothing from the store, whatever has been stored since, and leaves the
    variables as they were. *)
Theorem runTest_after_exhaustion (eventType : string) (expectedStructure : Expected)
    (transactOpts : Transaction) (messageIdentifier : option string) (h : Harness) :
  ATTEMPTS_MAXIMUM world <= attemptsCounter h ->
  relayState h = None ->
  let result :=
    runTest world fuel eventType expectedStructure transactOpts messageIdentifier h in
  result.2 ≠ Returns tt ∧
  reads result.1 = reads h ∧ relayState result.1 = None ∧
  attemptsCounter result.1 = attemptsCounter h.
Proof.
  intros Hused Hnone result. subst result.
  destruct (runTest world fuel eventType expectedStructure transactOpts
              messageIdentifier h) as [h' ending] eqn:Hrun.
  cbn [fst snd].
  destruct (runTest_run _ _ _ _ _ _ _ Hrun) as (Hle & Hmax & _ & Hreads & Hend).
  assert (attemptsCounter h' = attemptsCounter h) as Hcounter by lia.
  assert (relayState h' = None) as Hstate.
  { revert Hrun. rewrite runTest_unfold. unfold bind at 1.
    destruct ((if negb (QueryLogs.truthy messageIdentifier)
               then getMessageIdentifier world fuel else ret messageIdentifier) h)
      as [h0 e0] eqn:Hidentifier.
    assert (sameStore h h0) as (Hstate0 & Hcounter0 & _).
    { destruct (negb (QueryLogs.truthy messageIdentifier)).
      - by eapply getMessageIdentifier_sameStore.
      - by injection Hidentifier as <- _. }
    destruct e0 as [identifier | message |].
    2,3: intros [= <- <-]; congruence.
    unfold bind at 1.
    destruct (RelayTests.queryLogs world fuel eventType None identifier h0)
      as [h1 e1] eqn:Hquery.
    apply queryLogs_sameStore in Hquery as [(Hstate1 & Hcounter1 & _) _].
    destruct e1 as [[log |] | message |].
    2,3,4: intros [= <- <-]; congruence.
    rewrite checked_idle by (left; lia).
    intros (-> & _)%expectRelayState_run. congruence. }
  split_and!; [| by apply Hreads | done | done].
  intros Hending. destruct (Hend Hending) as (_ & state & Hsome & _). congruence.
Qed.

Lemma runTest_idle eventType expected transactOpts (messageIdentifier : string)
    h h' ending :
  messageIdentifier ≠ "" ->
  ATTEMPTS_MAXIMUM world <= attemptsCounter h
  ∨ notYetFound (relayState h) (Some messageIdentifier) = false ->
  runTest world fuel eventType expected transactOpts (Some messageIdentifier) h
  = (h', ending) ->
  sameStore h h' ∧
  (ending = Returns tt ->
   ∃ state, relayState h = Some state ∧ toMatchObject state expected = true).
Proof.
  intros Hidentifier Hidle. rewrite runTest_given by done. unfold bind.
  destruct (RelayTests.queryLogs world fuel eventType None (Some messageIdentifier) h)
    as [h0 e0] eqn:Hquery.
  apply queryLogs_sameStore in Hquery as [(Hstate0 & Hcounter0 & Hreads0) _].
  destruct e0 as [[log |] | message |].
  2,3,4: by intros [= <- <-].
  rewrite checked_idle by (by rewrite Hstate0, Hcounter0).
  intros (-> & _ & Hreturns)%expectRelayState_run.
  split; [done |]. rewrite <- Hstate0. apply Hreturns.
Qed.

Lemma flowEvents_idle (events : list string) (messageIdentifier : string) h h' ending :
  messageIdentifier ≠ "" ->
  ATTEMPTS_MAXIMUM world <= attemptsCounter h
  ∨ notYetFound (relayState h) (Some messageIdentifier) = false ->
  flowEvents world fuel events (Some messageIdentifier) h = (h', ending) ->
  sameStore h h' ∧
  (ending = Returns tt ->
   ∀ event, event ∈ events ->
     ∃ state, relayState h = Some state ∧
              toMatchObject state (flowStructure event) = true).
Proof.
  intros Hidentifier. revert h.
  induction events as [| first rest IH]; intros h Hidle; cbn [flowEvents].
  - intros [= <- <-]. split; [done |]. intros _ event Hin. by apply elem_of_nil in Hin.
  - unfold bind.
    destruct (runTest world fuel first (flowStructure first) validTransactOpts
                (Some messageIdentifier) h) as [h0 e0] eqn:Hfirst.
    apply runTest_idle in Hfirst as [Hsame Hmatch]; [| done | done].
    destruct e0 as [[] | message |].
    2,3: by intros [= <- <-].
    intros Hrest. apply IH in Hrest as [Hsame' Hrest].
    + split; [by eapply sameStore_trans |].
      intros Hending event [-> | Hin]%elem_of_cons; [by apply Hmatch |].
      destruct Hsame as (Hstate & _). rewrite <- Hstate. by apply Hrest.
    + destruct Hsame as (-> & -> & _). done.
Qed.

Lemma flowStructure_key (state : State) (event : string) :
  toMatchObject state (flowStructure event) = true ->
  ∃ props, getProp state (toLowerCase event +:+ "Event") = VObject props.
Proof.
  unfold toMatchObject, flowStructure. cbn [matches].
  destruct (getProp state (toLowerCase event +:+ "Event")) as [| | | | | props];
    intros Hmatch; [| | | | | by exists props];
    repeat (rewrite andb_false_r in Hmatch || rewrite andb_false_l in Hmatch);
    done.
Qed.

(** X15: [processFlowWithEvents] reads the store for its first event only.
    Once [runTest] has returned for the first event of a flow, the calls for
    the later events make no read and leave [relayState] as it is, so every
    event of the flow is checked against the one state read for the first:
    if the flow passes, that state has, for each event of the flow, a
    property named by the lower-cased event name followed by [Event] (for
    [BountyClaimed], [bountyclaimedEvent]) whose value is an object. *)
Theorem processFlowWithEvents_reads_once (first : string) (rest : list string)
    (messageIdentifier : string) (h h0 h1 : Harness) :
  getMessageIdentifier world fuel h = (h0, Returns (Some messageIdentifier)) ->
  messageIdentifier ≠ "" ->
  runTest world fuel first (flowStructure first) validTransactOpts
    (Some messageIdentifier) h0 = (h1, Returns tt) ->
  let result := processFlowWithEvents world fuel (first :: rest) h in
  reads result.1 = reads h1 ∧ relayState result.1 = relayState h1 ∧
  attemptsCounter result.1 = attemptsCounter h1 ∧
  (result.2 = Returns tt ->
   ∃ state,
     relayState h1 = Some state ∧
     ∀ event, event ∈ first :: rest ->
       toMatchObject state (flowStructure event) = true ∧
       ∃ props, getProp state (toLowerCase event +:+ "Event") = VObject props).
Proof.
  intros Hidentifier Htruthy Hfirst result. subst result.
  assert (processFlowWithEvents world fuel (first :: rest) h
          = flowEvents world fuel rest (Some messageIdentifier) h1) as ->.
  { unfold processFlowWithEvents, bind. rewrite Hidentifier.
    cbn [flowEvents]. unfold bind. by rewrite Hfirst. }
  destruct (flowEvents world fuel rest (Some messageIdentifier) h1)
    as [h' ending] eqn:Hrest.
  cbn [fst snd].
  assert (ATTEMPTS_MAXIMUM world <= attemptsCounter h1
          ∨ notYetFound (relayState h1) (Some messageIdentifier) = false) as Hidle.
  { revert Hfirst. rewrite runTest_given by done. unfold bind.
    destruct (RelayTests.queryLogs world fuel first None (Some messageIdentifier) h0)
      as [h2 [[log |] | message |]]; [| done | done | done].
    intros Hchecked. by apply checked_run in Hchecked as (_ & _ & _ & _ & _ & Hend);
      destruct (Hend eq_refl) as (_ & Hguard & _). }
  destruct (runTest_run _ _ _ _ _ _ _ Hfirst) as (_ & _ & _ & _ & Hend).
  destruct (Hend eq_refl) as (_ & state & Hstate & Hmatch).
  apply flowEvents_idle in Hrest as [(Hstate' & Hcounter' & Hreads') Hall];
    [| done | done].
  split_and!; [done | done | done |].
  intros Hending. exists state. split; [done |].
  intros event [-> | Hin]%elem_of_cons.
  - split; [done | by apply flowStructure_key].
  - destruct (Hall Hending event Hin) as (state' & Hstate'' & Hmatch').
    assert (state' = state) as -> by congruence.
    split; [done | by apply flowStructure_key].
Qed.

(** X16: [checkRelayState] called without an expected state, as
    [processMultipleEvents] calls it, never looks into the state it finds.
    It ends in one of three ways: it returns, and then [relayState] is some
    object, whether or not its [messageIdentifier] is the one asked for; it
    throws `Exceeded maximum attempts', with [relayState] null; or it throws
    the error of a rejected store read.  Its attempts are its own: it reads
    the store at most [ATTEMPTS_MAXIMUM] times, plus one rejected read, and
    leaves the module-level counter alone. *)
Theorem checkRelayState_default (messageIdentifier : option string) (h : Harness) :
  let result := checkRelayState world messageIdentifier [] h in
  let h' := result.1 in
  attemptsCounter h' = attemptsCounter h ∧
  Z.of_nat (reads h') <= Z.of_nat (reads h) + Z.max 0 (ATTEMPTS_MAXIMUM world) + 1 ∧
  ((result.2 = Returns tt ∧ is_Some (relayState h') ∧
    Z.of_nat (reads h') <= Z.of_nat (reads h) + Z.max 0 (ATTEMPTS_MAXIMUM world))
   ∨ (result.2
      = Throws ("Exceeded maximum attempts or event not found for messageIdentifier "
                +:+ (messageIdentifier ?? "undefined")) ∧
      relayState h' = None)
   ∨ (∃ message,
        result.2 = Throws message ∧
        getRelayStateByKey world (stateKey messageIdentifier) (reads h' - 1)
        = Throw message)).
Proof.
  intros result h'. subst h' result. unfold checkRelayState.
  destruct (pollLoop world (turnsLeft world 0) messageIdentifier 0 h)
    as [[h0 attempts] ending] eqn:Hloop.
  destruct (pollLoop_run _ _ _ _ _ _ _ (le_n _) Hloop)
    as (Hhangs & Hle & Hmax & _ & _ & Hcounter & Hreads & _ & _).
  destruct ending as [[] | message |]; [| | done].
  - unfold expectRelayState.
    destruct (relayState h0) as [state |] eqn:Hstate; cbn [fst snd toMatchObject matches].
    + split_and!; [done | lia |]. left. rewrite Hstate. split_and!; [done | done | lia].
    + split_and!; [done | lia |]. right. left. done.
  - cbn [fst snd]. split_and!; [done | lia |]. right. right. exists message.
    split; [done |].
    clear Hhangs Hle Hmax Hcounter Hreads. revert Hloop.
    generalize (turnsLeft world 0). generalize 0. intros attempts0 turns.
    revert attempts0 h. induction turns as [| turns IH]; intros attempts0 h; cbn [pollLoop].
    + by destruct (_ && _).
    + destruct (_ && _); [| done].
      destruct (getRelayStateByKey world (stateKey messageIdentifier) (reads h))
        as [state | thrown] eqn:Hread.
      * apply IH.
      * intros [= <- <- <-]. cbn [reads]. by rewrite Nat.sub_1_r.
Qed.

End RelayTestsProperties.

(** ** submitter-wallet.test.ts *)

Section SubmitterWalletProperties.
Import RelayTests SubmitterWalletTests.

Variable world : World.
Variable queryLogs : string -> string -> string -> nat -> Ending (option QueryLogs.Log).
Variable validTransactOpts : Transaction.

Lemma pollLoop_found turns messageIdentifier h :
  is_Some (relayState h) ->
  pollLoop world turns messageIdentifier h = (h, Returns tt).
Proof.
  intros [state Hstate].
  assert (bool_decide (relayState h = None) = false) as Hguard
    by (apply bool_decide_eq_false; congruence).
  destruct turns; cbn [pollLoop]; by rewrite Hguard, andb_false_r.
Qed.

(** With a relay state already there, [runTest] makes its transaction and
    looks at nothing new. *)
Lemma runTest_found expected h h' ending :
  is_Some (relayState h) ->
  runTest world queryLogs validTransactOpts expected h = (h', ending) ->
  sameStore h h' ∧
  (ending = Returns tt -> swaps h' = S (swaps h)).
Proof.
  intros Hfound. unfold runTest, bind at 1.
  destruct (swap world validTransactOpts h) as [h0 e0] eqn:Hswap.
  pose proof (swap_sameStore _ _ _ _ _ Hswap) as (Hstate0 & Hcounter0 & Hreads0).
  apply swap_swaps in Hswap.
  destruct e0 as [blockHash | message |].
  2,3: by intros [= <- <-].
  destruct (negb (QueryLogs.truthy blockHash)); [by intros [= <- <-] |].
  destruct (QueryLogs.getEvent _ _) as [topicHash |]; [| by intros [= <- <-]].
  unfold bind at 1, callQueryLogs.
  destruct (queryLogs _ _ _ _) as [[log |] | message |].
  2,3,4: by intros [= <- <-].
  unfold bind at 1.
  destruct (liftC _ _) as [h1 e1] eqn:Hparse. apply liftC_same in Hparse as ->.
  destruct e1 as [messageIdentifier | message |].
  2,3: by intros [= <- <-].
  unfold bind, awaitRelayState. rewrite pollLoop_found by (cbn; by rewrite Hstate0).
  intros (-> & _)%expectRelayState_run. done.
Qed.

Lemma runTests_found n expected h h' ending :
  is_Some (relayState h) ->
  runTests world queryLogs validTransactOpts n expected h = (h', ending) ->
  sameStore h h' ∧
  (ending = Returns tt -> swaps h' = (swaps h + n)%nat).
Proof.
  revert h. induction n as [| n IH]; intros h Hfound; cbn [runTests].
  - intros [= <- <-]. split; [done | lia].
  - unfold bind.
    destruct (runTest world queryLogs validTransactOpts expected h) as [h0 e0] eqn:Hfirst.
    apply runTest_found in Hfirst as [Hsame Hswaps]; [| done].
    destruct e0 as [[] | message |].
    2,3: by intros [= <- <-].
    intros Hrest. apply IH in Hrest as [Hsame' Hswaps'].
    + split; [by eapply sameStore_trans |].
      intros Hending. rewrite (Hswaps' Hending), (Hswaps eq_refl). lia.
    + destruct Hsame as (-> & _). done.
Qed.

(** X17: in submitter-wallet.test.ts only the first transaction of a test is
    looked up.  Once [runTest] has returned, the relay state it found stays
    in [relayState], and every further [runTest] of the same test makes its
    transaction, finds its log, and then neither reads the store nor changes
    [relayState]: it checks the state of the first transaction again.  So
    `should process and store RelayState for multiple transactions' makes
    three transactions and verifies the relay state of one. *)
Theorem later_transactions_unchecked (n : nat) (expectedStructure : Expected)
    (h h1 : Harness) :
  runTest world queryLogs validTransactOpts expectedStructure h = (h1, Returns tt) ->
  let result := runTests world queryLogs validTransactOpts (S n) expectedStructure h in
  reads result.1 = reads h1 ∧ relayState result.1 = relayState h1 ∧
  attemptsCounter result.1 = attemptsCounter h1 ∧
  (∃ state, relayState h1 = Some state ∧
            toMatchObject state expectedStructure = true) ∧
  (result.2 = Returns tt -> swaps result.1 = (swaps h1 + n)%nat).
Proof.
  intros Hfirst result. subst result.
  assert (∃ state, relayState h1 = Some state
                   ∧ toMatchObject state expectedStructure = true) as Hstate.
  { revert Hfirst. unfold runTest, bind at 1.
    destruct (swap world validTransactOpts h) as [h0 [blockHash | message |]];
      [| done | done].
    destruct (negb (QueryLogs.truthy blockHash)); [done |].
    destruct (QueryLogs.getEvent _ _) as [topicHash |]; [| done].
    unfold bind at 1, callQueryLogs.
    destruct (queryLogs _ _ _ _) as [[log |] | message |]; [| done | done | done].
    unfold bind at 1.
    destruct (liftC _ _) as [h2 [messageIdentifier | message |]]; [| done | done].
    unfold bind.
    destruct (awaitRelayState world messageIdentifier h2) as [h3 [[] | message |]];
      [| done | done].
    intros (-> & _ & Hreturns)%expectRelayState_run. by apply Hreturns. }
  assert (runTests world queryLogs validTransactOpts (S n) expectedStructure h
          = runTests world queryLogs validTransactOpts n expectedStructure h1) as ->.
  { cbn [runTests]. unfold bind. by rewrite Hfirst. }
  destruct (runTests world queryLogs validTransactOpts n expectedStructure h1)
    as [h' ending] eqn:Hrest.
  destruct Hstate as (state & Hstate & Hmatch).
  apply runTests_found in Hrest as [(Hstate' & Hcounter' & Hreads') Hswaps];
    [| by rewrite Hstate].
  cbn [fst snd]. split_and!; [done | done | done | by exists state | done].
Qed.

End SubmitterWalletProperties.

(** ** The BountyIncreased tests *)

Section BountyIncreasedProperties.
Import RelayTests BountyIncreasedTests.

Variable world : World.
Variable fuel : nat.
Variable increaseBounty : option string -> nat -> Completion unit.
Variable newDeliveryGasPrice : QueryLogs.Log -> option Z.

(** [queryLogs] with neither a block hash nor a message identifier gives no
    log and polls nothing. *)
Lemma queryLogs_neither eventName h :
  ∃ ending,
    RelayTests.queryLogs world fuel eventName None None h
    = ({| relayState := relayState h; attemptsCounter := attemptsCounter h;
          swaps := swaps h; polled := polled h; reads := reads h;
          waited := waited h |}, ending) ∧
    ending ∈ [Returns None; Throws QueryLogs.RETRY_INTERVAL_UNDEFINED;
              Throws QueryLogs.NO_SUCH_EVENT].
Proof.
  unfold RelayTests.queryLogs, QueryLogs.queryLogs.
  destruct (retryInterval world) as [interval |]; cbn.
  - destruct (QueryLogs.getEvent _ _) as [eventTopic |]; cbn.
    + eexists. rewrite Nat.add_0_r. split; [done | left].
    + eexists. rewrite Nat.add_0_r. split; [done | right; right; left].
  - eexists. rewrite Nat.add_0_r. split; [done | right; left].
Qed.

Lemma verifyIncreased_throws messageIdentifier rest h :
  let result :=
    verifyIncreased world fuel newDeliveryGasPrice (messageIdentifier :: rest) h in
  result.2 ∈ [Throws "BountyIncreased event not found";
              Throws QueryLogs.RETRY_INTERVAL_UNDEFINED;
              Throws QueryLogs.NO_SUCH_EVENT]
  ∧ polled result.1 = polled h ∧ reads result.1 = reads h.
Proof.
  intros result. subst result. cbn [verifyIncreased]. unfold bind.
  destruct (queryLogs_neither "BountyIncreased" h) as (ending & -> & Hending).
  apply elem_of_cons in Hending as [-> | Hending]; [by split_and!; [left | |] |].
  apply elem_of_cons in Hending as [-> | Hending];
    [by split_and!; [right; left | |] |].
  apply list_elem_of_singleton in Hending as ->.
  by split_and!; [right; right; left | |].
Qed.

Lemma placeAndIncrease_length n i messageIdentifiers h h' collected :
  placeAndIncrease world fuel increaseBounty n i messageIdentifiers h
  = (h', Returns collected) ->
  length collected = (length messageIdentifiers + n)%nat.
Proof.
  revert i messageIdentifiers h.
  induction n as [| n IH]; intros i messageIdentifiers h; cbn [placeAndIncrease].
  - intros [= <- <-]. lia.
  - intros (h0 & messageIdentifier & _ & Hrest)%bind_Returns.
    apply bind_Returns in Hrest as (h1 & [] & _ & Hrest).
    apply IH in Hrest. rewrite length_app in Hrest. cbn in Hrest. lia.
Qed.

(** X18: the test `should handle multiple BountyIncreased events correctly'
    cannot pass.  Its second loop calls [queryLogs] without a block hash and
    without a message identifier, which gives no log: the test ends by
    throwing, or hangs in an earlier [queryLogs]; and once the three bounties
    have been placed and increased, it throws `BountyIncreased event not
    found' (or the error of a missing retry interval or event) at the first
    message, without polling the provider. *)
Theorem multipleBountyIncreased_never_passes (h : Harness) :
  let result := multipleBountyIncreased world fuel increaseBounty newDeliveryGasPrice h in
  (result.2 = Hangs ∨ ∃ message, result.2 = Throws message) ∧
  ∀ h1 messageIdentifiers,
    placeAndIncrease world fuel increaseBounty 3 0 [] h
    = (h1, Returns messageIdentifiers) ->
    result.2 ∈ [Throws "BountyIncreased event not found";
                Throws QueryLogs.RETRY_INTERVAL_UNDEFINED;
                Throws QueryLogs.NO_SUCH_EVENT]
    ∧ polled result.1 = polled h1 ∧ reads result.1 = reads h1.
Proof.
  intros result. subst result. unfold multipleBountyIncreased.
  assert (∀ h1 messageIdentifiers,
            placeAndIncrease world fuel increaseBounty 3 0 [] h
            = (h1, Returns messageIdentifiers) ->
            (bind (placeAndIncrease world fuel increaseBounty 3 0 [])
                  (verifyIncreased world fuel newDeliveryGasPrice) h).2
            ∈ [Throws "BountyIncreased event not found";
               Throws QueryLogs.RETRY_INTERVAL_UNDEFINED;
               Throws QueryLogs.NO_SUCH_EVENT]
            ∧ polled (bind (placeAndIncrease world fuel increaseBounty 3 0 [])
                           (verifyIncreased world fuel newDeliveryGasPrice) h).1
              = polled h1
            ∧ reads (bind (placeAndIncrease world fuel increaseBounty 3 0 [])
                          (verifyIncreased world fuel newDeliveryGasPrice) h).1
              = reads h1) as Hplaced.
  { intros h1 messageIdentifiers Hfirst. unfold bind. rewrite Hfirst.
    apply placeAndIncrease_length in Hfirst.
    destruct messageIdentifiers as [| messageIdentifier rest]; [done |].
    apply verifyIncreased_throws. }
  split; [| exact Hplaced].
  destruct (placeAndIncrease world fuel increaseBounty 3 0 [] h)
    as [h1 [messageIdentifiers | message |]] eqn:Hfirst.
  - destruct (Hplaced h1 messageIdentifiers eq_refl) as (Hending & _).
    right. unfold bind in *. rewrite Hfirst in *.
    repeat (apply elem_of_cons in Hending as [-> | Hending]; [by eexists |]).
    by apply elem_of_nil in Hending.
  - right. unfold bind. rewrite Hfirst. by eexists.
  - left. unfold bind. by rewrite Hfirst.
Qed.

End BountyIncreasedProperties.

(** ** getter.test.ts *)

Section GetterTestProperties.
Import RelayTests GetterTests.

Variable env : string -> option string.
Variable parseInt : string -> option Z.
Variable incentiveAddress : string.
Variable incentivesEscrowInterface : QueryLogs.EscrowInterface.
Variable performSwap : nat -> Completion (option string).
Variable queryLogs : string -> string -> string -> Ending (option QueryLogs.Log).
Variable getRelayStateByKey : string -> nat -> Completion (option State).

Lemma retrieveBountyPlaced_run (h h' : Harness) (ending : Ending unit) :
  ATTEMPTS_MAXIMUM env parseInt = None ->
  relayState h = None ->
  retrieveBountyPlaced env parseInt incentiveAddress incentivesEscrowInterface
    performSwap queryLogs getRelayStateByKey h = (h', ending) ->
  (ending = Hangs ∨ ∃ message, ending = Throws message) ∧
  reads h' = reads h ∧ relayState h' = None ∧
  (∀ blockHash topicHash log messageIdentifier,
     performSwap (swaps h) = Normal (Some blockHash) -> blockHash ≠ "" ->
     QueryLogs.getEvent incentivesEscrowInterface "BountyPlaced" = Some topicHash ->
     queryLogs incentiveAddress topicHash blockHash = Returns (Some log) ->
     QueryLogs.parseLog incentivesEscrowInterface log = Normal (Some messageIdentifier) ->
     ending = Throws "Exceeded maximum attempts or bounty not found").
Proof.
  intros Hmaximum Hnone.
  assert (Hloop : ∀ turns messageIdentifier h0,
             pollLoop env parseInt getRelayStateByKey turns messageIdentifier h0
             = (h0, Returns tt)).
  { intros turns messageIdentifier h0.
    destruct turns; cbn [pollLoop]; unfold belowMaximum; by rewrite Hmaximum. }
  unfold retrieveBountyPlaced, bind, liftC.
  destruct (performSwap (swaps h)) as [blockHash | message] eqn:Hswap.
  2: { intros [= <- <-]. split_and!; [right; by eexists | done | done | done]. }
  destruct (QueryLogs.truthy blockHash) eqn:Htruthy; cbn [negb].
  2: { intros [= <- <-]. split_and!; [right; by eexists | done | done |].
       intros ? ? ? ? [= ->] Hhash. by rewrite truthy_Some in Htruthy. }
  destruct (QueryLogs.getEvent incentivesEscrowInterface "BountyPlaced")
    as [topicHash |] eqn:Hevent.
  2: { intros [= <- <-]. split_and!; [right; by eexists | done | done | done]. }
  destruct (queryLogs incentiveAddress topicHash (blockHash ?? ""))
    as [[log |] | message |] eqn:Hquery.
  2,3,4: intros [= <- <-];
         (split_and!; [by (left + (right; eexists)) | done | done |]);
         intros ? ? ? ? [= ->] _ [= <-] Hlog; cbn in Hquery; congruence.
  destruct (QueryLogs.parseLog incentivesEscrowInterface log)
    as [[messageIdentifier |] | message] eqn:Hparse.
  2,3: intros [= <- <-]; (split_and!; [right; by eexists | done | done |]);
       intros ? ? ? ? [= ->] _ [= <-] Hlog; cbn in Hquery; congruence.
  rewrite Hloop. unfold expectRelayState. cbn [relayState]. rewrite Hnone.
  intros [= <- <-]. split_and!; [right; by eexists | done | done | done].
Qed.

(** X19: the getter test depends on its environment.  When
    [ATTEMPTS_MAXIMUM] is not set, is empty or is not a number, the test
    cannot pass: the polling loop does not run, so the store is never read,
    and with the swap made, its log found and parsed, the test throws
    `Exceeded maximum attempts or bounty not found' whatever the store
    holds. *)
Theorem retrieveBountyPlaced_needs_maximum (h : Harness) :
  ATTEMPTS_MAXIMUM env parseInt = None ->
  relayState h = None ->
  let result :=
    retrieveBountyPlaced env parseInt incentiveAddress incentivesEscrowInterface
      performSwap queryLogs getRelayStateByKey h in
  (result.2 = Hangs ∨ ∃ message, result.2 = Throws message) ∧
  reads result.1 = reads h ∧ relayState result.1 = None ∧
  (∀ blockHash topicHash log messageIdentifier,
     performSwap (swaps h) = Normal (Some blockHash) -> blockHash ≠ "" ->
     QueryLogs.getEvent incentivesEscrowInterface "BountyPlaced" = Some topicHash ->
     queryLogs incentiveAddress topicHash blockHash = Returns (Some log) ->
     QueryLogs.parseLog incentivesEscrowInterface log = Normal (Some messageIdentifier) ->
     result.2 = Throws "Exceeded maximum attempts or bounty not found").
Proof.
  intros Hmaximum Hnone result. subst result.
  destruct (retrieveBountyPlaced env parseInt incentiveAddress
              incentivesEscrowInterface performSwap queryLogs getRelayStateByKey h)
    as [h' ending] eqn:Hrun.
  exact (retrieveBountyPlaced_run h h' ending Hmaximum Hnone Hrun).
Qed.

End GetterTestProperties.

(** ** The further properties, on the concrete inputs *)

Lemma bountyToDTO_lossless_witness :
  let rebuilt :=
    {| BountyDto.messageIdentifier := "0x" +:+ "tx";
       BountyDto.maxGasDelivery := 2 * 1000000; BountyDto.maxGasAck := 2 * 1000000;
       BountyDto.refundGasTo := "0xf39Fd6e51aad88F6F4ce6aB8827279cffFb92266";
       BountyDto.priceOfDeliveryGas := 50 * 10 ^ 9;
       BountyDto.priceOfAckGas := 50 * 10 ^ 9;
       BountyDto.targetDelta := 0;
       BountyDto.status := BountyDto.MessageDelivered |} in
  BountyDto.bountyToDTO Examples.bounty = BountyDto.bountyToDTO rebuilt
  ∧ Examples.bounty = rebuilt.
Proof.
  cbv zeta. split; [vm_compute; reflexivity |].
  apply bountyToDTO_lossless. vm_compute. reflexivity.
Defined.

Lemma kept_worker_data_witness :
  ∃ chainConfig,
    chainConfig ∈ Config.chainsConfig Examples.twoChains ∧
    Config.chainId chainConfig = "1" ∧
    Polymer.wd_chainId Examples.workerOfChain1 = "1" ∧
    Polymer.wd_rpc Examples.workerOfChain1 = Config.rpc chainConfig ∧
    Polymer.wd_startingBlock Examples.workerOfChain1 = Config.startingBlock chainConfig ∧
    Polymer.wd_stoppingBlock Examples.workerOfChain1 = Config.stoppingBlock chainConfig ∧
    Config.getAMBConfig Examples.twoChains "polymer" "incentivesAddress" "1"
      = Some (Polymer.wd_incentivesAddress Examples.workerOfChain1) ∧
    Config.getAMBConfig Examples.twoChains "polymer" "bridgeAddress" "1"
      = Some (Polymer.wd_polymerAddress Examples.workerOfChain1) ∧
    Polymer.wd_blockDelay Examples.workerOfChain1
      = Config.chain_blockDelay chainConfig
          ?? (Config.global_blockDelay (Config.globalConfig Examples.twoChains) ?? 0) ∧
    Polymer.wd_interval Examples.workerOfChain1
      = Config.cfg_interval (Config.getter chainConfig)
          ?? (Config.cfg_interval
                (Config.global_getter (Config.globalConfig Examples.twoChains))
              ?? 5000) ∧
    Polymer.wd_maxBlocks Examples.workerOfChain1
      = nullishOpt (Config.cfg_maxBlocks (Config.getter chainConfig))
          (nullishOpt
             (Config.cfg_maxBlocks
                (Config.global_getter (Config.globalConfig Examples.twoChains)))
             None) ∧
    Polymer.wd_loggerOptions Examples.workerOfChain1
      = Config.loggerOptions Examples.logger.
Proof.
  apply (kept_worker_data 0 5000 None Examples.twoChains Examples.logger
           Examples.workersOfTwoChains "1" Examples.workerOfChain1).
  - eapply Polymer.reach_init. vm_compute. reflexivity.
  - vm_compute. reflexivity.
Defined.

Lemma queryLogs_by_identifier_never_rejects_witness :
  let run :=
    QueryLogs.queryLogs (Some 2000) Examples.slowProvider 5 "0xE1"
      Examples.escrowInterface "BountyPlaced" None (Some "0xtx") in
  (QueryLogs.outcome run = QueryLogs.Polling ∧ QueryLogs.polls run = 5%nat ∧
   QueryLogs.waits run = replicate 5 2000)
  ∨ (∃ n log logs,
       (n < 5)%nat ∧ QueryLogs.outcome run = QueryLogs.Resolved (Some log) ∧
       QueryLogs.polls run = S n ∧ QueryLogs.waits run = replicate n 2000 ∧
       Examples.slowProvider (QueryLogsScan.eventFilter "0xE1" "0xtopicPlaced") n
         = Normal logs ∧
       log ∈ logs ∧
       QueryLogs.parseLog Examples.escrowInterface log = Normal (Some "0xtx")).
Proof.
  apply (queryLogs_by_identifier_never_rejects Examples.slowProvider 2000
           Examples.escrowInterface "0xtx" "0xE1" "BountyPlaced" "0xtopicPlaced"
           None 5).
  - reflexivity.
  - reflexivity.
  - discriminate.
Defined.

Lemma queryLogs_by_identifier_result_witness :
  let run fuel :=
    QueryLogs.queryLogs (Some 2000) Examples.slowProvider fuel "0xE1"
      Examples.escrowInterface "BountyPlaced" (Some "") (Some "0xtx") in
  let finds n found :=
    ∃ before after,
      Examples.slowProvider (QueryLogsScan.eventFilter "0xE1" "0xtopicPlaced") n
        = Normal (before ++ found :: after) ∧
      QueryLogs.parseLog Examples.escrowInterface found = Normal (Some "0xtx") ∧
      ∀ other, other ∈ before ->
        ∃ parsed, QueryLogs.parseLog Examples.escrowInterface other = Normal parsed ∧
                  parsed ≠ Some "0xtx" in
  QueryLogs.outcome (run 3%nat) = QueryLogs.Resolved (Some Examples.placedLog) ∧
  ((∃ fuel, QueryLogs.outcome (run fuel) = QueryLogs.Resolved (Some Examples.placedLog))
   ↔ ∃ n, finds n Examples.placedLog ∧ ∀ k other, (k < n)%nat -> ¬ finds k other).
Proof.
  cbv zeta. split; [vm_compute; reflexivity |].
  apply (queryLogs_by_identifier_result Examples.slowProvider 2000
           Examples.escrowInterface "0xtx" "0xE1" "BountyPlaced" "0xtopicPlaced"
           (Some "") Examples.placedLog).
  - reflexivity.
  - reflexivity.
  - discriminate.
Defined.

Lemma queryLogs_by_block_run_witness :
  let run :=
    QueryLogs.queryLogs (Some 2000) Examples.slowProvider 5 "0xE1"
      Examples.escrowInterface "BountyPlaced" (Some "0xblock") (Some "0xother") in
  let filter := QueryLogs.blockFilter "0xE1" "0xtopicPlaced" "0xblock" in
  run = QueryLogs.queryLogs (Some 2000) Examples.slowProvider 5 "0xE1"
          Examples.escrowInterface "BountyPlaced" (Some "0xblock") None
  ∧ ((QueryLogs.outcome run = QueryLogs.Polling ∧ QueryLogs.polls run = 5%nat ∧
      QueryLogs.waits run = replicate 5 2000)
     ∨ (∃ n, (n < 5)%nat ∧ QueryLogs.polls run = S n ∧
             QueryLogs.waits run = replicate n 2000 ∧
             ((∃ log rest, QueryLogs.outcome run = QueryLogs.Resolved (Some log) ∧
                           Examples.slowProvider filter n = Normal (log :: rest))
              ∨ (∃ message, QueryLogs.outcome run = QueryLogs.Rejected message ∧
                            Examples.slowProvider filter n = Throw message)))).
Proof.
  apply (queryLogs_by_block_run Examples.slowProvider 2000 "0xE1" "BountyPlaced"
           "0xtopicPlaced" "0xblock" Examples.escrowInterface (Some "0xother") 5).
  - reflexivity.
  - discriminate.
Defined.

Lemma globalTeardown_reports_missing_file_witness :
  JestTeardown.unlink Examples.cleanedByHand JestTeardown.CONFIG_FILE
    = JestTeardown.Raise (JestTeardown.ErrorObject "ENOENT" "no such file or directory")
  ∧ [JestTeardown.Text "Failed to delete config.test.yaml:";
     JestTeardown.Caught (JestTeardown.ErrorObject "ENOENT" "no such file or directory")]
    ∈ JestTeardown.failures
        (JestTeardown.globalTeardown JestTeardown.PKILL_PNPM Examples.cleanedByHand).
Proof.
  split; [reflexivity |].
  apply (globalTeardown_reports_missing_file JestTeardown.PKILL_PNPM
           Examples.cleanedByHand ["101"; "102"] JestTeardown.CONFIG_FILE
           "config.test.yaml" "ENOENT" "no such file or directory").
  - reflexivity.
  - reflexivity.
  - right. left.
  - reflexivity.
Defined.

Lemma runTest_after_exhaustion_witness :
  let result :=
    RelayTests.runTest Examples.relayWorld 5 "BountyClaimed"
      (RelayTests.flowStructure "BountyClaimed") RelayTests.validTransactOpts None
      Examples.exhausted in
  RelayTests.getRelayStateByKey Examples.relayWorld "relay_state:0xtx" 3
    = Normal (Some Examples.flowState)
  ∧ result.2 ≠ RelayTests.Returns tt
  ∧ RelayTests.reads result.1 = RelayTests.reads Examples.exhausted
  ∧ RelayTests.relayState result.1 = None
  ∧ RelayTests.attemptsCounter result.1 = RelayTests.attemptsCounter Examples.exhausted.
Proof.
  cbv zeta. split; [reflexivity |].
  apply (runTest_after_exhaustion Examples.relayWorld 5 "BountyClaimed"
           (RelayTests.flowStructure "BountyClaimed") RelayTests.validTransactOpts None
           Examples.exhausted).
  - vm_compute. discriminate.
  - reflexivity.
Defined.

Lemma processFlowWithEvents_reads_once_witness :
  let result :=
    RelayTests.processFlowWithEvents Examples.relayWorld 5
      ["BountyClaimed"; "BountyClaimed"] RelayTests.beforeEach in
  result.2 = RelayTests.Returns tt
  ∧ RelayTests.reads result.1 = 2%nat
  ∧ RelayTests.relayState result.1 = Some Examples.flowState
  ∧ RelayTests.attemptsCounter result.1 = 2
  ∧ (result.2 = RelayTests.Returns tt ->
     ∃ state,
       Some Examples.flowState = Some state ∧
       ∀ event, event ∈ ["BountyClaimed"; "BountyClaimed"] ->
         RelayTests.toMatchObject state (RelayTests.flowStructure event) = true ∧
         ∃ props,
           RelayTests.getProp state (RelayTests.toLowerCase event +:+ "Event")
           = RelayTests.VObject props).
Proof.
  cbv zeta. split; [vm_compute; reflexivity |].
  refine (processFlowWithEvents_reads_once Examples.relayWorld 5 "BountyClaimed"
            ["BountyClaimed"] "0xtx" RelayTests.beforeEach
            {| RelayTests.relayState := None; RelayTests.attemptsCounter := 0;
               RelayTests.swaps := 1; RelayTests.polled := 1; RelayTests.reads := 0;
               RelayTests.waited := [] |}
            {| RelayTests.relayState := Some Examples.flowState;
               RelayTests.attemptsCounter := 2;
               RelayTests.swaps := 1; RelayTests.polled := 2; RelayTests.reads := 2;
               RelayTests.waited := [1000] |} _ _ _).
  - vm_compute. reflexivity.
  - discriminate.
  - vm_compute. reflexivity.
Defined.

Lemma later_transactions_unchecked_witness :
  let result :=
    SubmitterWalletTests.runTests Examples.walletWorld Examples.logAtOnce
      RelayTests.validTransactOpts 3 Examples.deliveredStructure
      RelayTests.beforeEach in
  result.2 = RelayTests.Returns tt
  ∧ RelayTests.reads result.1 = 2%nat
  ∧ RelayTests.relayState result.1 = Some Examples.deliveredState
  ∧ RelayTests.attemptsCounter result.1 = 2
  ∧ (∃ state,
       Some Examples.deliveredState = Some state ∧
       RelayTests.toMatchObject state Examples.deliveredStructure = true)
  ∧ (result.2 = RelayTests.Returns tt -> RelayTests.swaps result.1 = (1 + 2)%nat).
Proof.
  cbv zeta. split; [vm_compute; reflexivity |].
  refine (later_transactions_unchecked Examples.walletWorld Examples.logAtOnce
            RelayTests.validTransactOpts 2 Examples.deliveredStructure
            RelayTests.beforeEach
            {| RelayTests.relayState := Some Examples.deliveredState;
               RelayTests.attemptsCounter := 2;
               RelayTests.swaps := 1; RelayTests.polled := 1; RelayTests.reads := 2;
               RelayTests.waited := [1000] |} _).
  vm_compute. reflexivity.
Defined.

Lemma retrieveBountyPlaced_needs_maximum_witness :
  let result :=
    GetterTests.retrieveBountyPlaced Examples.emptyEnv Examples.parseThree "0xE1"
      Examples.escrowInterface (fun _ => Normal (Some "0xblock"))
      Examples.logOfBlock (fun _ _ => Normal (Some Examples.deliveredState))
      RelayTests.beforeEach in
  result.2 = RelayTests.Throws "Exceeded maximum attempts or bounty not found"
  ∧ (result.2 = RelayTests.Hangs ∨ ∃ message, result.2 = RelayTests.Throws message)
  ∧ RelayTests.reads result.1 = 0%nat
  ∧ RelayTests.relayState result.1 = None
  ∧ (∀ blockHash topicHash log messageIdentifier,
       Normal (Some "0xblock") = Normal (Some blockHash) -> blockHash ≠ "" ->
       QueryLogs.getEvent Examples.escrowInterface "BountyPlaced" = Some topicHash ->
       Examples.logOfBlock "0xE1" topicHash blockHash = RelayTests.Returns (Some log) ->
       QueryLogs.parseLog Examples.escrowInterface log
         = Normal (Some messageIdentifier) ->
       result.2 = RelayTests.Throws "Exceeded maximum attempts or bounty not found").
Proof.
  cbv zeta. split; [vm_compute; reflexivity |].
  refine (retrieveBountyPlaced_needs_maximum Examples.emptyEnv Examples.parseThree
            "0xE1" Examples.escrowInterface (fun _ => Normal (Some "0xblock"))
            Examples.logOfBlock (fun _ _ => Normal (Some Examples.deliveredState))
            RelayTests.beforeEach _ _).
  - reflexivity.
  - reflexivity.
Defined.
